(** * YouFocus: the quota-aware API access layer

    A shallow embedding of the response cache ([APICache]), the key
    rotation manager ([APIKeyManager]) and the orchestrating client
    ([YouTubeAPIClient]), with the simple key rotator
    ([SimpleAPIKeyRotator]) and the key validator ([validateApiKey]),
    followed by the properties of the access layer.

    Conventions of the embedding:
    - timestamps and durations are integer milliseconds ([Z]), as
      [Date.now()] returns them; a confidence score is a rational ([Q]);
    - a JavaScript [Map<string, V>] is a [gmap string V];
    - [undefined] and [null] are [None]; a thrown value is an [inl];
    - a method that mutates [this] returns the new object next to its
      result, and every read of the clock is explicit;
    - strings are byte strings: [trim] and [toLowerCase] act on ASCII;
    - upstream items have the fields of their TypeScript interfaces;
    - an [async] method of the client is a state-and-error computation
      over the shared cache and the log of its outbound calls; what the
      provider and the search bridge answer is a parameter ([World]). *)

From Stdlib Require Import ZArith QArith Lia Lqa Ascii String Sorting.Sorted Sorting.Permutation.
From stdpp Require Import gmap strings list pretty.

Open Scope Z_scope.

(** ** Core data models (types.ts) *)

Module Channel.
Record t := mk {
  id : string;
  title : string;
  thumbnailUrl : string;
  subscriberCount : option Z;
  uploadsPlaylistId : string
}.
End Channel.

Module Video.
Record t := mk {
  id : string;
  title : string;
  thumbnailUrl : string;
  channelId : string;
  channelTitle : string;
  publishedAt : option Z;   (* [new Date(s)]: [None] is an Invalid Date *)
  duration : string;
  description : string
}.
End Video.

Record CacheEntry (T : Type) := mkCacheEntry {
  data : T;
  timestamp : Z;
  expiresAt : Z
}.
Arguments mkCacheEntry {T}.
Arguments data {T}.
Arguments timestamp {T}.
Arguments expiresAt {T}.

(** The client stores [Channel[]] in the video cache through a cast
    ([channels as unknown as Video[]]); at run time the video cache
    therefore holds either kind of array. *)
Inductive VideoCacheData :=
| Videos (l : list Video.t)
| Channels (l : list Channel.t).

(** ** APICache *)

Module APICache.

Record t := mk {
  channelCache : gmap string (CacheEntry Channel.t);
  videoCache : gmap string (CacheEntry VideoCacheData);
  defaultCacheDuration : Z
}.

(** [constructor(cacheDurationMs = 4 * 60 * 60 * 1000)] *)
Definition new (cacheDurationMs : option Z) : t :=
  mk ∅ ∅ (default (4 * 60 * 60 * 1000) cacheDurationMs).

Definition setChannel (now : Z) (key : string) (channel : Channel.t)
    (customDuration : option Z) (c : t) : t :=
  let duration := default (defaultCacheDuration c) customDuration in
  mk (<[key := mkCacheEntry channel now (now + duration)]> (channelCache c))
     (videoCache c) (defaultCacheDuration c).

Definition getChannel (now : Z) (key : string) (c : t) : option Channel.t * t :=
  match channelCache c !! key with
  | None => (None, c)
  | Some entry =>
      if expiresAt entry <=? now
      then (None, mk (delete key (channelCache c)) (videoCache c) (defaultCacheDuration c))
      else (Some (data entry), c)
  end.

Definition setVideos (now : Z) (key : string) (videos : VideoCacheData)
    (customDuration : option Z) (c : t) : t :=
  let duration := default (defaultCacheDuration c) customDuration in
  mk (channelCache c)
     (<[key := mkCacheEntry videos now (now + duration)]> (videoCache c))
     (defaultCacheDuration c).

Definition getVideos (now : Z) (key : string) (c : t) : option VideoCacheData * t :=
  match videoCache c !! key with
  | None => (None, c)
  | Some entry =>
      if expiresAt entry <=? now
      then (None, mk (channelCache c) (delete key (videoCache c)) (defaultCacheDuration c))
      else (Some (data entry), c)
  end.

Definition invalidateChannel (key : string) (c : t) : t :=
  mk (delete key (channelCache c)) (videoCache c) (defaultCacheDuration c).

Definition invalidateVideos (key : string) (c : t) : t :=
  mk (channelCache c) (delete key (videoCache c)) (defaultCacheDuration c).

Definition clearChannels (c : t) : t := mk ∅ (videoCache c) (defaultCacheDuration c).
Definition clearVideos (c : t) : t := mk (channelCache c) ∅ (defaultCacheDuration c).
Definition clearAll (c : t) : t := mk ∅ ∅ (defaultCacheDuration c).

Definition getChannelCacheSize (c : t) : nat := size (channelCache c).
Definition getVideoCacheSize (c : t) : nat := size (videoCache c).

(** The time-to-live an entry receives from [setChannel]/[setVideos]. *)
Definition ttlOf (customDuration : option Z) (c : t) : Z :=
  default (defaultCacheDuration c) customDuration.

End APICache.

(** ** APIKeyManager *)

Module APIKeyStatus.
Record t := mk {
  key : string;
  isActive : bool;
  quotaExhausted : bool;
  lastError : option string;
  lastErrorTime : option Z;
  consecutiveErrors : nat;
  nextRetryTime : option Z
}.
End APIKeyStatus.

Module APIKeyManager.
Import APIKeyStatus.

Record t := mk {
  apiKeys : list string;
  keyStatuses : gmap string APIKeyStatus.t;
  currentKeyIndex : nat
}.

Definition maxRetryDelay : Z := 60 * 60 * 1000.
Definition baseRetryDelay : Z := 5 * 60 * 1000.

(** [if (status.nextRetryTime ...)]: an optional number is truthy when it
    is set and not zero. *)
Definition truthy (n : option Z) : bool :=
  match n with
  | Some v => negb (v =? 0)
  | None => false
  end.

Definition setIndex (i : nat) (m : t) : t := mk (apiKeys m) (keyStatuses m) i.
Definition setStatuses (s : gmap string APIKeyStatus.t) (m : t) : t :=
  mk (apiKeys m) s (currentKeyIndex m).

(** [constructor(apiKeys)]: [inl] is the thrown [Error]. *)
Definition new (keys : list string) : string + t :=
  if (length keys =? 0)%nat then inl "At least one API key is required"%string
  else inr (mk keys
               (foldl (fun sts key =>
                         <[key := APIKeyStatus.mk key true false None None 0 None]> sts)
                      ∅ keys)
               0).

(** The callback of the [filter] in [getAvailableKeys], run on one key:
    whether the key is kept, and the status map after the callback's
    lazy reactivation. *)
Definition keyAvailable (now : Z) (key : string) (sts : gmap string APIKeyStatus.t)
    : bool * gmap string APIKeyStatus.t :=
  match sts !! key with
  | None => (false, sts)
  | Some status =>
      if truthy (nextRetryTime status) && (now <? default 0 (nextRetryTime status))
      then (false, sts)
      else
        if truthy (nextRetryTime status)
           && (default 0 (nextRetryTime status) <=? now)
           && negb (quotaExhausted status)
        then
          let status' :=
            APIKeyStatus.mk (APIKeyStatus.key status) true (quotaExhausted status)
              (lastError status) (lastErrorTime status)
              (consecutiveErrors status) None in
          (isActive status' && negb (quotaExhausted status'), <[key := status']> sts)
        else (isActive status && negb (quotaExhausted status), sts)
  end.

Fixpoint filterAvailable (now : Z) (keys : list string)
    (sts : gmap string APIKeyStatus.t) : list string * gmap string APIKeyStatus.t :=
  match keys with
  | [] => ([], sts)
  | key :: rest =>
      let '(keep, sts1) := keyAvailable now key sts in
      let '(out, sts2) := filterAvailable now rest sts1 in
      (if keep then key :: out else out, sts2)
  end.

Definition getAvailableKeys (now : Z) (m : t) : list string * t :=
  let '(out, sts) := filterAvailable now (apiKeys m) (keyStatuses m) in
  (out, setStatuses sts m).

(** [availableKeys.includes(x)] where [x] may be [undefined]. *)
Definition includes (l : list string) (x : option string) : bool :=
  match x with
  | Some k => bool_decide (k ∈ l)
  | None => false
  end.

(** [arr.findIndex(p)]; [None] stands for [-1]. *)
Fixpoint findIndex (p : string → bool) (l : list string) : option nat :=
  match l with
  | [] => None
  | x :: rest => if p x then Some 0%nat else S <$> findIndex p rest
  end.

Definition getCurrentKey (now : Z) (m : t) : option string * t :=
  let '(availableKeys, m1) := getAvailableKeys now m in
  if (length availableKeys =? 0)%nat then (None, m1)
  else
    let currentKey := apiKeys m1 !! currentKeyIndex m1 in
    let m2 :=
      if negb (includes availableKeys currentKey) then
        match findIndex (fun key => includes availableKeys (Some key)) (apiKeys m1) with
        | Some nextKeyIndex => setIndex nextKeyIndex m1
        | None => m1
        end
      else m1 in
    (apiKeys m2 !! currentKeyIndex m2, m2).

(** The [while (attempts < this.apiKeys.length)] loop of [rotateKey];
    [remaining] is [this.apiKeys.length - attempts]. *)
Fixpoint rotateLoop (availableKeys : list string) (m : t)
    (nextIndex : nat) (remaining : nat) : option string * t :=
  match remaining with
  | O => (None, m)
  | S remaining' =>
      let nextKey := apiKeys m !! nextIndex in
      if includes availableKeys nextKey
      then (nextKey, setIndex nextIndex m)
      else rotateLoop availableKeys m
             ((nextIndex + 1) `mod` length (apiKeys m))%nat remaining'
  end.

Definition rotateKey (now : Z) (m : t) : option string * t :=
  let '(availableKeys, m1) := getAvailableKeys now m in
  if (length availableKeys =? 0)%nat then (None, m1)
  else
    rotateLoop availableKeys m1
      ((currentKeyIndex m1 + 1) `mod` length (apiKeys m1))%nat
      (length (apiKeys m1)).

Section Calendar.
(** [tomorrow.setDate(tomorrow.getDate() + 1); tomorrow.setHours(0, 0, 0, 0)]:
    the next local midnight after [now]; it depends on the time zone of
    the runtime and is a parameter of the manager. *)
Variable nextMidnight : Z → Z.

Definition reportError (now : Z) (error : string) (isQuotaError : bool) (m : t) : t :=
  match apiKeys m !! currentKeyIndex m with
  | None => m
  | Some currentKey =>
      match keyStatuses m !! currentKey with
      | None => m
      | Some status =>
          let errors := S (consecutiveErrors status) in
          let status' :=
            if isQuotaError then
              APIKeyStatus.mk (APIKeyStatus.key status) false true (Some error) (Some now)
                errors (Some (nextMidnight now))
            else
              let delay :=
                Z.min (baseRetryDelay * 2 ^ (Z.of_nat errors - 1)) maxRetryDelay in
              APIKeyStatus.mk (APIKeyStatus.key status) false (quotaExhausted status)
                (Some error) (Some now) errors (Some (now + delay)) in
          setStatuses (<[currentKey := status']> (keyStatuses m)) m
      end
  end.
End Calendar.

Definition reportSuccess (m : t) : t :=
  match apiKeys m !! currentKeyIndex m with
  | None => m
  | Some currentKey =>
      match keyStatuses m !! currentKey with
      | None => m
      | Some status =>
          let status' :=
            APIKeyStatus.mk (APIKeyStatus.key status) true (quotaExhausted status) None None 0 None in
          setStatuses (<[currentKey := status']> (keyStatuses m)) m
      end
  end.

Definition resetStatus (status : APIKeyStatus.t) : APIKeyStatus.t :=
  if quotaExhausted status
  then APIKeyStatus.mk (APIKeyStatus.key status) true false (lastError status)
         (lastErrorTime status) (consecutiveErrors status) None
  else status.

(** [keyStatuses.forEach]: every entry of the map is visited once. *)
Definition resetQuotaStatus (m : t) : t :=
  setStatuses (resetStatus <$> keyStatuses m) m.

Definition getTotalKeys (m : t) : nat := length (apiKeys m).

Definition getAvailableKeyCount (now : Z) (m : t) : nat * t :=
  let '(out, m1) := getAvailableKeys now m in (length out, m1).

Definition hasAvailableKeys (now : Z) (m : t) : bool * t :=
  let '(out, m1) := getAvailableKeys now m in (negb (length out =? 0)%nat, m1).

End APIKeyManager.

(** ** Strings as the client uses them *)

Module JSString.

(** ASCII white space removed by [trim]. *)
Definition isSpace (a : Ascii.ascii) : bool :=
  let n := Ascii.nat_of_ascii a in
  ((9 <=? n) && (n <=? 13))%nat || (n =? 32)%nat.

Fixpoint trimStart (s : string) : string :=
  match s with
  | EmptyString => EmptyString
  | String a rest => if isSpace a then trimStart rest else s
  end.

Fixpoint trimEnd (s : string) : string :=
  match s with
  | EmptyString => EmptyString
  | String a rest =>
      match trimEnd rest with
      | EmptyString => if isSpace a then EmptyString else String a EmptyString
      | rest' => String a rest'
      end
  end.

Definition trim (s : string) : string := trimEnd (trimStart s).

Definition lowerChar (a : Ascii.ascii) : Ascii.ascii :=
  let n := Ascii.nat_of_ascii a in
  if ((65 <=? n) && (n <=? 90))%nat then Ascii.ascii_of_nat (n + 32) else a.

Fixpoint toLowerCase (s : string) : string :=
  match s with
  | EmptyString => EmptyString
  | String a rest => String (lowerChar a) (toLowerCase rest)
  end.

(** [s.includes(sub)] *)
Definition includes (s sub : string) : bool :=
  match String.index 0 sub s with
  | Some _ => true
  | None => false
  end.

(** [!s || s.trim().length === 0] *)
Definition isBlank (s : string) : bool := (String.length (trim s) =? 0)%nat.

(** [[...new Set(l)]]: duplicates removed, first occurrences kept in order. *)
Fixpoint distinctFrom (seen : list string) (l : list string) : list string :=
  match l with
  | [] => []
  | x :: rest =>
      if bool_decide (x ∈ seen) then distinctFrom seen rest
      else x :: distinctFrom (x :: seen) rest
  end.

Definition distinct (l : list string) : list string := distinctFrom [] l.

(** [parseInt(s, 10)]: optional white space and sign, then decimal digits;
    [None] is [NaN]. *)
Definition digitOf (a : Ascii.ascii) : option Z :=
  let n := Ascii.nat_of_ascii a in
  if ((48 <=? n) && (n <=? 57))%nat then Some (Z.of_nat (n - 48)) else None.

Fixpoint digits (acc : option Z) (s : string) : option Z :=
  match s with
  | EmptyString => acc
  | String a rest =>
      match digitOf a with
      | Some d => digits (Some (10 * default 0 acc + d)) rest
      | None => acc
      end
  end.

Definition parseInt (s : string) : option Z :=
  match trimStart s with
  | String "-"%char rest => Z.opp <$> digits None rest
  | String "+"%char rest => digits None rest
  | rest => digits None rest
  end.

End JSString.

(** ** Wire types of the provider and of the search bridge *)

Module YouTubeChannelSearchItem.
Record t := mk { channelId : string; title : string }.
End YouTubeChannelSearchItem.

Record Thumbnails := mkThumbnails {
  high : option string;
  medium : option string;
  default_ : string
}.

Module YouTubeChannelItem.
Record t := mk {
  id : string;
  title : string;
  thumbnails : Thumbnails;
  subscriberCount : string;
  uploads : string
}.
End YouTubeChannelItem.

Module YouTubePlaylistItem.
Record t := mk {
  id : string;
  publishedAt : string;
  videoId : string
}.
End YouTubePlaylistItem.

Module YouTubeVideoItem.
Record t := mk {
  id : string;
  publishedAt : string;
  channelId : string;
  title : string;
  description : string;
  thumbnails : Thumbnails;
  channelTitle : string;
  duration : string
}.
End YouTubeVideoItem.

Module SearchResult.
Record t := mk {
  id : string;
  title : string;
  thumbnailUrl : string;
  videoId : string;
  videoTitle : string;
  confidence : Q
}.
End SearchResult.

Module APIError.
Record t := mk {
  code : Z;
  message : string;
  userMessage : string;
  retryable : bool
}.
End APIError.

(** What an [axios] error carries of the HTTP response: the status and
    [data?.error?.message]. *)
Record ErrorResponse := mkErrorResponse {
  status : Z;
  dataErrorMessage : option string
}.

(** The values that reach a [catch (error)] of the client. *)
Inductive Thrown :=
| ThrownAPIError (e : APIError.t)
| ThrownAxios (message : string) (response : option ErrorResponse)
| ThrownError (message : string)
| ThrownOther.

(** The body of a successful provider response, as far as
    [validateResponse] looks at it. *)
Inductive Body (T : Type) :=
| BodyEmpty                      (* falsy: null, undefined, empty *)
| BodyNoItems                    (* an object without [items] *)
| BodyBadItems                   (* [items] is not an array *)
| BodyItems (items : list T).
Arguments BodyEmpty {T}.
Arguments BodyNoItems {T}.
Arguments BodyBadItems {T}.
Arguments BodyItems {T}.

Inductive Outcome (T : Type) :=
| Responded (body : Body T)
| Failed (error : Thrown).
Arguments Responded {T}.
Arguments Failed {T}.

Inductive Request :=
| ReqSearch (q : string) (maxResults : Z)
| ReqChannels (id : string)
| ReqPlaylistItems (playlistId : string) (maxResults : Z)
| ReqVideos (id : string).

(** The outbound calls of the client, in the order they are made. *)
Inductive Call :=
| ProviderCall (key : string) (request : Request)
| BridgeHealth
| BridgeSearch (q : string) (maxResults : Z).

(** The world outside the client. Every answer may depend on how many
    outbound calls have completed before ([nat]); the clock is read
    between two calls. *)
Record World := mkWorld {
  clock : nat → Z;
  parseDate : string → option Z;          (* [new Date(s).getTime()], [None] if invalid *)
  subDays : Z → Z → Z;                    (* [d.setDate(d.getDate() - days)] *)
  searchEndpoint : nat → string → string → Z → Outcome YouTubeChannelSearchItem.t;
  channelsEndpoint : nat → string → string → Outcome YouTubeChannelItem.t;
  playlistItemsEndpoint : nat → string → string → Z → Outcome YouTubePlaylistItem.t;
  videosEndpoint : nat → string → string → Outcome YouTubeVideoItem.t;
  bridgeHealth : nat → option bool;       (* [response.ok]; [None] if [fetch] throws *)
  bridgeSearch : nat → string → Z → Thrown + list SearchResult.t
}.

(** ** YouTubeAPIClient *)

Module YouTubeAPIClient.

Record Config := mkConfig {
  cfgApiKey : string;
  cfgMaxResults : option Z;
  cfgVideoTimeWindowDays : option Z;
  cfgSearchService : bool;               (* whether [searchService] is given *)
  cfgUseSearchService : option bool
}.

Record t := mk {
  apiKey : string;
  maxResults : Z;
  videoTimeWindowDays : Z;
  searchService : bool;                  (* whether [this.searchService] is set *)
  useSearchService : bool
}.

(** [constructor(config)]; the cache is part of the run state below. *)
Definition new (config : Config) : string + t :=
  if JSString.isBlank (cfgApiKey config) then inl "YouTube API key is required"%string
  else
    let use := default true (cfgUseSearchService config) in
    inr (mk (cfgApiKey config)
            (default 50 (cfgMaxResults config))
            (default 30 (cfgVideoTimeWindowDays config))
            (cfgSearchService config && use)
            use).

(** The mutable state a call runs in: the shared cache and the log of
    outbound calls. *)
Record State := mkState {
  cache : APICache.t;
  trace : list Call
}.

Definition M (A : Type) : Type := State → (Thrown + A) * State.

Definition ret {A} (a : A) : M A := fun st => (inr a, st).
Definition throw {A} (e : Thrown) : M A := fun st => (inl e, st).
Definition bind {A B} (m : M A) (k : A → M B) : M B :=
  fun st =>
    match m st with
    | (inl e, st') => (inl e, st')
    | (inr a, st') => k a st'
    end.
Definition tryCatch {A} (m : M A) (handler : Thrown → M A) : M A :=
  fun st =>
    match m st with
    | (inl e, st') => handler e st'
    | (inr a, st') => (inr a, st')
    end.

#[local] Notation "'let*' x ':=' m 'in' k" := (bind m (fun x => k))
  (at level 10, x name, m at level 100, k at level 200).

Definition createAPIError (code : Z) (message userMessage : string)
    (retryable : bool) : APIError.t :=
  APIError.mk code message userMessage retryable.

(** [handleError(error)] *)
Definition handleError (error : Thrown) : APIError.t :=
  match error with
  | ThrownAPIError e => e
  | ThrownAxios axiosMessage None =>
      createAPIError 0 axiosMessage
        "Unable to connect to YouTube. Please check your internet connection." true
  | ThrownAxios axiosMessage (Some response) =>
      let message := default axiosMessage (dataErrorMessage response) in
      if status response =? 400 then
        createAPIError 400 message
          "Invalid request. Please check your input and try again." false
      else if status response =? 403 then
        if JSString.includes (JSString.toLowerCase message) "quota" then
          createAPIError 403 message
            "YouTube API quota exceeded. The quota resets daily at midnight PST. Try again in a few hours or contact support for a premium API key."
            false
        else
          createAPIError 403 message
            "Access denied. Please check your API key configuration." false
      else if status response =? 404 then
        createAPIError 404 message "The requested resource was not found." false
      else if status response =? 429 then
        createAPIError 429 message
          "Too many requests. Please wait a moment and try again." true
      else if (status response =? 500) || (status response =? 503) then
        createAPIError (status response) message
          "YouTube service is temporarily unavailable. Please try again later." true
      else
        createAPIError (status response) message
          "An unexpected error occurred. Please try again." true
  | ThrownError errorMessage =>
      createAPIError 500 errorMessage
        "An unexpected error occurred. Please try again." true
  | ThrownOther =>
      createAPIError 500 "Unknown error"
        "An unexpected error occurred. Please try again." true
  end.

(** [try { ... } catch (error) { throw this.handleError(error); }] *)
Definition handled {A} (m : M A) : M A :=
  tryCatch m (fun error => throw (ThrownAPIError (handleError error))).

(** [validateResponse(response, ['items'])]; on success the items. *)
Definition validateResponse {T} (response : Body T) : M (list T) :=
  match response with
  | BodyEmpty =>
      throw (ThrownAPIError (createAPIError 500 "Empty response from API"
               "Received an invalid response from YouTube" true))
  | BodyNoItems =>
      throw (ThrownAPIError (createAPIError 500 "Missing required field: items"
               "Received an invalid response from YouTube" true))
  | BodyBadItems =>
      throw (ThrownAPIError (createAPIError 500 "Invalid items field in response"
               "Received an invalid response from YouTube" true))
  | BodyItems items => ret items
  end.

Definition pickThumbnail (t : Thumbnails) : string :=
  match high t with
  | Some url => url
  | None => match medium t with Some url => url | None => default_ t end
  end.

Definition mapChannelItem (item : YouTubeChannelItem.t) : Channel.t :=
  Channel.mk (YouTubeChannelItem.id item) (YouTubeChannelItem.title item)
    (pickThumbnail (YouTubeChannelItem.thumbnails item))
    (JSString.parseInt (YouTubeChannelItem.subscriberCount item))
    (YouTubeChannelItem.uploads item).

(** [Math.min(this.maxResults, 25)] *)
Definition searchLimit (c : t) : Z := Z.min (maxResults c) 25.

(** [for (let i = 0; i < videoIds.length; i += batchSize)
      batches.push(videoIds.slice(i, i + batchSize))]; [fuel] bounds the
    number of iterations. *)
Fixpoint batchesOf (fuel : nat) (batchSize : nat) (l : list string) : list (list string) :=
  match fuel, l with
  | _, [] => []
  | O, _ => []
  | S fuel', _ => take batchSize l :: batchesOf fuel' batchSize (drop batchSize l)
  end.

Section Client.
Variable w : World.
Variable c : t.

Definition now : M Z := fun st => (inr (clock w (length (trace st))), st).

Definition mapVideoItem (item : YouTubeVideoItem.t) : Video.t :=
  Video.mk (YouTubeVideoItem.id item) (YouTubeVideoItem.title item)
    (pickThumbnail (YouTubeVideoItem.thumbnails item))
    (YouTubeVideoItem.channelId item) (YouTubeVideoItem.channelTitle item)
    (parseDate w (YouTubeVideoItem.publishedAt item))
    (YouTubeVideoItem.duration item) (YouTubeVideoItem.description item).

(** The cache methods, run at the current time. *)
Definition cacheGetChannel (key : string) : M (option Channel.t) :=
  fun st =>
    let '(r, cache') := APICache.getChannel (clock w (length (trace st))) key (cache st) in
    (inr r, mkState cache' (trace st)).

Definition cacheSetChannel (key : string) (channel : Channel.t)
    (customDuration : option Z) : M unit :=
  fun st =>
    (inr tt, mkState (APICache.setChannel (clock w (length (trace st))) key channel
                        customDuration (cache st)) (trace st)).

Definition cacheGetVideos (key : string) : M (option VideoCacheData) :=
  fun st =>
    let '(r, cache') := APICache.getVideos (clock w (length (trace st))) key (cache st) in
    (inr r, mkState cache' (trace st)).

Definition cacheSetVideos (key : string) (videos : VideoCacheData)
    (customDuration : option Z) : M unit :=
  fun st =>
    (inr tt, mkState (APICache.setVideos (clock w (length (trace st))) key videos
                        customDuration (cache st)) (trace st)).

(** [makeAPIRequest(endpoint, params)]: one GET carrying the client's
    key; an [axios] failure is rethrown unchanged. *)
Definition requestOutcome {T} (outcome : Outcome T) (call : Call) : M (Body T) :=
  fun st =>
    let st' := mkState (cache st) (trace st ++ [call]) in
    match outcome with
    | Responded body => (inr body, st')
    | Failed error => (inl error, st')
    end.

Definition requestSearch (q : string) (limit : Z) : M (Body YouTubeChannelSearchItem.t) :=
  fun st =>
    requestOutcome (searchEndpoint w (length (trace st)) (apiKey c) q limit)
      (ProviderCall (apiKey c) (ReqSearch q limit)) st.

Definition requestChannels (id : string) : M (Body YouTubeChannelItem.t) :=
  fun st =>
    requestOutcome (channelsEndpoint w (length (trace st)) (apiKey c) id)
      (ProviderCall (apiKey c) (ReqChannels id)) st.

Definition requestPlaylistItems (playlistId : string) (limit : Z)
    : M (Body YouTubePlaylistItem.t) :=
  fun st =>
    requestOutcome (playlistItemsEndpoint w (length (trace st)) (apiKey c) playlistId limit)
      (ProviderCall (apiKey c) (ReqPlaylistItems playlistId limit)) st.

Definition requestVideos (id : string) : M (Body YouTubeVideoItem.t) :=
  fun st =>
    requestOutcome (videosEndpoint w (length (trace st)) (apiKey c) id)
      (ProviderCall (apiKey c) (ReqVideos id)) st.

(** [SearchService.isHealthy()]: never throws. *)
Definition isHealthy : M bool :=
  fun st =>
    (inr (default false (bridgeHealth w (length (trace st)))),
     mkState (cache st) (trace st ++ [BridgeHealth])).

(** [SearchService.searchChannels(query, maxResults)] *)
Definition serviceSearchChannels (query : string) (limit : Z) : M (list SearchResult.t) :=
  if JSString.isBlank query then throw (ThrownError "Search query cannot be empty")
  else
    fun st =>
      (bridgeSearch w (length (trace st)) (JSString.trim query) limit,
       mkState (cache st) (trace st ++ [BridgeSearch (JSString.trim query) limit])).

(** [SearchService.extractVideoIds] *)
Definition extractVideoIds (searchResults : list SearchResult.t) : list string :=
  JSString.distinct (SearchResult.videoId <$> searchResults).

(** The body of the [for (const batch of batches)] loop of
    [getVideoDetails], over the remaining batches. *)
Fixpoint fetchBatches (batches : list (list string)) (allVideos : list Video.t)
    : M (list Video.t) :=
  match batches with
  | [] => ret allVideos
  | batch :: rest =>
      let* response := requestVideos (String.concat "," batch) in
      let* items := validateResponse response in
      fetchBatches rest (allVideos ++ (mapVideoItem <$> items))
  end.

Definition getVideoDetails (videoIds : list string) : M (list Video.t) :=
  if (length videoIds =? 0)%nat then ret []
  else handled (fetchBatches (batchesOf (length videoIds) 50 videoIds) []).

Definition getChannelsByIds (channelIds : list string) : M (list Channel.t) :=
  if (length channelIds =? 0)%nat then ret []
  else
    handled (
      let* response := requestChannels (String.concat "," channelIds) in
      let* items := validateResponse response in
      ret (mapChannelItem <$> items)).

(** The relevance map built by the [forEach] over [videoDetails]. *)
Definition qmax (a b : Q) : Q := if Qle_bool a b then b else a.

(** [x || 0] on an optional number. *)
Definition orZero (x : option Q) : Q :=
  match x with
  | Some v => v
  | None => 0%Q
  end.

Definition relevanceStep (searchResults : list SearchResult.t)
    (rel : gmap string Q) (video : Video.t) : gmap string Q :=
  match List.find (fun sr => bool_decide (SearchResult.videoId sr = Video.id video))
                  searchResults with
  | Some searchResult =>
      let currentConfidence := orZero (rel !! Video.channelId video) in
      <[Video.channelId video := qmax currentConfidence (SearchResult.confidence searchResult)]> rel
  | None => rel
  end.

Definition channelRelevanceMap (searchResults : list SearchResult.t)
    (videoDetails : list Video.t) : gmap string Q :=
  foldl (relevanceStep searchResults) ∅ videoDetails.

(** [channels.sort((a, b) => confidenceB - confidenceA)]: the sort is
    stable; an element moves in front of the sorted rest unless the
    comparator puts the next one strictly first. *)
Fixpoint insertByConfidence (rel : gmap string Q) (a : Channel.t)
    (sorted : list Channel.t) : list Channel.t :=
  match sorted with
  | [] => [a]
  | b :: rest =>
      if Qlt_le_dec 0 (orZero (rel !! Channel.id b) - orZero (rel !! Channel.id a))
      then b :: insertByConfidence rel a rest
      else a :: b :: rest
  end.

Definition sortByConfidence (rel : gmap string Q) (channels : list Channel.t)
    : list Channel.t :=
  foldr (insertByConfidence rel) [] channels.

Definition searchChannelsViaService (query cacheKey : string) : M (list Channel.t) :=
  handled (
    let* searchResults := serviceSearchChannels query (searchLimit c) in
    if (length searchResults =? 0)%nat then ret []
    else
      let videoIds := extractVideoIds searchResults in
      let* videoDetails := getVideoDetails videoIds in
      let channelIds := JSString.distinct (Video.channelId <$> videoDetails) in
      if (length channelIds =? 0)%nat then ret []
      else
        let* channels := getChannelsByIds channelIds in
        let rel := channelRelevanceMap searchResults videoDetails in
        let sorted := sortByConfidence rel channels in
        let* _ := cacheSetVideos cacheKey (Channels sorted) (Some (24 * 60 * 60 * 1000)) in
        ret sorted).

Definition searchChannelsViaAPI (query cacheKey : string) : M (list Channel.t) :=
  handled (
    let* response := requestSearch query (searchLimit c) in
    let* items := validateResponse response in
    let channelIds := YouTubeChannelSearchItem.channelId <$> items in
    if (length channelIds =? 0)%nat then ret []
    else
      let* channels := getChannelsByIds channelIds in
      let* _ := cacheSetVideos cacheKey (Channels channels) (Some (24 * 60 * 60 * 1000)) in
      ret channels).

(** The [try] block around the bridge in [searchChannels]: [Some] is
    the value it returns, [None] means execution goes on after the
    block. *)
Definition tryBridge (query cacheKey : string) : M (option (list Channel.t)) :=
  if searchService c && useSearchService c then
    tryCatch (
      let* healthy := isHealthy in
      if healthy then
        let* channels := searchChannelsViaService query cacheKey in
        ret (Some channels)
      else ret None)
      (fun _ => ret None)
  else ret None.

Definition searchCacheKey (query : string) : string :=
  "search:" +:+ JSString.trim (JSString.toLowerCase query).

(** [searchChannels(query)]. A cache hit hands back whatever array the
    video cache holds under the key. *)
Definition searchChannels (query : string) : M VideoCacheData :=
  if JSString.isBlank query then
    throw (ThrownAPIError (createAPIError 400 "Search query cannot be empty"
             "Please enter a channel name to search" false))
  else
    let cacheKey := searchCacheKey query in
    let* cachedChannels := cacheGetVideos cacheKey in
    match cachedChannels with
    | Some cached => ret cached
    | None =>
        let* viaBridge := tryBridge query cacheKey in
        match viaBridge with
        | Some channels => ret (Channels channels)
        | None =>
            let* channels := searchChannelsViaAPI query cacheKey in
            ret (Channels channels)
        end
    end.

Definition getChannelInfo (channelId : string) : M Channel.t :=
  if JSString.isBlank channelId then
    throw (ThrownAPIError (createAPIError 400 "Channel ID cannot be empty"
             "Please provide a valid channel ID" false))
  else
    let* cachedChannel := cacheGetChannel channelId in
    match cachedChannel with
    | Some channel => ret channel
    | None =>
        handled (
          let* response := requestChannels channelId in
          let* items := validateResponse response in
          match items with
          | [] =>
              throw (ThrownAPIError (createAPIError 404 "Channel not found"
                       "The channel you requested could not be found" false))
          | item :: _ =>
              let channel := mapChannelItem item in
              let* _ := cacheSetChannel channelId channel None in
              ret channel
          end)
    end.

Definition videosCacheKey (channelId : string) (limit : Z) : string :=
  "videos:" +:+ channelId +:+ ":" +:+ pretty limit.

(** The filter of [getChannelVideos]: [publishedDate >= publishedAfter];
    a comparison with an invalid date is false. *)
Definition publishedSince (publishedAfter : Z) (item : YouTubePlaylistItem.t) : bool :=
  match parseDate w (YouTubePlaylistItem.publishedAt item) with
  | Some publishedDate => publishedAfter <=? publishedDate
  | None => false
  end.

Definition getChannelVideos (channelId : string) (maxResultsArg : option Z)
    : M VideoCacheData :=
  if JSString.isBlank channelId then
    throw (ThrownAPIError (createAPIError 400 "Channel ID cannot be empty"
             "Please provide a valid channel ID" false))
  else
    let limit := default (maxResults c) maxResultsArg in
    let cacheKey := videosCacheKey channelId limit in
    let* cachedVideos := cacheGetVideos cacheKey in
    match cachedVideos with
    | Some cached => ret cached
    | None =>
        handled (
          let* channel := getChannelInfo channelId in
          let* today := now in
          let publishedAfter := subDays w today (videoTimeWindowDays c) in
          let* response :=
            requestPlaylistItems (Channel.uploadsPlaylistId channel) limit in
          let* items := validateResponse response in
          let videoIds :=
            YouTubePlaylistItem.videoId <$>
              List.filter (publishedSince publishedAfter) items in
          if (length videoIds =? 0)%nat then ret (Videos [])
          else
            let* videos := getVideoDetails videoIds in
            let* _ := cacheSetVideos cacheKey (Videos videos) None in
            ret (Videos videos))
    end.

End Client.

End YouTubeAPIClient.

(** ** Auxiliary notions used to state the key manager's properties *)

Module KeyManagerSpec.
Import APIKeyStatus APIKeyManager.

(** Whether [getAvailableKeys] keeps a key with status [st] at time [now]. *)
Definition availableAt (now : Z) (st : APIKeyStatus.t) : bool :=
  negb (quotaExhausted st)
  && (if truthy (nextRetryTime st)
      then default 0 (nextRetryTime st) <=? now
      else isActive st).

Definition availableIn (now : Z) (sts : gmap string APIKeyStatus.t) (k : string) : bool :=
  match sts !! k with
  | Some st => availableAt now st
  | None => false
  end.

Definition exhaustedIn (sts : gmap string APIKeyStatus.t) (k : string) : bool :=
  match sts !! k with
  | Some st => quotaExhausted st
  | None => false
  end.

(** The calls a client can make on the manager, apart from
    [resetQuotaStatus]. *)
Inductive call :=
| GetCurrentKey (now : Z)
| RotateKey (now : Z)
| ReportError (now : Z) (error : string) (isQuotaError : bool)
| ReportSuccess
| GetAvailableKeyCount (now : Z).

Section Runs.
Variable nextMidnight : Z → Z.

(** One call: the key it returns (if it returns one) and the manager
    after it. *)
Definition perform (c : call) (m : APIKeyManager.t) : option string * APIKeyManager.t :=
  match c with
  | GetCurrentKey now => getCurrentKey now m
  | RotateKey now => rotateKey now m
  | ReportError now error isQuotaError =>
      (None, reportError nextMidnight now error isQuotaError m)
  | ReportSuccess => (None, reportSuccess m)
  | GetAvailableKeyCount now => (None, (getAvailableKeyCount now m).2)
  end.

(** A sequence of calls: the keys returned along the way and the final
    manager. *)
Fixpoint performAll (cs : list call) (m : APIKeyManager.t)
    : list (option string) * APIKeyManager.t :=
  match cs with
  | [] => ([], m)
  | c :: rest =>
      let '(r, m1) := perform c m in
      let '(rs, m2) := performAll rest m1 in
      (r :: rs, m2)
  end.

(** One quota-class failure as a failover handles it: the error is
    reported against the current key at time [reportedAt]; then, at
    time [advancedAt], the pointer is moved on with [rotateKey] or, if
    [viaRotate] is false, by asking [getCurrentKey] for a key. *)
Definition quotaFailure (f : Z * Z * bool) (m : APIKeyManager.t) : APIKeyManager.t :=
  let '(reportedAt, advancedAt, viaRotate) := f in
  let m1 := reportError nextMidnight reportedAt "quotaExceeded" true m in
  if viaRotate then (rotateKey advancedAt m1).2 else (getCurrentKey advancedAt m1).2.

Definition quotaFailures (fs : list (Z * Z * bool)) (m : APIKeyManager.t)
    : APIKeyManager.t :=
  foldl (fun m f => quotaFailure f m) m fs.

(** Consecutive transient failures reported at the given times. *)
Definition transientErrors (times : list Z) (m : APIKeyManager.t) : APIKeyManager.t :=
  foldl (fun m now => reportError nextMidnight now "transient" false m) m times.
End Runs.

(** Repeated [rotateKey] calls at the given times: the keys returned. *)
Fixpoint rotations (times : list Z) (m : APIKeyManager.t) : list (option string) :=
  match times with
  | [] => []
  | now :: rest =>
      let '(r, m1) := rotateKey now m in r :: rotations rest m1
  end.

(** The status of the key under the rotation pointer. *)
Definition currentStatus (m : APIKeyManager.t) : option APIKeyStatus.t :=
  apiKeys m !! currentKeyIndex m ≫= fun k => keyStatuses m !! k.

(** The backoff delay after [errors] consecutive failures, in the words of
    the specification: [min(baseDelay * 2^(errors-1), maxDelay)] with a
    base of five minutes and a cap of sixty minutes. *)
Definition backoffDelay (errors : nat) : Z :=
  Z.min (300000 * 2 ^ (Z.of_nat errors - 1)) 3600000.

(** The calendar of a runtime whose local time zone is UTC. *)
Definition utcNextMidnight (now : Z) : Z := (now / 86400000 + 1) * 86400000.

(** Sample managers. *)
Definition managerOf (keys : list string) : APIKeyManager.t :=
  match APIKeyManager.new keys with
  | inr m => m
  | inl _ => APIKeyManager.mk [] ∅ 0
  end.

(** A status that is untouched or quota-exhausted, and a pool of such
    statuses. *)
Definition settledStatus (st : APIKeyStatus.t) : Prop :=
  quotaExhausted st = true ∨
  (isActive st = true ∧ quotaExhausted st = false ∧ nextRetryTime st = None).

Definition settled (m : APIKeyManager.t) : Prop :=
  ∀ k, k ∈ apiKeys m → ∃ st, keyStatuses m !! k = Some st ∧ settledStatus st.

Definition remaining (m : APIKeyManager.t) : nat :=
  length (filter (fun k => exhaustedIn (keyStatuses m) k = false) (apiKeys m)).

Definition pointerOk (m : APIKeyManager.t) : Prop :=
  (∃ k, apiKeys m !! currentKeyIndex m = Some k ∧ exhaustedIn (keyStatuses m) k = false)
  ∨ remaining m = 0%nat.

(** A pool in which no key has failed. *)
Definition allFresh (m : APIKeyManager.t) : Prop :=
  ∀ k, k ∈ apiKeys m →
    ∃ st, keyStatuses m !! k = Some st ∧
          isActive st = true ∧ quotaExhausted st = false ∧ nextRetryTime st = None.

End KeyManagerSpec.

(** ** Auxiliary notions used to state the client's properties *)

Module ClientSpec.
Import YouTubeAPIClient.

(** The result of a path that yields channels, as [searchChannels]
    returns it. *)
Definition asChannels (r : (Thrown + list Channel.t) * State)
    : (Thrown + VideoCacheData) * State :=
  match r with
  | (inl e, st) => (inl e, st)
  | (inr channels, st) => (inr (Channels channels), st)
  end.

Definition emptyState : State := mkState (APICache.new None) [].

Definition day : Z := 24 * 60 * 60 * 1000.

(** A runtime whose local time zone is UTC: subtracting days from a date
    subtracts whole days of milliseconds. *)
Definition utcSubDays (now days : Z) : Z := now - days * day.

(** A client with a single key and no search bridge, and one with the
    bridge configured. *)
Definition plainClient : YouTubeAPIClient.t :=
  YouTubeAPIClient.mk "K1" 50 30 false true.
Definition bridgedClient : YouTubeAPIClient.t :=
  YouTubeAPIClient.mk "K1" 50 30 true true.

Definition quotaFailure : Thrown :=
  ThrownAxios "Request failed with status code 403"
    (Some (mkErrorResponse 403
       (Some "The request cannot be completed because you have exceeded your quota."%string))).

Definition sampleChannelItem (id : string) : YouTubeChannelItem.t :=
  YouTubeChannelItem.mk id ("Channel " +:+ id) (mkThumbnails None None "d.png")
    "1200" ("UU" +:+ id).

Definition sampleVideoItem (id channelId publishedAt : string) : YouTubeVideoItem.t :=
  YouTubeVideoItem.mk id publishedAt channelId ("Video " +:+ id) ""
    (mkThumbnails None None "d.png") "Channel" "PT5M".

(** A world in which nothing answers: every provider call is a network
    failure, the bridge is unreachable, the clock stands at [t]. *)
Definition deadWorld (t : Z) : World :=
  mkWorld (fun _ => t) (fun _ => None) utcSubDays
    (fun _ _ _ _ => Failed (ThrownAxios "Network Error" None))
    (fun _ _ _ => Failed (ThrownAxios "Network Error" None))
    (fun _ _ _ _ => Failed (ThrownAxios "Network Error" None))
    (fun _ _ _ => Failed (ThrownAxios "Network Error" None))
    (fun _ => None)
    (fun _ _ _ => inl (ThrownError "Failed to fetch")).

(** The provider answers every channel lookup with a body that lacks
    [items]. *)
Definition malformedWorld : World :=
  mkWorld (fun _ => 0) (fun _ => None) utcSubDays
    (fun _ _ _ _ => Responded BodyNoItems)
    (fun _ _ _ => Responded BodyNoItems)
    (fun _ _ _ _ => Responded BodyNoItems)
    (fun _ _ _ => Responded BodyNoItems)
    (fun _ => None)
    (fun _ _ _ => inl (ThrownError "Failed to fetch")).

(** The provider has nothing for any request; the bridge is up and has
    no hits. *)
Definition emptyWorld : World :=
  mkWorld (fun _ => 0) (fun _ => None) utcSubDays
    (fun _ _ _ _ => Responded (BodyItems []))
    (fun _ _ _ => Responded (BodyItems []))
    (fun _ _ _ _ => Responded (BodyItems []))
    (fun _ _ _ => Responded (BodyItems []))
    (fun _ => Some true)
    (fun _ _ _ => inr []).

(** The provider has nothing for any request and the bridge is down. *)
Definition emptyWorldBridgeDown : World :=
  mkWorld (fun _ => 0) (fun _ => None) utcSubDays
    (fun _ _ _ _ => Responded (BodyItems []))
    (fun _ _ _ => Responded (BodyItems []))
    (fun _ _ _ _ => Responded (BodyItems []))
    (fun _ _ _ => Responded (BodyItems []))
    (fun _ => Some false)
    (fun _ _ _ => inl (ThrownError "Failed to fetch")).

(** The provider reports quota exhaustion on every request. *)
Definition quotaWorld : World :=
  mkWorld (fun _ => 0) (fun _ => None) utcSubDays
    (fun _ _ _ _ => Failed quotaFailure)
    (fun _ _ _ => Failed quotaFailure)
    (fun _ _ _ _ => Failed quotaFailure)
    (fun _ _ _ => Failed quotaFailure)
    (fun _ => None)
    (fun _ _ _ => inl (ThrownError "Failed to fetch")).

(** The provider finds channel UC1 for every search; the bridge answers
    its health probe with [healthy] and fails every search. *)
Definition brokenBridgeWorld (healthy : bool) : World :=
  mkWorld (fun _ => 0) (fun _ => None) utcSubDays
    (fun _ _ _ _ => Responded (BodyItems [YouTubeChannelSearchItem.mk "UC1" "One"]))
    (fun _ _ _ => Responded (BodyItems [sampleChannelItem "UC1"]))
    (fun _ _ _ _ => Responded (BodyItems []))
    (fun _ _ _ => Responded (BodyItems []))
    (fun _ => Some healthy)
    (fun _ _ _ => inl (ThrownError "HTTP 500: Internal Server Error")).

(** Whether an outbound call carries the given key (calls to the bridge
    carry none). *)
Definition usesKey (key : string) (call : Call) : Prop :=
  match call with
  | ProviderCall k _ => k = key
  | _ => True
  end.

(** A computation only appends to the log of outbound calls, and every
    call it appends satisfies [P]. *)
Definition Emits {A} (P : Call → Prop) (m : M A) : Prop :=
  ∀ st r st', m st = (r, st') → ∃ calls, trace st' = trace st ++ calls ∧ Forall P calls.

(** The public methods of the client and the state a call leaves. *)
Inductive Method :=
| SearchChannels (query : string)
| GetChannelInfo (channelId : string)
| GetChannelVideos (channelId : string) (maxResults : option Z)
| GetVideoDetails (videoIds : list string).

Definition stateAfter (w : World) (c : YouTubeAPIClient.t) (m : Method) (st : State)
    : State :=
  match m with
  | SearchChannels query => (searchChannels w c query st).2
  | GetChannelInfo channelId => (getChannelInfo w c channelId st).2
  | GetChannelVideos channelId limit => (getChannelVideos w c channelId limit st).2
  | GetVideoDetails videoIds => (getVideoDetails w c videoIds st).2
  end.

(** A provider with one channel whose only upload dates from the epoch;
    the clock stands at [t]. *)
Definition epochDate : string := "1970-01-01T00:00:00.000Z".

Definition agedWorld (t : Z) : World :=
  mkWorld (fun _ => t)
    (fun s => if bool_decide (s = epochDate) then Some 0 else None)
    utcSubDays
    (fun _ _ _ _ => Responded (BodyItems []))
    (fun _ _ id => Responded (BodyItems [sampleChannelItem id]))
    (fun _ _ _ _ => Responded (BodyItems [YouTubePlaylistItem.mk "p1" epochDate "v1"]))
    (fun _ _ _ => Responded (BodyItems [sampleVideoItem "v1" "UC1" epochDate]))
    (fun _ => None)
    (fun _ _ _ => inl (ThrownError "Failed to fetch")).

(** The ids a detail request asks for: the components of its
    comma-separated [id] parameter. *)
Fixpoint requestedIds (ids : string) : list string :=
  match ids with
  | EmptyString => [EmptyString]
  | String a rest =>
      if Ascii.eqb a ","%char then EmptyString :: requestedIds rest
      else
        match requestedIds rest with
        | first :: others => String a first :: others
        | [] => [String a EmptyString]
        end
  end.

(** An id without a comma, as the provider's ids are. *)
Fixpoint commaFree (id : string) : bool :=
  match id with
  | EmptyString => true
  | String a rest => negb (Ascii.eqb a ","%char) && commaFree rest
  end.

(** The provider answers a detail request only with videos that were
    asked for. *)
Definition answersOnlyRequested (w : World) : Prop :=
  ∀ n key ids items,
    videosEndpoint w n key ids = Responded (BodyItems items) →
    ∀ item, item ∈ items → YouTubeVideoItem.id item ∈ requestedIds ids.

(** A provider with one channel whose only upload dates from the epoch
    and which answers a detail request with the videos asked for; the
    clock stands at [t]. *)
Definition honestWorld (t : Z) : World :=
  mkWorld (fun _ => t)
    (fun s => if bool_decide (s = epochDate) then Some 0 else None)
    utcSubDays
    (fun _ _ _ _ => Responded (BodyItems []))
    (fun _ _ id => Responded (BodyItems [sampleChannelItem id]))
    (fun _ _ _ _ => Responded (BodyItems [YouTubePlaylistItem.mk "p1" epochDate "v1"]))
    (fun _ _ ids =>
       Responded (BodyItems ((fun id => sampleVideoItem id "UC1" epochDate)
                               <$> requestedIds ids)))
    (fun _ => None)
    (fun _ _ _ => inl (ThrownError "Failed to fetch")).

(** A provider whose playlist entry for video v1 is dated on day 55
    while the detail record of v1 is dated at the epoch; the clock stands
    at [t]. *)
Definition recentDate : string := "1970-02-25T00:00:00.000Z".

Definition redatedWorld (t : Z) : World :=
  mkWorld (fun _ => t)
    (fun s => if bool_decide (s = epochDate) then Some 0
              else if bool_decide (s = recentDate) then Some (55 * day) else None)
    utcSubDays
    (fun _ _ _ _ => Responded (BodyItems []))
    (fun _ _ id => Responded (BodyItems [sampleChannelItem id]))
    (fun _ _ _ _ => Responded (BodyItems [YouTubePlaylistItem.mk "p1" recentDate "v1"]))
    (fun _ _ _ => Responded (BodyItems [sampleVideoItem "v1" "UC1" epochDate]))
    (fun _ => None)
    (fun _ _ _ => inl (ThrownError "Failed to fetch")).

(** *** Ranking *)

(** The relevance the sort of the bridge path compares: the entry of the
    relevance map, or 0. *)
Definition relevance (rel : gmap string Q) (channel : Channel.t) : Q :=
  orZero (rel !! Channel.id channel).

(** The confidence of the first hit that references a video. *)
Definition firstHitConfidence (hits : list SearchResult.t) (videoId : string) : option Q :=
  SearchResult.confidence <$>
    List.find (fun sr => bool_decide (SearchResult.videoId sr = videoId)) hits.

(** For a channel: the first-hit confidences of its videos, in the order
    of the detail fetch. *)
Definition firstHitConfidences (hits : list SearchResult.t) (videos : list Video.t)
    (channelId : string) : list Q :=
  omap (fun video =>
          if bool_decide (Video.channelId video = channelId)
          then firstHitConfidence hits (Video.id video)
          else None)
       videos.

(** In the words of the specification: the maximum confidence among the
    hits whose videos resolve to the channel ([None] if there is no such
    hit). *)
Definition resolvesTo (videos : list Video.t) (hit : SearchResult.t)
    (channelId : string) : bool :=
  existsb (fun video =>
             bool_decide (Video.id video = SearchResult.videoId hit)
             && bool_decide (Video.channelId video = channelId))
          videos.

Definition maxHitConfidence (hits : list SearchResult.t) (videos : list Video.t)
    (channelId : string) : option Q :=
  foldl (fun acc hit =>
           if resolvesTo videos hit channelId
           then Some (match acc with
                      | Some q => qmax q (SearchResult.confidence hit)
                      | None => SearchResult.confidence hit
                      end)
           else acc)
        None hits.

Definition hit (videoId : string) (confidence : Q) : SearchResult.t :=
  SearchResult.mk "" "" "" videoId "" confidence.

Definition videoOf (id channelId : string) : Video.t :=
  Video.mk id "" "" channelId "" None "" "".

Definition channelOf (id : string) : Channel.t :=
  Channel.mk id "" "" None "".

(** The order the sort establishes, and channels of the same relevance
    [q]. *)
Definition descending (rel : gmap string Q) (a b : Channel.t) : Prop :=
  (relevance rel b <= relevance rel a)%Q.

Definition tied (rel : gmap string Q) (q : Q) (channel : Channel.t) : bool :=
  Qeq_bool (relevance rel channel) q.

(** The bridge has three hits on two videos; the provider resolves video
    A to channel X and video B to channel Y and lists Y before X. *)
Definition rankingWorld : World :=
  mkWorld (fun _ => 0) (fun _ => None) utcSubDays
    (fun _ _ _ _ => Responded (BodyItems []))
    (fun _ _ _ => Responded (BodyItems [sampleChannelItem "Y"; sampleChannelItem "X"]))
    (fun _ _ _ _ => Responded (BodyItems []))
    (fun _ _ _ =>
       Responded (BodyItems [sampleVideoItem "A" "X" epochDate;
                             sampleVideoItem "B" "Y" epochDate]))
    (fun _ => Some true)
    (fun _ _ _ => inr [hit "A" 0.9; hit "B" 0.5; hit "A" 0.3]).


(** *** Failures *)

(** The error with which the provider fails a request, if it does. *)
Definition failure {T} (outcome : Outcome T) : option Thrown :=
  match outcome with
  | Failed error => Some error
  | Responded _ => None
  end.

(** The failure the client makes of the provider's answer to one
    request: [handleError] of the error of a failed request, the failure
    that [validateResponse] throws for a malformed body, none for a list
    of items. *)
Definition refusal {T} (outcome : Outcome T) : option APIError.t :=
  match outcome with
  | Failed error => Some (handleError error)
  | Responded body =>
      match (validateResponse body emptyState).1 with
      | inl thrown => Some (handleError thrown)
      | inr _ => None
      end
  end.

(** The same for a call of the log that was made when [n] calls had
    completed; a call of the bridge has none. *)
Definition failureOf (w : World) (n : nat) (call : Call) : option Thrown :=
  match call with
  | ProviderCall key (ReqSearch q limit) => failure (searchEndpoint w n key q limit)
  | ProviderCall key (ReqChannels id) => failure (channelsEndpoint w n key id)
  | ProviderCall key (ReqPlaylistItems playlistId limit) =>
      failure (playlistItemsEndpoint w n key playlistId limit)
  | ProviderCall key (ReqVideos id) => failure (videosEndpoint w n key id)
  | BridgeHealth => None
  | BridgeSearch _ _ => None
  end.

Definition refusalOf (w : World) (n : nat) (call : Call) : option APIError.t :=
  match call with
  | ProviderCall key (ReqSearch q limit) => refusal (searchEndpoint w n key q limit)
  | ProviderCall key (ReqChannels id) => refusal (channelsEndpoint w n key id)
  | ProviderCall key (ReqPlaylistItems playlistId limit) =>
      refusal (playlistItemsEndpoint w n key playlistId limit)
  | ProviderCall key (ReqVideos id) => refusal (videosEndpoint w n key id)
  | BridgeHealth => None
  | BridgeSearch _ _ => None
  end.

(** The failures the client raises by itself: a blank query, a blank
    channel id, a channel the provider does not know. *)
Definition ownFailures : list APIError.t :=
  [createAPIError 400 "Search query cannot be empty"
     "Please enter a channel name to search" false;
   createAPIError 400 "Channel ID cannot be empty"
     "Please provide a valid channel ID" false;
   createAPIError 404 "Channel not found"
     "The channel you requested could not be found" false].

(** [call] is the last outbound call of a run from [st] to [st'], made
    when [n] calls had completed. *)
Definition finalCall (st st' : State) (n : nat) (call : Call) : Prop :=
  (length (trace st) ≤ n)%nat ∧ S n = length (trace st') ∧ trace st' !! n = Some call.

(** What a run throws, if it throws. *)
Definition thrownOf {A} (run : (Thrown + A) * State) : option Thrown :=
  match run.1 with
  | inl thrown => Some thrown
  | inr _ => None
  end.

Definition thrownBy (w : World) (c : YouTubeAPIClient.t) (m : Method) (st : State)
    : option Thrown :=
  match m with
  | SearchChannels query => thrownOf (searchChannels w c query st)
  | GetChannelInfo channelId => thrownOf (getChannelInfo w c channelId st)
  | GetChannelVideos channelId limit => thrownOf (getChannelVideos w c channelId limit st)
  | GetVideoDetails videoIds => thrownOf (getVideoDetails w c videoIds st)
  end.

(** A computation stops at the first request that the provider refuses:
    the refused request is its last call and its failure, once through
    [handleError], is the refusal. Conversely, what it throws is one of
    the client's own failures or the refusal of its last call, unless
    the computation is [lenient], which is said of those that may also
    throw a failure of the bridge. *)
Definition Reports (w : World) (lenient : Prop) {A} (m : M A) : Prop :=
  ∀ st r st', m st = (r, st') →
    (∃ calls, trace st' = trace st ++ calls) ∧
    (∀ n call e,
       (length (trace st) ≤ n)%nat →
       trace st' !! n = Some call →
       refusalOf w n call = Some e →
       S n = length (trace st') ∧ ∃ t, r = inl t ∧ handleError t = e) ∧
    (∀ t, r = inl t →
       lenient ∨
       (∃ e, t = ThrownAPIError e ∧ e ∈ ownFailures) ∨
       (∃ n call, finalCall st st' n call ∧ refusalOf w n call = Some (handleError t))).

(** A string of ASCII characters only. On such a string [trim], which
    the embedding takes over ASCII white space, is the [trim] of
    JavaScript. *)
Fixpoint asciiOnly (s : string) : bool :=
  match s with
  | EmptyString => true
  | String a rest => (Ascii.nat_of_ascii a <? 128)%nat && asciiOnly rest
  end.

(** The provider finds channel UC1 and lists one upload of it, v1, dated
    at the epoch, but fails every detail request with a quota-exhaustion
    signal; the bridge is up and has one hit, on v1. The clock stands at
    0. *)
Definition detailQuotaWorld : World :=
  mkWorld (fun _ => 0)
    (fun s => if bool_decide (s = epochDate) then Some 0 else None)
    utcSubDays
    (fun _ _ _ _ => Responded (BodyItems [YouTubeChannelSearchItem.mk "UC1" "One"]))
    (fun _ _ id => Responded (BodyItems [sampleChannelItem id]))
    (fun _ _ _ _ => Responded (BodyItems [YouTubePlaylistItem.mk "p1" epochDate "v1"]))
    (fun _ _ _ => Failed quotaFailure)
    (fun _ => Some true)
    (fun _ _ _ => inr [hit "v1" 0.9]).

End ClientSpec.

(** ** SimpleAPIKeyRotator *)

Module SimpleAPIKeyRotator.

Record t := mk {
  apiKeys : list string;
  currentIndex : nat
}.

(** [constructor(apiKeys)]: [inl] is the thrown [Error]. *)
Definition new (keys : list string) : string + t :=
  if (length keys =? 0)%nat then inl "At least one API key is required"%string
  else inr (mk keys 0).

Definition getCurrentKey (r : t) : option string := apiKeys r !! currentIndex r.

(** [rotateToNext()]: whether the rotation took place, and the rotator
    after the call. The pool is never empty after the constructor. *)
Definition rotateToNext (r : t) : bool * t :=
  let nextIndex := ((currentIndex r + 1) `mod` length (apiKeys r))%nat in
  if (nextIndex =? 0)%nat && negb (currentIndex r =? 0)%nat then (false, r)
  else (true, mk (apiKeys r) nextIndex).

(** [isQuotaError(error)], on what it reads of its argument:
    [error.response] ([None] also for a falsy [error]), with its [status]
    and [data?.error?.message]. *)
Definition isQuotaError (response : option ErrorResponse) : bool :=
  match response with
  | None => false
  | Some response =>
      if status response =? 403 then
        (* [... || '']: an empty message is replaced by the empty string *)
        let message := default EmptyString (dataErrorMessage response) in
        JSString.includes (JSString.toLowerCase message) "quota"
      else false
  end.

Definition getTotalKeys (r : t) : nat := length (apiKeys r).
Definition getCurrentIndex (r : t) : nat := currentIndex r.

End SimpleAPIKeyRotator.

(** ** validateApiKey *)

Module ApiKeyValidation.

Record ApiKeyValidationResult := mkResult {
  isValid : bool;
  error : option string
}.

(** One character of the class [[A-Za-z0-9_-]]. *)
Definition validKeyChar (a : Ascii.ascii) : bool :=
  let n := Ascii.nat_of_ascii a in
  ((65 <=? n) && (n <=? 90) || (97 <=? n) && (n <=? 122)
   || (48 <=? n) && (n <=? 57) || (n =? 95) || (n =? 45))%nat.

Fixpoint allValidKeyChars (s : string) : bool :=
  match s with
  | EmptyString => true
  | String a rest => validKeyChar a && allValidKeyChars rest
  end.

(** [/^[A-Za-z0-9_-]+$/.test(s)] *)
Definition validKeyPattern (s : string) : bool :=
  negb (String.length s =? 0)%nat && allValidKeyChars s.

Definition quoted (s : string) : string :=
  String (Ascii.ascii_of_nat 34) s +:+ String (Ascii.ascii_of_nat 34) EmptyString.

(** [validateApiKey(apiKey)]; [None] is [undefined]. The length is the
    number of bytes, which is the number of characters for every key the
    pattern accepts. *)
Definition validateApiKey (apiKey : option string) : ApiKeyValidationResult :=
  match apiKey with
  | None =>
      mkResult false
        (Some "API key is missing. Please add VITE_YOUTUBE_API_KEY to your .env file."%string)
  | Some apiKey =>
      if JSString.isBlank apiKey then
        mkResult false
          (Some "API key is missing. Please add VITE_YOUTUBE_API_KEY to your .env file."%string)
      else if bool_decide (apiKey = "your_api_key_here"%string) then
        mkResult false
          (Some ("Please replace " +:+ quoted "your_api_key_here"
                 +:+ " with your actual YouTube API key in the .env file."))
      else if (String.length apiKey <? 30)%nat then
        mkResult false
          (Some "API key appears to be too short. Please verify you copied the complete key."%string)
      else if negb (validKeyPattern apiKey) then
        mkResult false
          (Some "API key contains invalid characters. Please verify you copied the key correctly."%string)
      else mkResult true None
  end.

End ApiKeyValidation.

(** ** Auxiliary notions used to state further properties *)

Module RotatorSpec.
Import SimpleAPIKeyRotator.

(** [n] calls of [rotateToNext] in a row: what each returned and the
    rotator after the last. *)
Fixpoint rotateTimes (n : nat) (r : SimpleAPIKeyRotator.t)
    : list bool * SimpleAPIKeyRotator.t :=
  match n with
  | O => ([], r)
  | S n' =>
      let '(ok, r1) := rotateToNext r in
      let '(oks, r2) := rotateTimes n' r1 in
      (ok :: oks, r2)
  end.

(** The user message of the quota-exceeded failure of [handleError]. *)
Definition quotaUserMessage : string :=
  "YouTube API quota exceeded. The quota resets daily at midnight PST. Try again in a few hours or contact support for a premium API key.".

End RotatorSpec.

Module KeyPoolSpec.
Import APIKeyStatus APIKeyManager KeyManagerSpec.

(** The calls of [KeyManagerSpec.call] and [resetQuotaStatus]. *)
Inductive op :=
| Invoke (c : call)
| ResetQuotaStatus.

Definition applyOp (nextMidnight : Z → Z) (m : APIKeyManager.t) (o : op)
    : APIKeyManager.t :=
  match o with
  | Invoke c => (perform nextMidnight c m).2
  | ResetQuotaStatus => resetQuotaStatus m
  end.

Definition applyOps (nextMidnight : Z → Z) (os : list op) (m : APIKeyManager.t)
    : APIKeyManager.t :=
  foldl (applyOp nextMidnight) m os.

(** The rotation pointer indexes a key of the pool, and every key of the
    pool has a status record that carries the key. *)
Definition wellFormed (m : APIKeyManager.t) : Prop :=
  (currentKeyIndex m < length (apiKeys m))%nat ∧
  ∀ k, k ∈ apiKeys m →
    ∃ st, keyStatuses m !! k = Some st ∧ APIKeyStatus.key st = k.

End KeyPoolSpec.

Module CallSpec.
Import YouTubeAPIClient.

(** A search, through the provider or through the bridge, asks for at
    most 25 results. *)
Definition withinSearchCap (call : Call) : Prop :=
  match call with
  | ProviderCall _ (ReqSearch _ limit) => limit <= 25
  | BridgeSearch _ limit => limit <= 25
  | _ => True
  end.

(** A call that is not a search of the provider. *)
Definition sparesSearchEndpoint (call : Call) : Prop :=
  match call with
  | ProviderCall _ (ReqSearch _ _) => False
  | _ => True
  end.

(** A call of the provider's lookup endpoints: neither a search nor a
    call of the bridge. *)
Definition isLookup (call : Call) : Prop :=
  match call with
  | ProviderCall _ (ReqSearch _ _) => False
  | ProviderCall _ _ => True
  | BridgeHealth => False
  | BridgeSearch _ _ => False
  end.

(** A call of the provider, not of the bridge. *)
Definition isProviderCall (call : Call) : Prop :=
  match call with
  | ProviderCall _ _ => True
  | _ => False
  end.

(** The request [getVideoDetails] sends for one batch. *)
Definition batchCall (c : YouTubeAPIClient.t) (batch : list string) : Call :=
  ProviderCall (apiKey c) (ReqVideos (String.concat "," batch)).

(** The provider answers the request for [batch], made when [n] calls had
    completed, with a list of items. *)
Definition batchAnswered (w : World) (c : YouTubeAPIClient.t) (n : nat)
    (batch : list string) : Prop :=
  ∃ items,
    videosEndpoint w n (apiKey c) (String.concat "," batch) = Responded (BodyItems items).

End CallSpec.

Module CacheSpec.
Import APICache.

(** The methods of [APICache] that can change it. *)
Inductive op :=
| SetChannel (now : Z) (key : string) (channel : Channel.t) (customDuration : option Z)
| GetChannel (now : Z) (key : string)
| InvalidateChannel (key : string)
| ClearChannels
| SetVideos (now : Z) (key : string) (videos : VideoCacheData) (customDuration : option Z)
| GetVideos (now : Z) (key : string)
| InvalidateVideos (key : string)
| ClearVideos
| ClearAll.

Definition applyOp (c : APICache.t) (o : op) : APICache.t :=
  match o with
  | SetChannel now key channel customDuration => setChannel now key channel customDuration c
  | GetChannel now key => (getChannel now key c).2
  | InvalidateChannel key => invalidateChannel key c
  | ClearChannels => clearChannels c
  | SetVideos now key videos customDuration => setVideos now key videos customDuration c
  | GetVideos now key => (getVideos now key c).2
  | InvalidateVideos key => invalidateVideos key c
  | ClearVideos => clearVideos c
  | ClearAll => clearAll c
  end.

Definition applyOps (os : list op) (c : APICache.t) : APICache.t := foldl applyOp c os.

(** Whether a call names the given key of the channel cache, or of the
    video cache, or clears that cache as a whole. *)
Definition concernsChannel (key : string) (o : op) : bool :=
  match o with
  | SetChannel _ k _ _ | GetChannel _ k | InvalidateChannel k => bool_decide (k = key)
  | ClearChannels | ClearAll => true
  | _ => false
  end.

Definition concernsVideos (key : string) (o : op) : bool :=
  match o with
  | SetVideos _ k _ _ | GetVideos _ k | InvalidateVideos k => bool_decide (k = key)
  | ClearVideos | ClearAll => true
  | _ => false
  end.

End CacheSpec.

Module CacheUseSpec.
Import YouTubeAPIClient ClientSpec.

(** A computation of the client maintains a property of the cache. *)
Definition Keeps {A} (I : APICache.t → Prop) (m : M A) : Prop :=
  ∀ st r st', m st = (r, st') → I (cache st) → I (cache st').

(** The key of the video cache, and the key of the channel cache, that a
    public method reads and writes. *)
Definition videoKeyOf (c : YouTubeAPIClient.t) (m : Method) : option string :=
  match m with
  | SearchChannels query => Some (searchCacheKey query)
  | GetChannelVideos channelId limit =>
      Some (videosCacheKey channelId (default (maxResults c) limit))
  | _ => None
  end.

Definition channelKeyOf (m : Method) : option string :=
  match m with
  | GetChannelInfo channelId | GetChannelVideos channelId _ => Some channelId
  | _ => None
  end.

(** The arrays of the video cache are what their keys announce: channels
    under the keys of searches, videos under the keys of uploads. *)
Definition wellTyped (ch : APICache.t) : Prop :=
  ∀ key entry,
    APICache.videoCache ch !! key = Some entry →
    match data entry with
    | Channels _ => String.prefix "search:" key = true
    | Videos _ => String.prefix "videos:" key = true
    end.

(** A sequence of calls of public methods, each in its own world. *)
Definition runAll (c : YouTubeAPIClient.t) (calls : list (World * Method)) (st : State)
    : State :=
  foldl (fun st call => stateAfter call.1 c call.2 st) st calls.

End CacheUseSpec.

(** * Properties *)

(** ** Cache correctness *)

Module CacheProps.
Import APICache.

Lemma getChannel_fresh now key entry c :
  channelCache c !! key = Some entry → now < expiresAt entry →
  getChannel now key c = (Some (data entry), c).
Proof.
  intros Hk Hlt. unfold getChannel. rewrite Hk.
  destruct (Z.leb_spec (expiresAt entry) now); [lia | done].
Qed.

Lemma getChannel_stale now key entry c :
  channelCache c !! key = Some entry → expiresAt entry <= now →
  getChannel now key c =
    (None, mk (delete key (channelCache c)) (videoCache c) (defaultCacheDuration c)).
Proof.
  intros Hk Hle. unfold getChannel. rewrite Hk.
  destruct (Z.leb_spec (expiresAt entry) now); [done | lia].
Qed.

Lemma getVideos_fresh now key entry c :
  videoCache c !! key = Some entry → now < expiresAt entry →
  getVideos now key c = (Some (data entry), c).
Proof.
  intros Hk Hlt. unfold getVideos. rewrite Hk.
  destruct (Z.leb_spec (expiresAt entry) now); [lia | done].
Qed.

Lemma getVideos_stale now key entry c :
  videoCache c !! key = Some entry → expiresAt entry <= now →
  getVideos now key c =
    (None, mk (channelCache c) (delete key (videoCache c)) (defaultCacheDuration c)).
Proof.
  intros Hk Hle. unfold getVideos. rewrite Hk.
  destruct (Z.leb_spec (expiresAt entry) now); [done | lia].
Qed.

Lemma getVideos_miss now key c :
  videoCache c !! key = None → getVideos now key c = (None, c).
Proof. intros Hk. unfold getVideos. by rewrite Hk. Qed.

Lemma size_after_eviction {V} (key : string) (m : gmap string V) :
  is_Some (m !! key) → S (size (delete key m)) = size m.
Proof.
  intros [v Hv]. rewrite map_size_delete, Hv. simpl.
  assert (size m ≠ 0%nat); [| lia].
  intros Hz. apply map_size_empty_inv in Hz. subst m. by rewrite lookup_empty in Hv.
Qed.

(** C2. For every key, value and time-to-live [ttl > 0] (given as the
    custom duration or taken from the cache's default): after [set] at
    time [t0], a [get] at the same instant or at any time before
    [t0 + ttl] returns exactly the stored value and leaves the cache as
    it is; a [get] at a time at or after the entry's [expiresAt = t0 + ttl]
    returns null and deletes the entry, so the size reported afterwards
    is one less. This holds for the channel map and for the video map. *)
Theorem cache_set_get_expire (c : t) (key : string) (channel : Channel.t)
    (videos : VideoCacheData) (customDuration : option Z) (t0 t1 : Z) :
  0 < ttlOf customDuration c →
  let cc := setChannel t0 key channel customDuration c in
  let cv := setVideos t0 key videos customDuration c in
  getChannel t0 key cc = (Some channel, cc) ∧
  getVideos t0 key cv = (Some videos, cv) ∧
  (t1 < t0 + ttlOf customDuration c →
     getChannel t1 key cc = (Some channel, cc) ∧
     getVideos t1 key cv = (Some videos, cv)) ∧
  (t0 + ttlOf customDuration c <= t1 →
     (getChannel t1 key cc).1 = None ∧
     channelCache (getChannel t1 key cc).2 !! key = None ∧
     S (getChannelCacheSize (getChannel t1 key cc).2) = getChannelCacheSize cc ∧
     (getVideos t1 key cv).1 = None ∧
     videoCache (getVideos t1 key cv).2 !! key = None ∧
     S (getVideoCacheSize (getVideos t1 key cv).2) = getVideoCacheSize cv).
Proof.
  intros Httl cc cv. unfold ttlOf in *.
  set (e1 := mkCacheEntry channel t0 (t0 + default (defaultCacheDuration c) customDuration)).
  set (e2 := mkCacheEntry videos t0 (t0 + default (defaultCacheDuration c) customDuration)).
  assert (Hc : channelCache cc !! key = Some e1) by apply lookup_insert_eq.
  assert (Hv : videoCache cv !! key = Some e2) by apply lookup_insert_eq.
  split; [| split; [| split]].
  - apply (getChannel_fresh _ _ e1); [done | simpl; lia].
  - apply (getVideos_fresh _ _ e2); [done | simpl; lia].
  - intros Hlt. split.
    + apply (getChannel_fresh _ _ e1); [done | simpl; lia].
    + apply (getVideos_fresh _ _ e2); [done | simpl; lia].
  - intros Hge.
    rewrite (getChannel_stale t1 key e1 cc Hc) by (simpl; lia).
    rewrite (getVideos_stale t1 key e2 cv Hv) by (simpl; lia).
    unfold getChannelCacheSize, getVideoCacheSize. simpl.
    repeat split.
    + apply lookup_delete_eq.
    + apply size_after_eviction. rewrite lookup_insert_eq. eauto.
    + apply lookup_delete_eq.
    + apply size_after_eviction. rewrite lookup_insert_eq. eauto.
Qed.

Lemma cache_set_get_expire_witness :
  let c := APICache.new None in
  let channel := Channel.mk "UC1" "One" "t.png" (Some 10) "UU1" in
  let cc := setChannel 1000 "UC1" channel (Some 500) c in
  let cv := setVideos 1000 "UC1" (Videos []) (Some 500) c in
  (0 < ttlOf (Some 500) c ∧ 1499 < 1000 + ttlOf (Some 500) c ∧
   1000 + ttlOf (Some 500) c <= 1500) ∧
  getChannel 1000 "UC1" cc = (Some channel, cc) ∧
  getVideos 1000 "UC1" cv = (Some (Videos []), cv) ∧
  (getChannel 1499 "UC1" cc = (Some channel, cc) ∧
   getVideos 1499 "UC1" cv = (Some (Videos []), cv)) ∧
  ((getChannel 1500 "UC1" cc).1 = None ∧
   channelCache (getChannel 1500 "UC1" cc).2 !! "UC1" = None ∧
   S (getChannelCacheSize (getChannel 1500 "UC1" cc).2) = getChannelCacheSize cc ∧
   (getVideos 1500 "UC1" cv).1 = None ∧
   videoCache (getVideos 1500 "UC1" cv).2 !! "UC1" = None ∧
   S (getVideoCacheSize (getVideos 1500 "UC1" cv).2) = getVideoCacheSize cv).
Proof.
  intros c channel cc cv.
  assert (Httl : 0 < ttlOf (Some 500) c) by reflexivity.
  assert (Hbefore : 1499 < 1000 + ttlOf (Some 500) c) by reflexivity.
  assert (Hafter : 1000 + ttlOf (Some 500) c <= 1500) by discriminate.
  split; [by repeat split |].
  destruct (cache_set_get_expire c "UC1" channel (Videos []) (Some 500) 1000 1499 Httl)
    as (Hc & Hv & Hfresh & _).
  destruct (cache_set_get_expire c "UC1" channel (Videos []) (Some 500) 1000 1500 Httl)
    as (_ & _ & _ & Hstale).
  split; [exact Hc |]. split; [exact Hv |].
  split; [exact (Hfresh Hbefore) | exact (Hstale Hafter)].
Defined.

End CacheProps.

(** ** Key rotation manager *)

Module KeyManagerProps.
Import APIKeyStatus APIKeyManager KeyManagerSpec.

(** *** Availability *)

Lemma keyAvailable_fst now k sts :
  (keyAvailable now k sts).1 = availableIn now sts k.
Proof.
  unfold keyAvailable, availableIn, availableAt.
  destruct (sts !! k) as [st|]; [| done].
  destruct st as [ky act qe le lt ce [nrt|]]; simpl.
  - destruct (negb (nrt =? 0)) eqn:Ht; simpl.
    + destruct (Z.ltb_spec now nrt), (Z.leb_spec nrt now); try lia; simpl.
      * by rewrite andb_false_r.
      * destruct qe; simpl; [by rewrite andb_false_r | done].
    + by rewrite andb_comm.
  - by rewrite andb_comm.
Qed.

Lemma keyAvailable_lookup now k sts k' :
  (keyAvailable now k sts).2 !! k' = sts !! k' ∨
  ∃ st, k' = k ∧ sts !! k = Some st ∧ quotaExhausted st = false ∧
        truthy (nextRetryTime st) = true ∧ default 0 (nextRetryTime st) <= now ∧
        (keyAvailable now k sts).2 !! k' =
          Some (APIKeyStatus.mk (APIKeyStatus.key st) true false (lastError st)
                  (lastErrorTime st) (consecutiveErrors st) None).
Proof.
  unfold keyAvailable.
  destruct (sts !! k) as [st|] eqn:Hk; [| by left].
  destruct (truthy (nextRetryTime st) && (now <? default 0 (nextRetryTime st)));
    [by left |].
  destruct (truthy (nextRetryTime st)) eqn:Ht; simpl; [| by left].
  destruct (Z.leb_spec (default 0 (nextRetryTime st)) now); simpl; [| by left].
  destruct (quotaExhausted st) eqn:Hq; simpl; [by left |].
  destruct (decide (k' = k)) as [->|Hne].
  - right. exists st. rewrite lookup_insert_eq. done.
  - left. by rewrite lookup_insert_ne.
Qed.

Lemma keyAvailable_preserves now k sts k' :
  availableIn now (keyAvailable now k sts).2 k' = availableIn now sts k'.
Proof.
  unfold availableIn.
  destruct (keyAvailable_lookup now k sts k') as [-> | (st & -> & Hk & Hq & Ht & Hle & ->)];
    [done |].
  rewrite Hk. unfold availableAt. simpl. rewrite Hq, Ht. simpl.
  symmetry. by apply Z.leb_le.
Qed.

Lemma keyAvailable_exhausted now k sts k' :
  exhaustedIn (keyAvailable now k sts).2 k' = exhaustedIn sts k'.
Proof.
  unfold exhaustedIn.
  destruct (keyAvailable_lookup now k sts k') as [-> | (st & -> & Hk & Hq & Ht & Hle & ->)];
    [done |].
  by rewrite Hk.
Qed.

Lemma keyAvailable_dom now k sts k' :
  is_Some ((keyAvailable now k sts).2 !! k') ↔ is_Some (sts !! k').
Proof.
  destruct (keyAvailable_lookup now k sts k') as [-> | (st & -> & Hk & Hq & Ht & Hle & ->)];
    [done |].
  rewrite Hk. split; eauto.
Qed.

Lemma filterAvailable_preserves now keys : ∀ sts k',
  availableIn now (filterAvailable now keys sts).2 k' = availableIn now sts k'.
Proof.
  induction keys as [|k keys IH]; intros sts k'; simpl; [done |].
  destruct (keyAvailable now k sts) as [keep sts1] eqn:Hka.
  destruct (filterAvailable now keys sts1) as [out sts2] eqn:Hf. simpl.
  change sts2 with (out, sts2).2. rewrite <- Hf, IH.
  change sts1 with (keep, sts1).2. rewrite <- Hka. apply keyAvailable_preserves.
Qed.

Lemma filterAvailable_exhausted now keys : ∀ sts k',
  exhaustedIn (filterAvailable now keys sts).2 k' = exhaustedIn sts k'.
Proof.
  induction keys as [|k keys IH]; intros sts k'; simpl; [done |].
  destruct (keyAvailable now k sts) as [keep sts1] eqn:Hka.
  destruct (filterAvailable now keys sts1) as [out sts2] eqn:Hf. simpl.
  change sts2 with (out, sts2).2. rewrite <- Hf, IH.
  change sts1 with (keep, sts1).2. rewrite <- Hka. apply keyAvailable_exhausted.
Qed.

Lemma filterAvailable_dom now keys : ∀ sts k',
  is_Some ((filterAvailable now keys sts).2 !! k') ↔ is_Some (sts !! k').
Proof.
  induction keys as [|k keys IH]; intros sts k'; simpl; [done |].
  destruct (keyAvailable now k sts) as [keep sts1] eqn:Hka.
  destruct (filterAvailable now keys sts1) as [out sts2] eqn:Hf. simpl.
  change sts2 with (out, sts2).2. rewrite <- Hf, IH.
  change sts1 with (keep, sts1).2. rewrite <- Hka. apply keyAvailable_dom.
Qed.

(** [getAvailableKeys] returns, in pool order, the keys that are available
    at [now]. *)
Lemma filterAvailable_fst now keys : ∀ sts,
  (filterAvailable now keys sts).1 = filter (fun k => availableIn now sts k) keys.
Proof.
  induction keys as [|k keys IH]; intros sts; simpl; [done |].
  destruct (keyAvailable now k sts) as [keep sts1] eqn:Hka.
  destruct (filterAvailable now keys sts1) as [out sts2] eqn:Hf. simpl.
  pose proof (keyAvailable_fst now k sts) as H1. rewrite Hka in H1. simpl in H1.
  pose proof (keyAvailable_preserves now k sts) as H2. rewrite Hka in H2. simpl in H2.
  pose proof (IH sts1) as H3. rewrite Hf in H3. simpl in H3. subst keep out.
  rewrite (list_filter_iff _ (fun k => availableIn now sts k) keys)
    by (intros x; by rewrite H2).
  rewrite filter_cons. destruct (availableIn now sts k) eqn:Hk.
  - by rewrite decide_True.
  - rewrite decide_False; [done |]. simpl. tauto.
Qed.

Lemma getAvailableKeys_fst now m :
  (getAvailableKeys now m).1 =
    filter (fun k => availableIn now (keyStatuses m) k) (apiKeys m).
Proof.
  unfold getAvailableKeys.
  destruct (filterAvailable now (apiKeys m) (keyStatuses m)) as [out sts] eqn:Hf.
  simpl. change out with (out, sts).1. rewrite <- Hf. apply filterAvailable_fst.
Qed.

Lemma getAvailableKeys_snd now m :
  apiKeys (getAvailableKeys now m).2 = apiKeys m ∧
  currentKeyIndex (getAvailableKeys now m).2 = currentKeyIndex m ∧
  (∀ k, availableIn now (keyStatuses (getAvailableKeys now m).2) k
        = availableIn now (keyStatuses m) k) ∧
  (∀ k, exhaustedIn (keyStatuses (getAvailableKeys now m).2) k
        = exhaustedIn (keyStatuses m) k) ∧
  (∀ k, is_Some (keyStatuses (getAvailableKeys now m).2 !! k)
        ↔ is_Some (keyStatuses m !! k)).
Proof.
  unfold getAvailableKeys.
  destruct (filterAvailable now (apiKeys m) (keyStatuses m)) as [out sts] eqn:Hf.
  simpl. change sts with (out, sts).2. rewrite <- Hf.
  split; [done |]. split; [done |]. split; [| split]; intros k.
  - apply filterAvailable_preserves.
  - apply filterAvailable_exhausted.
  - apply filterAvailable_dom.
Qed.

Lemma includes_available now m k :
  includes (getAvailableKeys now m).1 (Some k) = true ↔
  k ∈ apiKeys m ∧ availableIn now (keyStatuses m) k = true.
Proof.
  simpl. rewrite bool_decide_eq_true, getAvailableKeys_fst, list_elem_of_filter.
  rewrite Is_true_true. tauto.
Qed.

Lemma available_not_exhausted now sts k :
  availableIn now sts k = true → exhaustedIn sts k = false.
Proof.
  unfold availableIn, exhaustedIn, availableAt.
  destruct (sts !! k) as [st|]; [| done].
  destruct (quotaExhausted st); simpl; done.
Qed.

(** *** The rotation loop *)

Section RotateLoop.
Local Open Scope nat_scope.

Lemma add_mod_succ (i j n : nat) : ((i + 1) `mod` n + j) `mod` n = (i + S j) `mod` n.
Proof.
  rewrite Nat.Div0.add_mod_idemp_l. f_equal. lia.
Qed.

Lemma rotateLoop_spec avail m : ∀ fuel i r m',
  i < length (apiKeys m) →
  rotateLoop avail m i fuel = (r, m') →
  (∃ j, j < fuel ∧
        includes avail (apiKeys m !! ((i + j) `mod` length (apiKeys m))) = true ∧
        r = apiKeys m !! ((i + j) `mod` length (apiKeys m)) ∧
        m' = setIndex ((i + j) `mod` length (apiKeys m)) m ∧
        ∀ j', j' < j →
          includes avail (apiKeys m !! ((i + j') `mod` length (apiKeys m))) = false)
  ∨ (r = None ∧ m' = m ∧
     ∀ j, j < fuel →
       includes avail (apiKeys m !! ((i + j) `mod` length (apiKeys m))) = false).
Proof.
  induction fuel as [|fuel IH]; intros i r m' Hi Hloop; simpl in Hloop.
  - right. inversion Hloop. repeat split; intros; lia.
  - destruct (includes avail (apiKeys m !! i)) eqn:Hinc.
    + left. exists 0. inversion Hloop; subst.
      rewrite Nat.add_0_r, Nat.mod_small by done.
      repeat split; [lia | done | intros; lia].
    + assert (Hi' : (i + 1) `mod` length (apiKeys m) < length (apiKeys m))
        by (apply Nat.mod_upper_bound; lia).
      destruct (IH _ _ _ Hi' Hloop) as [(j & Hj & Hin & Hr & Hm & Hbefore) | (Hr & Hm & Hnone)].
      * left. exists (S j). rewrite add_mod_succ in Hin, Hr, Hm.
        repeat split; [lia | done | done | done |].
        intros [|j'] Hj'.
        -- by rewrite Nat.add_0_r, Nat.mod_small.
        -- rewrite <- add_mod_succ. apply Hbefore. lia.
      * right. repeat split; [done | done |].
        intros [|j] Hj.
        -- by rewrite Nat.add_0_r, Nat.mod_small.
        -- rewrite <- add_mod_succ. apply Hnone. lia.
Qed.

(** Every position of the pool is one of the [n] positions the loop
    inspects. *)
Lemma covers_all_positions (i x n : nat) :
  x < n → ∃ j, j < n ∧ (i + j) `mod` n = x.
Proof.
  intros Hx.
  exists ((x + (n - i `mod` n)) `mod` n). split.
  - apply Nat.mod_upper_bound. lia.
  - rewrite Nat.Div0.add_mod_idemp_r.
    rewrite <- (Nat.Div0.add_mod_idemp_l i).
    assert (Hlt : i `mod` n < n) by (apply Nat.mod_upper_bound; lia).
    replace (i `mod` n + (x + (n - i `mod` n))) with (x + 1 * n) by lia.
    rewrite Nat.Div0.mod_add. by apply Nat.mod_small.
Qed.
End RotateLoop.

(** *** What the two selectors return *)

Lemma findIndex_Some p l i :
  findIndex p l = Some i → ∃ x, l !! i = Some x ∧ p x = true.
Proof.
  revert i. induction l as [|y l IH]; intros i; simpl; [done |].
  destruct (p y) eqn:Hp.
  - intros [= <-]. eauto.
  - destruct (findIndex p l) as [i'|]; simpl; [| done].
    intros [= <-]. apply IH. done.
Qed.

Lemma findIndex_None p l x :
  findIndex p l = None → x ∈ l → p x = false.
Proof.
  induction l as [|y l IH]; simpl; [by intros _ ?%elem_of_nil |].
  destruct (p y) eqn:Hp; [done |].
  destruct (findIndex p l); simpl; [done |].
  intros _ [->|Hin]%elem_of_cons; auto.
Qed.

Lemma no_available_keys now m :
  (getAvailableKeys now m).1 = [] ↔
  ∀ k, k ∈ apiKeys m → availableIn now (keyStatuses m) k = false.
Proof.
  rewrite getAvailableKeys_fst. split.
  - intros Hnil k Hk. destruct (availableIn now (keyStatuses m) k) eqn:Ha; [| done].
    assert (k ∈ filter (fun k => availableIn now (keyStatuses m) k) (apiKeys m)) as Hin
      by (apply list_elem_of_filter; by rewrite Ha).
    rewrite Hnil in Hin. by apply elem_of_nil in Hin.
  - intros Hall.
    destruct (filter (fun k => availableIn now (keyStatuses m) k) (apiKeys m))
      as [|x l'] eqn:Hf; [done |].
    assert (x ∈ filter (fun k => availableIn now (keyStatuses m) k) (apiKeys m)) as Hin
      by (rewrite Hf; left).
    apply list_elem_of_filter in Hin as [Hp Hx]. by rewrite (Hall x Hx) in Hp.
Qed.

Lemma length_zero_nil {A} (l : list A) : (length l =? 0)%nat = true ↔ l = [].
Proof. destruct l; simpl; split; done. Qed.

Lemma getCurrentKey_spec now m r m' :
  getCurrentKey now m = (r, m') →
  apiKeys m' = apiKeys m ∧
  keyStatuses m' = keyStatuses (getAvailableKeys now m).2 ∧
  ((r = None ∧ currentKeyIndex m' = currentKeyIndex m ∧
    ∀ k, k ∈ apiKeys m → availableIn now (keyStatuses m) k = false)
   ∨ (∃ k, r = Some k ∧ apiKeys m !! currentKeyIndex m' = Some k ∧
           availableIn now (keyStatuses m) k = true)).
Proof.
  unfold getCurrentKey.
  pose proof (getAvailableKeys_snd now m) as (Hkeys & Hidx & _).
  pose proof (no_available_keys now m) as Hnone.
  pose proof (includes_available now m) as Hinc.
  destruct (getAvailableKeys now m) as [avail m1].
  cbn [fst snd] in Hkeys, Hidx, Hnone, Hinc. cbv beta iota zeta.
  destruct (length avail =? 0)%nat eqn:Hlen.
  - intros [= <- <-]. apply length_zero_nil in Hlen.
    split; [done |]. split; [done |]. left. repeat split; [done |]. by apply Hnone.
  - destruct (includes avail (apiKeys m1 !! currentKeyIndex m1)) eqn:Hcur; cbn [negb].
    + intros [= <- <-]. split; [done |]. split; [done |]. right.
      destruct (apiKeys m1 !! currentKeyIndex m1) as [k|] eqn:Hk; [| done].
      exists k. rewrite <- Hkeys. split; [done |]. split; [done |]. by apply Hinc.
    + destruct (findIndex (fun key => includes avail (Some key)) (apiKeys m1))
        as [i|] eqn:Hfind.
      * intros [= <- <-]. simpl. split; [done |]. split; [done |]. right.
        apply findIndex_Some in Hfind as (k & Hk & Hin).
        exists k. rewrite <- Hkeys. rewrite Hk. split; [done |]. split; [done |].
        by apply Hinc.
      * intros _. exfalso.
        destruct avail as [|k avail']; [done |].
        assert (Hin : includes (k :: avail') (Some k) = true)
          by (simpl; apply bool_decide_eq_true; left).
        pose proof Hin as Hin'. apply Hinc in Hin' as [Hk _].
        rewrite <- Hkeys in Hk.
        rewrite (findIndex_None _ _ k Hfind Hk) in Hin. done.
Qed.

Lemma rotateKey_spec now m r m' :
  rotateKey now m = (r, m') →
  apiKeys m' = apiKeys m ∧
  keyStatuses m' = keyStatuses (getAvailableKeys now m).2 ∧
  ((r = None ∧ currentKeyIndex m' = currentKeyIndex m ∧
    ∀ k, k ∈ apiKeys m → availableIn now (keyStatuses m) k = false)
   ∨ (∃ j k, (1 ≤ j ≤ length (apiKeys m))%nat ∧ r = Some k ∧
             currentKeyIndex m' = ((currentKeyIndex m + j) `mod` length (apiKeys m))%nat ∧
             apiKeys m !! currentKeyIndex m' = Some k ∧
             availableIn now (keyStatuses m) k = true ∧
             ∀ j' k', (1 ≤ j' < j)%nat →
               apiKeys m !! ((currentKeyIndex m + j') `mod` length (apiKeys m))%nat = Some k' →
               availableIn now (keyStatuses m) k' = false)).
Proof.
  unfold rotateKey.
  pose proof (getAvailableKeys_snd now m) as (Hkeys & Hidx & _).
  pose proof (no_available_keys now m) as Hnone.
  pose proof (includes_available now m) as Hinc.
  destruct (getAvailableKeys now m) as [avail m1].
  cbn [fst snd] in Hkeys, Hidx, Hnone, Hinc. cbv beta iota zeta.
  destruct (length avail =? 0)%nat eqn:Hlen.
  - intros [= <- <-]. apply length_zero_nil in Hlen.
    split; [done |]. split; [done |]. left. repeat split; [done |]. by apply Hnone.
  - intros Hloop.
    destruct avail as [|k0 avail']; [done |].
    assert (Hk0 : k0 ∈ apiKeys m ∧ availableIn now (keyStatuses m) k0 = true)
      by (apply Hinc; simpl; apply bool_decide_eq_true; left).
    destruct Hk0 as [Hk0 Ha0].
    assert (Hpos : (0 < length (apiKeys m))%nat)
      by (destruct (apiKeys m); [by apply elem_of_nil in Hk0 | simpl; lia]).
    rewrite Hkeys, Hidx in Hloop.
    apply rotateLoop_spec in Hloop;
      [| rewrite Hkeys; apply Nat.mod_upper_bound; lia].
    rewrite !Hkeys in Hloop.
    destruct Hloop as [(j & Hj & Hin & -> & -> & Hbefore) | (_ & _ & Hnot)].
    + rewrite add_mod_succ in *. simpl.
      split; [done |]. split; [done |]. right.
      destruct (apiKeys m !! ((currentKeyIndex m + S j) `mod` length (apiKeys m))%nat)
        as [k|] eqn:Hk; [| done].
      exists (S j), k. split; [lia |]. split; [done |]. split; [done |].
      split; [done |]. split; [by apply Hinc |].
      intros [|j'] k' Hj' Hk'; [lia |].
      specialize (Hbefore j' ltac:(lia)). rewrite add_mod_succ, Hk' in Hbefore.
      destruct (availableIn now (keyStatuses m) k') eqn:Ha'; [| done].
      assert (includes (k0 :: avail') (Some k') = true) as Hc.
      { apply Hinc. split; [| done]. eapply list_elem_of_lookup_2; eauto. }
      congruence.
    + exfalso.
      apply list_elem_of_lookup_1 in Hk0 as [x Hx].
      assert (Hxlt : (x < length (apiKeys m))%nat) by (eapply lookup_lt_Some; eauto).
      destruct (covers_all_positions ((currentKeyIndex m + 1) `mod` length (apiKeys m)) x
                  _ Hxlt) as (j & Hj & Hjx).
      specialize (Hnot j Hj). rewrite Hjx, Hx in Hnot.
      simpl in Hnot. apply bool_decide_eq_false in Hnot. apply Hnot. left.
Qed.

(** *** Quota exhaustion is sticky *)

Lemma reportError_keys nm now e q m :
  apiKeys (reportError nm now e q m) = apiKeys m ∧
  currentKeyIndex (reportError nm now e q m) = currentKeyIndex m.
Proof.
  unfold reportError.
  destruct (apiKeys m !! currentKeyIndex m) as [k|]; [| done].
  destruct (keyStatuses m !! k); done.
Qed.

Lemma reportError_exhausted nm now e q m k :
  exhaustedIn (keyStatuses m) k = true →
  exhaustedIn (keyStatuses (reportError nm now e q m)) k = true.
Proof.
  unfold reportError, exhaustedIn.
  destruct (apiKeys m !! currentKeyIndex m) as [k0|]; [| done].
  destruct (keyStatuses m !! k0) as [st0|] eqn:H0; [| done]. simpl.
  destruct (decide (k = k0)) as [->|Hne].
  - rewrite lookup_insert_eq, H0. destruct q; simpl; done.
  - by rewrite lookup_insert_ne.
Qed.

Lemma reportError_quota_marks nm now e m k :
  apiKeys m !! currentKeyIndex m = Some k →
  is_Some (keyStatuses m !! k) →
  exhaustedIn (keyStatuses (reportError nm now e true m)) k = true.
Proof.
  intros Hk [st Hst]. unfold reportError, exhaustedIn. rewrite Hk, Hst. simpl.
  by rewrite lookup_insert_eq.
Qed.

Lemma reportSuccess_exhausted m k :
  exhaustedIn (keyStatuses (reportSuccess m)) k = exhaustedIn (keyStatuses m) k.
Proof.
  unfold reportSuccess, exhaustedIn.
  destruct (apiKeys m !! currentKeyIndex m) as [k0|]; [| done].
  destruct (keyStatuses m !! k0) as [st0|] eqn:H0; [| done]. simpl.
  destruct (decide (k = k0)) as [->|Hne].
  - by rewrite lookup_insert_eq, H0.
  - by rewrite lookup_insert_ne.
Qed.

Lemma perform_exhausted nm c m r m' k :
  perform nm c m = (r, m') →
  exhaustedIn (keyStatuses m) k = true →
  r ≠ Some k ∧ exhaustedIn (keyStatuses m') k = true.
Proof.
  intros Hc Hex.
  pose proof (getAvailableKeys_snd) as Hsnd.
  destruct c as [now | now | now e q | | now]; simpl in Hc.
  - apply getCurrentKey_spec in Hc as (_ & Hsts & Hr).
    destruct (Hsnd now m) as (_ & _ & _ & Hexh & _).
    rewrite Hsts, Hexh. split; [| done].
    destruct Hr as [(-> & _) | (k' & -> & _ & Ha)]; [done |].
    intros [= ->]. apply available_not_exhausted in Ha. congruence.
  - apply rotateKey_spec in Hc as (_ & Hsts & Hr).
    destruct (Hsnd now m) as (_ & _ & _ & Hexh & _).
    rewrite Hsts, Hexh. split; [| done].
    destruct Hr as [(-> & _) | (j & k' & _ & -> & _ & _ & Ha & _)]; [done |].
    intros [= ->]. apply available_not_exhausted in Ha. congruence.
  - inversion Hc; subst. split; [done |]. by apply reportError_exhausted.
  - inversion Hc; subst. split; [done |]. by rewrite reportSuccess_exhausted.
  - inversion Hc; subst. split; [done |].
    unfold getAvailableKeyCount.
    destruct (Hsnd now m) as (_ & _ & _ & Hexh & _).
    destruct (getAvailableKeys now m) as [out m1]. simpl in *. by rewrite Hexh.
Qed.

Lemma performAll_exhausted nm cs : ∀ m rs m' k,
  performAll nm cs m = (rs, m') →
  exhaustedIn (keyStatuses m) k = true →
  (Some k ∉ rs) ∧ exhaustedIn (keyStatuses m') k = true.
Proof.
  induction cs as [|c cs IH]; intros m rs m' k Hrun Hex; simpl in Hrun.
  - inversion Hrun; subst. split; [apply not_elem_of_nil | done].
  - destruct (perform nm c m) as [r m1] eqn:Hc.
    destruct (performAll nm cs m1) as [rs' m2] eqn:Hcs.
    inversion Hrun; subst.
    destruct (perform_exhausted _ _ _ _ _ _ Hc Hex) as [Hr Hex1].
    destruct (IH _ _ _ _ Hcs Hex1) as [Hrs Hex2].
    split; [| done]. intros [Heq|Hin]%elem_of_cons; [by apply Hr | by apply Hrs].
Qed.

(** *** The explicit reset *)

Lemma resetQuotaStatus_available now m k :
  exhaustedIn (keyStatuses m) k = true →
  availableIn now (keyStatuses (resetQuotaStatus m)) k = true ∧
  exhaustedIn (keyStatuses (resetQuotaStatus m)) k = false.
Proof.
  unfold exhaustedIn, availableIn, resetQuotaStatus. simpl. rewrite lookup_fmap.
  destruct (keyStatuses m !! k) as [st|]; simpl; [| done].
  intros Hq. unfold resetStatus. rewrite Hq. done.
Qed.

(** *** A pool whose keys are untouched or quota-exhausted *)

Lemma settled_available now m k :
  settled m → k ∈ apiKeys m →
  availableIn now (keyStatuses m) k = negb (exhaustedIn (keyStatuses m) k).
Proof.
  intros Hs Hk. destruct (Hs k Hk) as (st & Hst & [Hq | (Ha & Hq & Hn)]);
    unfold availableIn, exhaustedIn, availableAt; rewrite Hst, Hq; [done |].
  rewrite Hn, Ha. done.
Qed.

Lemma keyAvailable_settled now k sts st :
  sts !! k = Some st → settledStatus st → (keyAvailable now k sts).2 = sts.
Proof.
  intros Hst Hs. unfold keyAvailable. rewrite Hst.
  destruct (truthy (nextRetryTime st) && (now <? default 0 (nextRetryTime st)));
    [done |].
  destruct Hs as [Hq | (_ & _ & Hn)].
  - rewrite Hq. by rewrite andb_false_r.
  - rewrite Hn. done.
Qed.

Lemma filterAvailable_settled now keys sts :
  (∀ k, k ∈ keys → ∃ st, sts !! k = Some st ∧ settledStatus st) →
  (filterAvailable now keys sts).2 = sts.
Proof.
  induction keys as [|k keys IH]; intros Hs; simpl; [done |].
  destruct (Hs k ltac:(left)) as (st & Hst & Hset).
  pose proof (keyAvailable_settled now k sts st Hst Hset) as Hka.
  destruct (keyAvailable now k sts) as [keep sts1]. simpl in Hka. subst sts1.
  specialize (IH ltac:(intros k' Hk'; apply Hs; by right)).
  destruct (filterAvailable now keys sts) as [out sts2]. done.
Qed.

Lemma getAvailableKeys_settled now m :
  settled m → keyStatuses (getAvailableKeys now m).2 = keyStatuses m.
Proof.
  intros Hs. unfold getAvailableKeys.
  pose proof (filterAvailable_settled now (apiKeys m) (keyStatuses m) Hs) as Hf.
  destruct (filterAvailable now (apiKeys m) (keyStatuses m)) as [out sts]. done.
Qed.

Lemma remaining_zero m :
  remaining m = 0%nat ↔ ∀ k, k ∈ apiKeys m → exhaustedIn (keyStatuses m) k = true.
Proof.
  unfold remaining. split.
  - intros Hz k Hk. apply length_zero_iff_nil in Hz.
    destruct (exhaustedIn (keyStatuses m) k) eqn:He; [done |].
    exfalso. eapply filter_nil_not_elem_of; [exact Hz | exact He | exact Hk].
  - intros Hall.
    destruct (filter (fun k => exhaustedIn (keyStatuses m) k = false) (apiKeys m))
      as [|x l'] eqn:Hf; [done |].
    assert (x ∈ filter (fun k => exhaustedIn (keyStatuses m) k = false) (apiKeys m)) as Hin
      by (rewrite Hf; left).
    apply list_elem_of_filter in Hin as [Hp Hx]. rewrite (Hall x Hx) in Hp. done.
Qed.

Lemma filter_length_mono {A} (P Q : A → Prop) `{!∀ x, Decision (P x)}
    `{!∀ x, Decision (Q x)} (l : list A) :
  (∀ x, x ∈ l → Q x → P x) →
  (length (filter Q l) ≤ length (filter P l))%nat.
Proof.
  induction l as [|y l IH]; intros Himp; [done |].
  rewrite !filter_cons.
  specialize (IH ltac:(intros x Hx; apply Himp; by right)).
  destruct (decide (Q y)) as [Hq|Hq].
  - rewrite decide_True by (apply Himp; [left | done]). simpl. lia.
  - destruct (decide (P y)); simpl; lia.
Qed.

Lemma filter_length_lt {A} (P Q : A → Prop) `{!∀ x, Decision (P x)}
    `{!∀ x, Decision (Q x)} (l : list A) (a : A) :
  (∀ x, x ∈ l → Q x → P x) → a ∈ l → P a → ¬ Q a →
  (length (filter Q l) < length (filter P l))%nat.
Proof.
  induction l as [|y l IH]; intros Himp Ha HP HQ; [by apply elem_of_nil in Ha |].
  rewrite !filter_cons.
  assert (Himp' : ∀ x, x ∈ l → Q x → P x) by (intros x Hx; apply Himp; by right).
  pose proof (filter_length_mono P Q l Himp') as Hmono.
  apply elem_of_cons in Ha as [<- | Ha].
  - rewrite decide_False by done. rewrite decide_True by done. simpl. lia.
  - specialize (IH Himp' Ha HP HQ).
    destruct (decide (Q y)) as [Hq|Hq].
    + rewrite decide_True by (apply Himp; [left | done]). simpl. lia.
    + destruct (decide (P y)); simpl; lia.
Qed.

(** *** One quota failure per key empties the pool *)

Lemma reportError_quota_settled nm now e m :
  settled m → settled (reportError nm now e true m).
Proof.
  intros Hs k Hk.
  rewrite (proj1 (reportError_keys nm now e true m)) in Hk.
  destruct (Hs k Hk) as (st & Hst & Hset).
  unfold reportError.
  destruct (apiKeys m !! currentKeyIndex m) as [k0|]; [| eauto].
  destruct (keyStatuses m !! k0) as [st0|] eqn:H0; [| eauto]. simpl.
  destruct (decide (k = k0)) as [->|Hne].
  - rewrite lookup_insert_eq. eexists. split; [done |]. by left.
  - rewrite lookup_insert_ne by done. eauto.
Qed.

Lemma reportError_remaining_le nm now e q m :
  (remaining (reportError nm now e q m) ≤ remaining m)%nat.
Proof.
  unfold remaining. rewrite (proj1 (reportError_keys nm now e q m)).
  apply filter_length_mono. intros k _ Hk.
  destruct (exhaustedIn (keyStatuses m) k) eqn:He; [| done].
  by rewrite (reportError_exhausted nm now e q m k He) in Hk.
Qed.

Lemma reportError_remaining_lt nm now e m k :
  apiKeys m !! currentKeyIndex m = Some k →
  is_Some (keyStatuses m !! k) →
  exhaustedIn (keyStatuses m) k = false →
  (remaining (reportError nm now e true m) < remaining m)%nat.
Proof.
  intros Hk Hst He.
  unfold remaining. rewrite (proj1 (reportError_keys nm now e true m)).
  apply (filter_length_lt _ _ _ k).
  - intros k' _ Hk'.
    destruct (exhaustedIn (keyStatuses m) k') eqn:He'; [| done].
    by rewrite (reportError_exhausted nm now e true m k' He') in Hk'.
  - eapply list_elem_of_lookup_2; eauto.
  - done.
  - by rewrite (reportError_quota_marks nm now e m k Hk Hst).
Qed.

Lemma rotateKey_settled now m r m' :
  settled m → rotateKey now m = (r, m') →
  settled m' ∧ pointerOk m' ∧ remaining m' = remaining m.
Proof.
  intros Hs Hrot.
  apply rotateKey_spec in Hrot as (Hkeys & Hsts & Hr).
  rewrite (getAvailableKeys_settled now m Hs) in Hsts.
  assert (Hrem : remaining m' = remaining m) by (unfold remaining; by rewrite Hkeys, Hsts).
  split; [| split; [| done]].
  - intros k Hk. rewrite Hkeys in Hk. rewrite Hsts. by apply Hs.
  - destruct Hr as [(_ & _ & Hnone) | (j & k & _ & _ & _ & Hk & Ha & _)].
    + right. rewrite Hrem. apply remaining_zero. intros k Hk.
      specialize (Hnone k Hk). rewrite (settled_available now m k Hs Hk) in Hnone.
      by destruct (exhaustedIn (keyStatuses m) k).
    + left. exists k. rewrite Hkeys, Hsts. split; [done |].
      by apply available_not_exhausted in Ha.
Qed.

Lemma getCurrentKey_settled now m r m' :
  settled m → getCurrentKey now m = (r, m') →
  settled m' ∧ pointerOk m' ∧ remaining m' = remaining m ∧ apiKeys m' = apiKeys m.
Proof.
  intros Hs Hget.
  apply getCurrentKey_spec in Hget as (Hkeys & Hsts & Hr).
  rewrite (getAvailableKeys_settled now m Hs) in Hsts.
  assert (Hrem : remaining m' = remaining m) by (unfold remaining; by rewrite Hkeys, Hsts).
  split; [| split; [| done]].
  - intros k Hk. rewrite Hkeys in Hk. rewrite Hsts. by apply Hs.
  - destruct Hr as [(_ & _ & Hnone) | (k & _ & Hk & Ha)].
    + right. rewrite Hrem. apply remaining_zero. intros k Hk.
      specialize (Hnone k Hk). rewrite (settled_available now m k Hs Hk) in Hnone.
      by destruct (exhaustedIn (keyStatuses m) k).
    + left. exists k. rewrite Hkeys, Hsts. split; [done |].
      by apply available_not_exhausted in Ha.
Qed.

Lemma quotaFailure_step nm f m :
  settled m → pointerOk m →
  settled (quotaFailure nm f m) ∧ pointerOk (quotaFailure nm f m) ∧
  (remaining (quotaFailure nm f m) ≤ remaining m - 1)%nat ∧
  apiKeys (quotaFailure nm f m) = apiKeys m.
Proof.
  intros Hs Hp. destruct f as [[reportedAt advancedAt] viaRotate].
  unfold quotaFailure.
  set (m1 := reportError nm reportedAt "quotaExceeded" true m).
  assert (Hs1 : settled m1) by (by apply reportError_quota_settled).
  assert (Hk1 : apiKeys m1 = apiKeys m) by apply reportError_keys.
  assert (Hle : (remaining m1 ≤ remaining m - 1)%nat).
  { destruct Hp as [(k & Hk & He) | Hz].
    - assert (Hin : k ∈ apiKeys m) by (eapply list_elem_of_lookup_2; eauto).
      destruct (Hs k Hin) as (st & Hst & _).
      pose proof (reportError_remaining_lt nm reportedAt "quotaExceeded" m k Hk
                    ltac:(eauto) He) as Hlt.
      fold m1 in Hlt. lia.
    - pose proof (reportError_remaining_le nm reportedAt "quotaExceeded" true m) as Hle.
      fold m1 in Hle. lia. }
  destruct viaRotate.
  - destruct (rotateKey advancedAt m1) as [r m2] eqn:Hrot.
    destruct (rotateKey_settled _ _ _ _ Hs1 Hrot) as (Hs2 & Hp2 & Hrem).
    apply rotateKey_spec in Hrot as (Hk2 & _). cbn [snd].
    rewrite Hrem, Hk2. done.
  - destruct (getCurrentKey advancedAt m1) as [r m2] eqn:Hget.
    destruct (getCurrentKey_settled _ _ _ _ Hs1 Hget) as (Hs2 & Hp2 & Hrem & Hk2).
    cbn [snd]. rewrite Hrem, Hk2. done.
Qed.

Lemma quotaFailures_remaining nm fs : ∀ m,
  settled m → pointerOk m →
  settled (quotaFailures nm fs m) ∧
  (remaining (quotaFailures nm fs m) ≤ remaining m - length fs)%nat ∧
  apiKeys (quotaFailures nm fs m) = apiKeys m.
Proof.
  unfold quotaFailures.
  induction fs as [|f fs IH]; intros m Hs Hp; simpl.
  - split; [done |]. split; [lia | done].
  - destruct (quotaFailure_step nm f m Hs Hp) as (Hs1 & Hp1 & Hle & Hk1).
    destruct (IH _ Hs1 Hp1) as (Hs2 & Hle2 & Hkeys).
    split; [done |]. split; [lia |]. by rewrite Hkeys.
Qed.

Lemma new_statuses keys k :
  k ∈ keys →
  foldl (fun (sts : gmap string APIKeyStatus.t) key =>
           <[key := APIKeyStatus.mk key true false None None 0 None]> sts)
        ∅ keys !! k
  = Some (APIKeyStatus.mk k true false None None 0 None).
Proof.
  generalize (∅ : gmap string APIKeyStatus.t).
  induction keys as [|k0 keys IH] using rev_ind; intros sts Hk;
    [by apply elem_of_nil in Hk |].
  rewrite foldl_app. simpl.
  destruct (decide (k = k0)) as [->|Hne].
  - by rewrite lookup_insert_eq.
  - rewrite lookup_insert_ne by done. apply IH.
    apply elem_of_app in Hk as [Hk | Hk%list_elem_of_singleton]; done.
Qed.

Lemma new_spec keys m :
  APIKeyManager.new keys = inr m →
  keys ≠ [] ∧ apiKeys m = keys ∧ currentKeyIndex m = 0%nat ∧
  ∀ k, k ∈ keys →
    keyStatuses m !! k = Some (APIKeyStatus.mk k true false None None 0 None).
Proof.
  unfold APIKeyManager.new. destruct keys as [|k0 keys]; simpl; [done |].
  intros [= <-]. simpl. repeat split; [done |].
  intros k Hk. by apply (new_statuses (k0 :: keys)).
Qed.

Lemma new_settled keys m :
  APIKeyManager.new keys = inr m → settled m ∧ pointerOk m.
Proof.
  intros (Hne & Hkeys & Hidx & Hst)%new_spec. split.
  - intros k Hk. rewrite Hkeys in Hk. rewrite (Hst k Hk).
    eexists. split; [done |]. right. done.
  - left. rewrite Hkeys, Hidx. destruct keys as [|k0 keys]; [done |].
    exists k0. split; [done |]. unfold exhaustedIn. rewrite (Hst k0 ltac:(left)). done.
Qed.

Lemma filter_all {A} (P : A → Prop) `{!∀ x, Decision (P x)} (l : list A) :
  (∀ x, x ∈ l → P x) → filter P l = l.
Proof.
  induction l as [|y l IH]; intros Hall; [done |].
  rewrite filter_cons, decide_True by (apply Hall; left).
  f_equal. apply IH. intros x Hx. apply Hall. by right.
Qed.

(** *** Recovery from a transient error *)

Lemma backoffDelay_eq errors :
  Z.min (baseRetryDelay * 2 ^ (Z.of_nat errors - 1)) maxRetryDelay = backoffDelay errors.
Proof. reflexivity. Qed.

Lemma backoffDelay_bounds errors :
  (1 ≤ errors)%nat → 300000 <= backoffDelay errors <= 3600000.
Proof.
  intros He. unfold backoffDelay.
  assert (1 <= 2 ^ (Z.of_nat errors - 1)) by (apply (Z.pow_le_mono_r 2 0); lia).
  lia.
Qed.

Lemma backoffDelay_mono n n' :
  (1 ≤ n ≤ n')%nat → backoffDelay n <= backoffDelay n'.
Proof.
  intros Hn. unfold backoffDelay.
  assert (2 ^ (Z.of_nat n - 1) <= 2 ^ (Z.of_nat n' - 1))
    by (apply Z.pow_le_mono_r; lia).
  lia.
Qed.

Lemma reportError_transient_status nm now e m k st :
  apiKeys m !! currentKeyIndex m = Some k →
  keyStatuses m !! k = Some st →
  keyStatuses (reportError nm now e false m) !! k =
    Some (APIKeyStatus.mk (APIKeyStatus.key st) false (quotaExhausted st) (Some e)
            (Some now) (S (consecutiveErrors st))
            (Some (now + backoffDelay (S (consecutiveErrors st))))).
Proof.
  intros Hk Hst. unfold reportError. rewrite Hk, Hst. cbn [keyStatuses setStatuses].
  rewrite lookup_insert_eq. by rewrite backoffDelay_eq.
Qed.

Lemma transient_recovery nm t e m k st :
  apiKeys m !! currentKeyIndex m = Some k →
  keyStatuses m !! k = Some st →
  quotaExhausted st = false →
  0 <= t →
  ∀ now,
    (t + backoffDelay (S (consecutiveErrors st)) <= now →
       k ∈ (getAvailableKeys now (reportError nm t e false m)).1) ∧
    (now < t + backoffDelay (S (consecutiveErrors st)) →
       k ∉ (getAvailableKeys now (reportError nm t e false m)).1).
Proof.
  intros Hk Hst Hq Ht now.
  pose proof (backoffDelay_bounds (S (consecutiveErrors st)) ltac:(lia)) as Hb.
  rewrite getAvailableKeys_fst, list_elem_of_filter.
  rewrite (proj1 (reportError_keys nm t e false m)).
  unfold availableIn. rewrite (reportError_transient_status nm t e m k st Hk Hst).
  unfold availableAt. cbn [quotaExhausted nextRetryTime isActive truthy default].
  rewrite Hq.
  destruct (Z.eqb_spec (t + backoffDelay (S (consecutiveErrors st))) 0) as [H0|_];
    [lia |].
  cbn [negb andb]. unfold id. split.
  - intros Hle. split; [| eapply list_elem_of_lookup_2; eauto].
    apply Is_true_true. by apply Z.leb_le.
  - intros Hlt [Hle _]. apply Is_true_true, Z.leb_le in Hle. lia.
Qed.

(** C3. (a) A key that a quota-class [reportError] has marked
    [quotaExhausted] is returned by no later [getCurrentKey] or
    [rotateKey], whatever the times of the calls and whatever
    [reportError]/[reportSuccess] calls come in between, and stays marked,
    as long as [resetQuotaStatus] is not called. (b) [resetQuotaStatus]
    makes every exhausted key available again. (c) For a pool of N keys,
    N quota-class failures, each followed by a move of the pointer
    ([rotateKey], or [getCurrentKey] choosing the next key), make
    [getCurrentKey] return null; a [resetQuotaStatus] then restores all N
    keys. (d) A key that only failed transiently is unavailable before
    its [nextRetryTime] and available from then on. *)
Theorem quota_exhaustion_sticky_until_reset (nextMidnight : Z → Z) :
  (∀ m k now e calls,
     apiKeys m !! currentKeyIndex m = Some k →
     is_Some (keyStatuses m !! k) →
     let m1 := reportError nextMidnight now e true m in
     exhaustedIn (keyStatuses m1) k = true ∧
     (Some k ∉ (performAll nextMidnight calls m1).1) ∧
     exhaustedIn (keyStatuses (performAll nextMidnight calls m1).2) k = true) ∧
  (∀ m k now,
     k ∈ apiKeys m → exhaustedIn (keyStatuses m) k = true →
     exhaustedIn (keyStatuses (resetQuotaStatus m)) k = false ∧
     k ∈ (getAvailableKeys now (resetQuotaStatus m)).1) ∧
  (∀ keys m0 times now now',
     APIKeyManager.new keys = inr m0 →
     length times = length keys →
     let m := quotaFailures nextMidnight times m0 in
     (getCurrentKey now m).1 = None ∧
     (getAvailableKeys now' (resetQuotaStatus m)).1 = keys) ∧
  (∀ m k st t e now,
     apiKeys m !! currentKeyIndex m = Some k →
     keyStatuses m !! k = Some st →
     quotaExhausted st = false →
     0 <= t →
     let m1 := reportError nextMidnight t e false m in
     let retry := t + backoffDelay (S (consecutiveErrors st)) in
     (nextRetryTime <$> keyStatuses m1 !! k) = Some (Some retry) ∧
     (retry <= now → k ∈ (getAvailableKeys now m1).1) ∧
     (now < retry → k ∉ (getAvailableKeys now m1).1)).
Proof.
  split; [| split; [| split]].
  - intros m k now e calls Hk Hst m1.
    assert (Hex : exhaustedIn (keyStatuses m1) k = true)
      by (by apply reportError_quota_marks).
    split; [done |].
    destruct (performAll nextMidnight calls m1) as [rs m'] eqn:Hrun.
    by apply (performAll_exhausted _ _ _ _ _ _ Hrun).
  - intros m k now Hk Hex.
    destruct (resetQuotaStatus_available now m k Hex) as [Ha Hq].
    split; [done |].
    rewrite getAvailableKeys_fst. apply list_elem_of_filter. split; [| done].
    by apply Is_true_true.
  - intros keys m0 times now now' Hnew Hlen m.
    destruct (new_settled _ _ Hnew) as [Hs0 Hp0].
    destruct (new_spec _ _ Hnew) as (_ & Hkeys0 & _).
    destruct (quotaFailures_remaining nextMidnight times m0 Hs0 Hp0)
      as (Hs & Hrem & Hkeys). fold m in Hs, Hrem, Hkeys.
    assert (Hz : remaining m = 0%nat).
    { assert (remaining m0 ≤ length (apiKeys m0))%nat by apply length_filter.
      rewrite Hkeys0 in *. lia. }
    pose proof (proj1 (remaining_zero m) Hz) as Hall.
    split.
    + destruct (getCurrentKey now m) as [r m'] eqn:Hget.
      apply getCurrentKey_spec in Hget as (_ & _ & [(-> & _) | (k & -> & Hk & Ha)]);
        [done |].
      exfalso. apply available_not_exhausted in Ha.
      assert (k ∈ apiKeys m) by (eapply list_elem_of_lookup_2; eauto).
      rewrite (Hall k) in Ha; done.
    + rewrite getAvailableKeys_fst. cbn [resetQuotaStatus setStatuses apiKeys keyStatuses].
      rewrite Hkeys, Hkeys0.
      apply filter_all. intros k Hk.
      apply Is_true_true.
      apply (resetQuotaStatus_available now' m k). apply Hall. by rewrite Hkeys, Hkeys0.
  - intros m k st t e now Hk Hst Hq Ht m1 retry.
    split.
    + unfold m1. by rewrite (reportError_transient_status _ t e m k st Hk Hst).
    + apply (transient_recovery nextMidnight t e m k st Hk Hst Hq Ht now).
Qed.

Lemma quota_exhaustion_sticky_until_reset_witness :
  let m := managerOf ["K1"; "K2"] in
  let fresh := APIKeyStatus.mk "K1" true false None None 0 None in
  let m1 := reportError utcNextMidnight 1000 "quotaExceeded" true m in
  let calls := [ReportSuccess; GetCurrentKey 90000000; RotateKey 90000001] in
  let spent := quotaFailures utcNextMidnight [(0, 1, true); (2, 3, false)] m in
  let m2 := reportError utcNextMidnight 1000 "timeout" false m in
  ((apiKeys m !! currentKeyIndex m = Some "K1" ∧ is_Some (keyStatuses m !! "K1")) ∧
   exhaustedIn (keyStatuses m1) "K1" = true ∧
   (Some "K1" ∉ (performAll utcNextMidnight calls m1).1) ∧
   exhaustedIn (keyStatuses (performAll utcNextMidnight calls m1).2) "K1" = true) ∧
  (("K1" ∈ apiKeys spent ∧ exhaustedIn (keyStatuses spent) "K1" = true) ∧
   exhaustedIn (keyStatuses (resetQuotaStatus spent)) "K1" = false ∧
   "K1" ∈ (getAvailableKeys 5 (resetQuotaStatus spent)).1) ∧
  ((APIKeyManager.new ["K1"; "K2"] = inr m ∧
    length [(0, 1, true); (2, 3, false)] = length ["K1"; "K2"]) ∧
   (getCurrentKey 4 spent).1 = None ∧
   (getAvailableKeys 5 (resetQuotaStatus spent)).1 = ["K1"; "K2"]) ∧
  ((apiKeys m !! currentKeyIndex m = Some "K1" ∧ keyStatuses m !! "K1" = Some fresh ∧
    quotaExhausted fresh = false ∧ 0 <= 1000 ∧
    1000 + backoffDelay (S (consecutiveErrors fresh)) <= 400000 ∧
    2000 < 1000 + backoffDelay (S (consecutiveErrors fresh))) ∧
   (nextRetryTime <$> keyStatuses m2 !! "K1")
     = Some (Some (1000 + backoffDelay (S (consecutiveErrors fresh)))) ∧
   "K1" ∈ (getAvailableKeys 400000 m2).1 ∧
   "K1" ∉ (getAvailableKeys 2000 m2).1).
Proof.
  pose proof (quota_exhaustion_sticky_until_reset utcNextMidnight) as (Ha & Hb & Hc & Hd).
  intros m fresh m1 calls spent m2.
  assert (Hin : "K1" ∈ apiKeys spent) by (apply list_elem_of_In; vm_compute; by left).
  split; [| split; [| split]].
  - split; [split; [reflexivity | eexists; reflexivity] |].
    apply (Ha m "K1" 1000 "quotaExceeded" calls); [reflexivity | eexists; reflexivity].
  - split; [split; [exact Hin | reflexivity] |].
    apply (Hb spent "K1" 5); [exact Hin | reflexivity].
  - split; [split; reflexivity |].
    apply (Hc ["K1"; "K2"] m [(0, 1, true); (2, 3, false)] 4 5); reflexivity.
  - assert (Hlate : 1000 + backoffDelay (S (consecutiveErrors fresh)) <= 400000)
      by discriminate.
    assert (Hearly : 2000 < 1000 + backoffDelay (S (consecutiveErrors fresh)))
      by reflexivity.
    assert (Ht : 0 <= 1000) by discriminate.
    split; [by repeat split |].
    destruct (Hd m "K1" fresh 1000 "timeout" 400000 eq_refl eq_refl eq_refl Ht)
      as (Hretry & Hin' & _).
    destruct (Hd m "K1" fresh 1000 "timeout" 2000 eq_refl eq_refl eq_refl Ht)
      as (_ & _ & Hout).
    split; [exact Hretry |]. split; [exact (Hin' Hlate) | exact (Hout Hearly)].
Defined.

(** *** Round-robin rotation *)

Lemma allFresh_settled m : allFresh m → settled m.
Proof.
  intros Hf k Hk. destruct (Hf k Hk) as (st & Hst & Hrest).
  exists st. split; [done |]. by right.
Qed.

Lemma allFresh_available now m k :
  allFresh m → k ∈ apiKeys m → availableIn now (keyStatuses m) k = true.
Proof.
  intros Hf Hk. destruct (Hf k Hk) as (st & Hst & Ha & Hq & Hn).
  unfold availableIn, availableAt. by rewrite Hst, Hq, Hn, Ha.
Qed.

Lemma rotateKey_fresh now m :
  allFresh m → apiKeys m ≠ [] →
  (rotateKey now m).1 =
    apiKeys m !! ((currentKeyIndex m + 1) `mod` length (apiKeys m))%nat ∧
  currentKeyIndex (rotateKey now m).2 =
    ((currentKeyIndex m + 1) `mod` length (apiKeys m))%nat ∧
  apiKeys (rotateKey now m).2 = apiKeys m ∧
  allFresh (rotateKey now m).2.
Proof.
  intros Hf Hne.
  assert (Hpos : (0 < length (apiKeys m))%nat) by (destruct (apiKeys m); simpl; [done | lia]).
  assert (Hlt : ((currentKeyIndex m + 1) `mod` length (apiKeys m) < length (apiKeys m))%nat)
    by (apply Nat.mod_upper_bound; lia).
  destruct (lookup_lt_is_Some_2 _ _ Hlt) as [k1 Hk1].
  assert (Hin1 : k1 ∈ apiKeys m) by (eapply list_elem_of_lookup_2; eauto).
  destruct (rotateKey now m) as [r m'] eqn:Hrot.
  apply rotateKey_spec in Hrot as (Hkeys & Hsts & Hr).
  rewrite (getAvailableKeys_settled now m (allFresh_settled m Hf)) in Hsts.
  cbn [fst snd].
  destruct Hr as [(_ & _ & Hnone) | (j & k & Hj & -> & Hidx & Hk & Ha & Hbefore)].
  - specialize (Hnone k1 Hin1). by rewrite (allFresh_available now m k1 Hf Hin1) in Hnone.
  - assert (j = 1%nat) as ->.
    { destruct (decide (j = 1%nat)) as [|Hj1]; [done |]. exfalso.
      specialize (Hbefore 1%nat k1 ltac:(lia) Hk1).
      by rewrite (allFresh_available now m k1 Hf Hin1) in Hbefore. }
    rewrite Hidx in Hk. split; [by rewrite Hk |]. split; [done |]. split; [done |].
    intros k' Hk'. rewrite Hkeys in Hk'. rewrite Hsts. by apply Hf.
Qed.

Lemma rotations_fresh times : ∀ m,
  allFresh m → apiKeys m ≠ [] →
  rotations times m =
    (fun i => apiKeys m !! ((currentKeyIndex m + 1 + i) `mod` length (apiKeys m))%nat)
      <$> seq 0 (length times).
Proof.
  induction times as [|t times IH]; intros m Hf Hne; [done |].
  cbn [rotations length seq fmap list_fmap].
  destruct (rotateKey_fresh t m Hf Hne) as (Hr & Hidx & Hkeys & Hf').
  destruct (rotateKey t m) as [r m1]. cbn [fst snd] in *.
  rewrite Nat.add_0_r, Hr. f_equal.
  rewrite (IH m1 Hf' ltac:(by rewrite Hkeys)).
  rewrite <- fmap_S_seq, <- list_fmap_compose.
  apply list_fmap_ext. intros _ i _. cbn [compose].
  rewrite Hkeys, Hidx. f_equal.
  rewrite <- Nat.add_assoc, Nat.Div0.add_mod_idemp_l. f_equal.
Qed.

Lemma rotate_nat_add_mod (b o n : nat) : rotate_nat_add b o n = ((b + o) `mod` n)%nat.
Proof.
  unfold rotate_nat_add.
  rewrite <- Nat2Z.inj_add, <- Nat2Z.inj_mod. apply Nat2Z.id.
Qed.

Lemma full_cycle (keys : list string) :
  (fun i => keys !! ((0 + 1 + i) `mod` length keys)%nat) <$> seq 0 (length keys)
  = Some <$> rotate 1 keys.
Proof.
  apply list_eq. intros i. rewrite !list_lookup_fmap.
  destruct (decide (i < length keys)%nat) as [Hi|Hi].
  - rewrite lookup_seq_lt, lookup_rotate_r by done. cbn [fmap option_fmap option_map].
    rewrite rotate_nat_add_mod. simpl.
    destruct (lookup_lt_is_Some_2 keys (S i `mod` length keys)%nat
                ltac:(apply Nat.mod_upper_bound; lia)) as [k ->].
    done.
  - rewrite lookup_seq_ge by lia.
    rewrite (lookup_ge_None_2 (rotate 1 keys)) by (rewrite length_rotate; lia). done.
Qed.

(** C4 (as the code has it). [rotateKey] inspects the positions of the
    pool in round-robin order, starting just after the rotation pointer
    and ending with the pointer's own position; it moves the pointer to
    the first position whose key is available and returns that key. It
    returns null exactly when no key of the pool is available; in
    particular it never returns null while the current key is available.
    From a freshly built manager (pointer 0, every key available) the
    [i]-th call returns the key at position [(i + 1) mod N], so N calls
    visit every position exactly once: they return the pool rotated by
    one. *)
Theorem rotateKey_round_robin :
  (∀ now m,
     let N := length (apiKeys m) in
     let m' := (rotateKey now m).2 in
     apiKeys m' = apiKeys m ∧
     (((rotateKey now m).1 = None ∧ currentKeyIndex m' = currentKeyIndex m ∧
       ∀ k, k ∈ apiKeys m → availableIn now (keyStatuses m) k = false)
      ∨ (∃ j k, (1 ≤ j ≤ N)%nat ∧ (rotateKey now m).1 = Some k ∧
                currentKeyIndex m' = ((currentKeyIndex m + j) `mod` N)%nat ∧
                apiKeys m !! currentKeyIndex m' = Some k ∧
                availableIn now (keyStatuses m) k = true ∧
                ∀ j' k', (1 ≤ j' < j)%nat →
                  apiKeys m !! ((currentKeyIndex m + j') `mod` N)%nat = Some k' →
                  availableIn now (keyStatuses m) k' = false))) ∧
  (∀ now m,
     (rotateKey now m).1 = None ↔
     ∀ k, k ∈ apiKeys m → availableIn now (keyStatuses m) k = false) ∧
  (∀ now m k,
     apiKeys m !! currentKeyIndex m = Some k →
     availableIn now (keyStatuses m) k = true →
     (∀ i k', i ≠ currentKeyIndex m → apiKeys m !! i = Some k' →
              availableIn now (keyStatuses m) k' = false) →
     (rotateKey now m).1 = Some k ∧
     currentKeyIndex (rotateKey now m).2 = currentKeyIndex m) ∧
  (∀ keys m0 times,
     APIKeyManager.new keys = inr m0 →
     rotations times m0 =
       (fun i => keys !! ((i + 1) `mod` length keys)%nat) <$> seq 0 (length times) ∧
     (length times = length keys → rotations times m0 = Some <$> rotate 1 keys)).
Proof.
  split; [| split; [| split]].
  - intros now m N m'. subst N m'.
    destruct (rotateKey now m) as [r m'] eqn:Hrot.
    apply rotateKey_spec in Hrot as (Hkeys & _ & Hr). cbn [fst snd]. done.
  - intros now m.
    destruct (rotateKey now m) as [r m'] eqn:Hrot.
    apply rotateKey_spec in Hrot as (_ & _ & Hr). cbn [fst snd].
    destruct Hr as [(-> & _ & Hnone) | (j & k & _ & -> & _ & Hk & Ha & _)].
    + done.
    + split; [done |]. intros Hnone.
      rewrite (Hnone k) in Ha; [done |]. eapply list_elem_of_lookup_2; eauto.
  - intros now m k Hk Ha Hothers.
    destruct (rotateKey now m) as [r m'] eqn:Hrot.
    apply rotateKey_spec in Hrot as (_ & _ & Hr). cbn [fst snd].
    destruct Hr as [(_ & _ & Hnone) | (j & k' & _ & -> & _ & Hk' & Ha' & _)].
    + rewrite (Hnone k) in Ha; [done |]. eapply list_elem_of_lookup_2; eauto.
    + destruct (decide (currentKeyIndex m' = currentKeyIndex m)) as [Heq|Hne].
      * rewrite Heq in Hk'. split; [congruence | done].
      * rewrite (Hothers _ _ Hne Hk') in Ha'. done.
  - intros keys m0 times Hnew.
    destruct (new_spec _ _ Hnew) as (Hne & Hkeys & Hidx & Hst).
    assert (Hf : allFresh m0).
    { intros k Hk. rewrite Hkeys in Hk. rewrite (Hst k Hk). eexists. done. }
    pose proof (rotations_fresh times m0 Hf ltac:(by rewrite Hkeys)) as Hrot.
    rewrite Hkeys, Hidx in Hrot.
    split.
    + rewrite Hrot. apply list_fmap_ext. intros _ i _. f_equal. f_equal. lia.
    + intros Hlen. rewrite Hrot, Hlen. apply full_cycle.
Qed.

Lemma rotateKey_round_robin_witness :
  let pool := managerOf ["K1"; "K2"; "K3"] in
  let single := managerOf ["K1"] in
  ((APIKeyManager.new ["K1"; "K2"; "K3"] = inr pool ∧
    length [10; 20; 30] = length ["K1"; "K2"; "K3"]) ∧
   rotations [10; 20; 30] pool = Some <$> rotate 1 ["K1"; "K2"; "K3"]) ∧
  ((apiKeys single !! currentKeyIndex single = Some "K1" ∧
    availableIn 0 (keyStatuses single) "K1" = true ∧
    ∀ i k', i ≠ currentKeyIndex single → apiKeys single !! i = Some k' →
            availableIn 0 (keyStatuses single) k' = false) ∧
   (rotateKey 0 single).1 = Some "K1" ∧
   currentKeyIndex (rotateKey 0 single).2 = currentKeyIndex single).
Proof.
  pose proof rotateKey_round_robin as (_ & _ & Hsole & Hcycle).
  intros pool single.
  assert (Hothers : ∀ i k', i ≠ currentKeyIndex single → apiKeys single !! i = Some k' →
                            availableIn 0 (keyStatuses single) k' = false).
  { intros [|i] k' Hi Hk'; [done |]. by destruct i. }
  split.
  - split; [split; reflexivity |].
    apply (Hcycle ["K1"; "K2"; "K3"] pool [10; 20; 30]); reflexivity.
  - split; [repeat split; exact Hothers |].
    apply (Hsole 0 single "K1"); [reflexivity | reflexivity | exact Hothers].
Defined.

(** C4 as stated fails: in a pool whose only key is available no other key
    is available, and yet [rotateKey] returns that key, not null. *)
Lemma rotateKey_sole_key_counterexample :
  let m := managerOf ["K1"] in
  (∀ i k, i ≠ currentKeyIndex m → apiKeys m !! i = Some k →
          availableIn 0 (keyStatuses m) k = false) ∧
  (rotateKey 0 m).1 = Some "K1" ∧
  (rotateKey 0 m).1 ≠ None.
Proof.
  split; [| split; [reflexivity | discriminate]].
  intros [|i] k Hi Hk; [done |]. by destruct i.
Qed.

(** *** Exponential backoff *)

Lemma transientErrors_status nm times : ∀ m k st,
  apiKeys m !! currentKeyIndex m = Some k →
  keyStatuses m !! k = Some st →
  ∃ st',
    apiKeys (transientErrors nm times m)
      !! currentKeyIndex (transientErrors nm times m) = Some k ∧
    keyStatuses (transientErrors nm times m) !! k = Some st' ∧
    consecutiveErrors st' = (consecutiveErrors st + length times)%nat.
Proof.
  unfold transientErrors.
  induction times as [|t times IH]; intros m k st Hk Hst; simpl.
  - exists st. by rewrite Nat.add_0_r.
  - destruct (reportError_keys nm t "transient" false m) as [Hkeys Hidx].
    edestruct (IH (reportError nm t "transient" false m) k) as (st' & Hk' & Hst' & Hc).
    + by rewrite Hkeys, Hidx.
    + by apply reportError_transient_status.
    + exists st'. split; [done |]. split; [done |]. rewrite Hc. simpl. lia.
Qed.

Lemma reportSuccess_status m k st :
  apiKeys m !! currentKeyIndex m = Some k →
  keyStatuses m !! k = Some st →
  apiKeys (reportSuccess m) !! currentKeyIndex (reportSuccess m) = Some k ∧
  keyStatuses (reportSuccess m) !! k =
    Some (APIKeyStatus.mk (APIKeyStatus.key st) true (quotaExhausted st) None None 0 None).
Proof.
  intros Hk Hst. unfold reportSuccess. rewrite Hk, Hst.
  cbn [apiKeys currentKeyIndex keyStatuses setStatuses].
  by rewrite lookup_insert_eq.
Qed.

(** C5. For the key under the rotation pointer, a transient
    [reportError] at time [t] that follows [n] earlier consecutive
    transient errors raises [consecutiveErrors] by one and sets
    [nextRetryTime] to [t + min(baseDelay * 2^(consecutiveErrors-1), maxDelay)]
    with a base of 5 minutes and a cap of 60 minutes; the delay never
    decreases from one error to the next and never exceeds the cap; after
    a [reportSuccess] the next transient error waits the base delay
    again. *)
Theorem backoff_monotone_bounded_reset (nextMidnight : Z → Z) :
  (∀ m k st times t e,
     apiKeys m !! currentKeyIndex m = Some k →
     keyStatuses m !! k = Some st →
     let errors := S (consecutiveErrors st + length times) in
     let m1 := reportError nextMidnight t e false (transientErrors nextMidnight times m) in
     (consecutiveErrors <$> keyStatuses m1 !! k) = Some errors ∧
     (nextRetryTime <$> keyStatuses m1 !! k)
       = Some (Some (t + Z.min (300000 * 2 ^ (Z.of_nat errors - 1)) 3600000))) ∧
  (∀ n, (1 ≤ n)%nat →
     backoffDelay n <= backoffDelay (S n) ∧ backoffDelay (S n) <= 3600000) ∧
  (∀ m k st t e,
     apiKeys m !! currentKeyIndex m = Some k →
     keyStatuses m !! k = Some st →
     (nextRetryTime <$>
        keyStatuses (reportError nextMidnight t e false (reportSuccess m)) !! k)
       = Some (Some (t + 300000))).
Proof.
  split; [| split].
  - intros m k st times t e Hk Hst errors m1.
    destruct (transientErrors_status nextMidnight times m k st Hk Hst)
      as (st' & Hk' & Hst' & Hc).
    unfold m1. rewrite (reportError_transient_status _ t e _ k st' Hk' Hst').
    cbn [fmap option_fmap option_map consecutiveErrors nextRetryTime].
    rewrite Hc. done.
  - intros n Hn. split.
    + apply backoffDelay_mono. lia.
    + apply backoffDelay_bounds. lia.
  - intros m k st t e Hk Hst.
    destruct (reportSuccess_status m k st Hk Hst) as [Hk' Hst'].
    rewrite (reportError_transient_status _ t e _ k _ Hk' Hst'). done.
Qed.

Lemma backoff_monotone_bounded_reset_witness :
  let m := managerOf ["K1"; "K2"] in
  (apiKeys m !! currentKeyIndex m = Some "K1" ∧
   keyStatuses m !! "K1" = Some (APIKeyStatus.mk "K1" true false None None 0 None)) ∧
  (nextRetryTime <$>
     keyStatuses (reportError utcNextMidnight 7000 "timeout" false
                    (transientErrors utcNextMidnight [1000; 2000; 3000] m)) !! "K1")
    = Some (Some (7000 + Z.min (300000 * 2 ^ (Z.of_nat 4 - 1)) 3600000)) ∧
  ((1 ≤ 3)%nat ∧ backoffDelay 3 <= backoffDelay 4 ∧ backoffDelay 4 <= 3600000) ∧
  (nextRetryTime <$>
     keyStatuses (reportError utcNextMidnight 9000 "timeout" false (reportSuccess m)) !! "K1")
    = Some (Some (9000 + 300000)).
Proof.
  split; [split; reflexivity |]. split; [| split].
  { apply (proj1 (backoff_monotone_bounded_reset utcNextMidnight)
             (managerOf ["K1"; "K2"]) "K1"
             (APIKeyStatus.mk "K1" true false None None 0 None)
             [1000; 2000; 3000] 7000 "timeout"); reflexivity. }
  { split; [lia |].
    apply (proj1 (proj2 (backoff_monotone_bounded_reset utcNextMidnight)) 3%nat). lia. }
  apply (proj2 (proj2 (backoff_monotone_bounded_reset utcNextMidnight))
           (managerOf ["K1"; "K2"]) "K1"
           (APIKeyStatus.mk "K1" true false None None 0 None) 9000 "timeout");
    reflexivity.
Defined.

End KeyManagerProps.

(** ** The client *)

Module ClientProps.
Import YouTubeAPIClient ClientSpec.

(** *** Failure objects *)

Lemma handled_throws {A} (m : M A) st t st' :
  handled m st = (inl t, st') → ∃ e, t = ThrownAPIError e.
Proof.
  unfold handled, tryCatch, throw.
  destruct (m st) as [[e|a] st1]; intros [= <- <-]; eauto.
Qed.

Lemma handled_ok {A} (m : M A) st a st' :
  m st = (inr a, st') → handled m st = (inr a, st').
Proof. intros H. unfold handled, tryCatch. by rewrite H. Qed.

Lemma handled_fail {A} (m : M A) st e st' :
  m st = (inl e, st') → handled m st = (inl (ThrownAPIError (handleError e)), st').
Proof. intros H. unfold handled, tryCatch. by rewrite H. Qed.

Lemma handled_inv {A} (m : M A) st r st' :
  handled m st = (r, st') →
  (∃ a, r = inr a ∧ m st = (inr a, st')) ∨
  (∃ e, r = inl (ThrownAPIError (handleError e)) ∧ m st = (inl e, st')).
Proof.
  unfold handled, tryCatch, throw.
  destruct (m st) as [[e|a] st1]; intros [= <- <-]; eauto.
Qed.

Lemma handleError_status message response :
  APIError.code (handleError (ThrownAxios message (Some response))) = status response ∧
  APIError.retryable (handleError (ThrownAxios message (Some response))) =
    negb ((status response =? 400) || (status response =? 403) || (status response =? 404)).
Proof.
  unfold handleError.
  destruct (Z.eqb_spec (status response) 400) as [->|H400]; [done |].
  destruct (Z.eqb_spec (status response) 403) as [->|H403].
  { by destruct (JSString.includes _ _). }
  destruct (Z.eqb_spec (status response) 404) as [->|H404]; [done |].
  destruct (Z.eqb_spec (status response) 429) as [->|H429]; [done |].
  by destruct ((status response =? 500) || (status response =? 503)).
Qed.

Lemma validateResponse_malformed {T} (body : Body T) st :
  (∀ items, body ≠ BodyItems items) →
  ∃ e, validateResponse body st = (inl (ThrownAPIError e), st) ∧
       APIError.code e = 500 ∧ APIError.retryable e = true.
Proof.
  intros Hbad. destruct body as [| | |items]; simpl; unfold throw; eauto.
  by destruct (Hbad items).
Qed.

Lemma bind_inv {A B} (m : M A) (k : A → M B) st r st' :
  bind m k st = (r, st') →
  (∃ e, m st = (inl e, st') ∧ r = inl e) ∨
  (∃ a st1, m st = (inr a, st1) ∧ k a st1 = (r, st')).
Proof.
  unfold bind. destruct (m st) as [[e|a] st1].
  - intros [= <- <-]. left. eauto.
  - intros Hk. right. eauto.
Qed.

Lemma cacheGetVideos_ok w key st :
  ∃ r cache', cacheGetVideos w key st = (inr r, mkState cache' (trace st)) ∧
              APICache.getVideos (clock w (length (trace st))) key (cache st) = (r, cache').
Proof.
  unfold cacheGetVideos.
  destruct (APICache.getVideos _ key (cache st)) as [r cache']. eauto.
Qed.

Lemma cacheGetChannel_ok w key st :
  ∃ r cache', cacheGetChannel w key st = (inr r, mkState cache' (trace st)) ∧
              APICache.getChannel (clock w (length (trace st))) key (cache st) = (r, cache').
Proof.
  unfold cacheGetChannel.
  destruct (APICache.getChannel _ key (cache st)) as [r cache']. eauto.
Qed.

Lemma tryBridge_ok w c query cacheKey st :
  ∃ r st', tryBridge w c query cacheKey st = (inr r, st').
Proof.
  unfold tryBridge. destruct (searchService c && useSearchService c); [| by eexists _, _].
  unfold tryCatch, ret.
  destruct (bind _ _ st) as [[e|a] st1]; eauto.
Qed.

Lemma searchChannels_throws w c query st t st' :
  searchChannels w c query st = (inl t, st') → ∃ e, t = ThrownAPIError e.
Proof.
  unfold searchChannels. destruct (JSString.isBlank query).
  { intros [= <- <-]. eauto. }
  intros [(e & Hget & _) | (cached & st1 & _ & Hrest)]%bind_inv.
  { destruct (cacheGetVideos_ok w (searchCacheKey query) st) as (r & c' & Hok & _).
    congruence. }
  destruct cached as [cached|]; [done |].
  apply bind_inv in Hrest as [(e & Hb & _) | (viaBridge & st2 & _ & Hrest)].
  { destruct (tryBridge_ok w c query (searchCacheKey query) st1) as (r & s & Hok).
    congruence. }
  destruct viaBridge; [done |].
  apply bind_inv in Hrest as [(e & Hapi & [= ->]) | (chs & st3 & _ & [=])].
  by apply handled_throws in Hapi.
Qed.

Lemma getChannelInfo_throws w c channelId st t st' :
  getChannelInfo w c channelId st = (inl t, st') → ∃ e, t = ThrownAPIError e.
Proof.
  unfold getChannelInfo. destruct (JSString.isBlank channelId).
  { intros [= <- <-]. eauto. }
  intros [(e & Hget & _) | (cached & st1 & _ & Hrest)]%bind_inv.
  { destruct (cacheGetChannel_ok w channelId st) as (r & c' & Hok & _). congruence. }
  destruct cached; [done |]. by apply handled_throws in Hrest.
Qed.

Lemma getChannelVideos_throws w c channelId limit st t st' :
  getChannelVideos w c channelId limit st = (inl t, st') → ∃ e, t = ThrownAPIError e.
Proof.
  unfold getChannelVideos. destruct (JSString.isBlank channelId).
  { intros [= <- <-]. eauto. }
  intros [(e & Hget & _) | (cached & st1 & _ & Hrest)]%bind_inv.
  { destruct (cacheGetVideos_ok w (videosCacheKey channelId (default (maxResults c) limit)) st)
      as (r & c' & Hok & _). congruence. }
  destruct cached; [done |]. by apply handled_throws in Hrest.
Qed.

Lemma getVideoDetails_throws w c videoIds st t st' :
  getVideoDetails w c videoIds st = (inl t, st') → ∃ e, t = ThrownAPIError e.
Proof.
  unfold getVideoDetails. destruct (length videoIds =? 0)%nat; [done |].
  apply handled_throws.
Qed.

Lemma getChannelInfo_not_found w c channelId st :
  JSString.isBlank channelId = false →
  APICache.channelCache (cache st) !! channelId = None →
  channelsEndpoint w (length (trace st)) (apiKey c) channelId = Responded (BodyItems []) →
  ∃ e st', getChannelInfo w c channelId st = (inl (ThrownAPIError e), st') ∧
           APIError.code e = 404 ∧ APIError.retryable e = false.
Proof.
  intros Hb Hmiss Hresp. unfold getChannelInfo. rewrite Hb.
  unfold bind at 1, cacheGetChannel, APICache.getChannel. rewrite Hmiss.
  unfold handled, tryCatch, bind, requestChannels, requestOutcome. cbn [trace cache].
  rewrite Hresp. cbn. eexists _, _. done.
Qed.

(** C9 as stated fails: a response without [items] surfaces from
    [getChannelInfo] as a failure whose [retryable] flag is true. *)
Lemma malformed_response_retryable_counterexample :
  ∃ e st',
    getChannelInfo malformedWorld plainClient "UC1" emptyState
      = (inl (ThrownAPIError e), st') ∧
    APIError.message e = "Missing required field: items"%string ∧
    APIError.retryable e = true ∧
    APIError.retryable e ≠ false.
Proof. eexists _, _. vm_compute. repeat split. discriminate. Qed.

(** *** Graceful degradation of the bridge *)

Lemma searchChannels_miss w c query st cache' :
  JSString.isBlank query = false →
  APICache.getVideos (clock w (length (trace st))) (searchCacheKey query) (cache st)
    = (None, cache') →
  searchChannels w c query st =
    match tryBridge w c query (searchCacheKey query) (mkState cache' (trace st)) with
    | (inr (Some channels), st1) => (inr (Channels channels), st1)
    | (inr None, st1) =>
        asChannels (searchChannelsViaAPI w c query (searchCacheKey query) st1)
    | (inl e, st1) => (inl e, st1)
    end.
Proof.
  intros Hb Hmiss. unfold searchChannels. rewrite Hb.
  unfold bind at 1. unfold cacheGetVideos. rewrite Hmiss.
  unfold bind at 1.
  destruct (tryBridge w c query (searchCacheKey query) (mkState cache' (trace st)))
    as [[e|[channels|]] st1]; [done | done |].
  unfold bind, asChannels.
  by destruct (searchChannelsViaAPI w c query (searchCacheKey query) st1) as [[e|chs] st2].
Qed.

Lemma tryBridge_unhealthy w c query cacheKey st :
  searchService c && useSearchService c = true →
  default false (bridgeHealth w (length (trace st))) = false →
  tryBridge w c query cacheKey st
    = (inr None, mkState (cache st) (trace st ++ [BridgeHealth])).
Proof.
  intros Hcfg Hh. unfold tryBridge. rewrite Hcfg.
  unfold tryCatch, bind, isHealthy. by rewrite Hh.
Qed.

Lemma tryBridge_throws w c query cacheKey st e st2 :
  searchService c && useSearchService c = true →
  default false (bridgeHealth w (length (trace st))) = true →
  searchChannelsViaService w c query cacheKey
    (mkState (cache st) (trace st ++ [BridgeHealth])) = (inl e, st2) →
  tryBridge w c query cacheKey st = (inr None, st2).
Proof.
  intros Hcfg Hh Hsvc. unfold tryBridge. rewrite Hcfg.
  unfold tryCatch, bind, isHealthy. rewrite Hh. unfold bind. by rewrite Hsvc.
Qed.

(** C6. On a cache miss with the bridge configured: if the health probe
    reports unhealthy (or cannot be made), [searchChannels] continues
    with the provider's native search, and so it does when the bridge
    branch throws at any step; whatever failure [searchChannels] surfaces
    for a non-blank query is the failure of the native search path, never
    one of the bridge. *)
Theorem bridge_failure_falls_through (w : World) (c : YouTubeAPIClient.t)
    (query : string) (st : State) (cache' : APICache.t) :
  JSString.isBlank query = false →
  APICache.getVideos (clock w (length (trace st))) (searchCacheKey query) (cache st)
    = (None, cache') →
  let key := searchCacheKey query in
  let probed := mkState cache' (trace st ++ [BridgeHealth]) in
  (searchService c && useSearchService c = true →
   default false (bridgeHealth w (length (trace st))) = false →
   searchChannels w c query st = asChannels (searchChannelsViaAPI w c query key probed)) ∧
  (∀ e st2,
     searchService c && useSearchService c = true →
     default false (bridgeHealth w (length (trace st))) = true →
     searchChannelsViaService w c query key probed = (inl e, st2) →
     searchChannels w c query st = asChannels (searchChannelsViaAPI w c query key st2)) ∧
  (∀ e st',
     searchChannels w c query st = (inl e, st') →
     ∃ st2, searchChannelsViaAPI w c query key st2 = (inl e, st')).
Proof.
  intros Hb Hmiss key probed.
  pose proof (searchChannels_miss w c query st cache' Hb Hmiss) as Hsearch.
  fold key in Hsearch.
  split; [| split].
  - intros Hcfg Hh. rewrite Hsearch.
    by rewrite (tryBridge_unhealthy w c query key (mkState cache' (trace st)) Hcfg Hh).
  - intros e st2 Hcfg Hh Hsvc. rewrite Hsearch.
    by rewrite (tryBridge_throws w c query key (mkState cache' (trace st)) e st2 Hcfg Hh Hsvc).
  - intros e st' Hfail. rewrite Hsearch in Hfail.
    destruct (tryBridge_ok w c query key (mkState cache' (trace st))) as (r & st1 & Hok).
    rewrite Hok in Hfail. destruct r as [channels|]; [done |].
    exists st1. unfold asChannels in Hfail.
    destruct (searchChannelsViaAPI w c query key st1) as [[e'|chs] st2]; [| done].
    by inversion Hfail.
Qed.

Lemma bridge_failure_falls_through_witness :
  let key := searchCacheKey "cats" in
  let probed := mkState (cache emptyState) (trace emptyState ++ [BridgeHealth]) in
  let viaBridge := searchChannelsViaService (brokenBridgeWorld true) bridgedClient "cats" key
                     probed in
  let bridgeError := match viaBridge.1 with inl e => e | inr _ => ThrownOther end in
  let dead := searchChannels (deadWorld 0) plainClient "cats" emptyState in
  let deadError := match dead.1 with inl e => e | inr _ => ThrownOther end in
  ((JSString.isBlank "cats" = false ∧
    APICache.getVideos (clock (brokenBridgeWorld false) (length (trace emptyState)))
      key (cache emptyState) = (None, cache emptyState) ∧
    searchService bridgedClient && useSearchService bridgedClient = true ∧
    default false (bridgeHealth (brokenBridgeWorld false) (length (trace emptyState)))
      = false) ∧
   searchChannels (brokenBridgeWorld false) bridgedClient "cats" emptyState =
     asChannels (searchChannelsViaAPI (brokenBridgeWorld false) bridgedClient "cats" key
                   probed)) ∧
  ((default false (bridgeHealth (brokenBridgeWorld true) (length (trace emptyState))) = true ∧
    viaBridge = (inl bridgeError, viaBridge.2)) ∧
   searchChannels (brokenBridgeWorld true) bridgedClient "cats" emptyState =
     asChannels (searchChannelsViaAPI (brokenBridgeWorld true) bridgedClient "cats" key
                   viaBridge.2)) ∧
  (dead = (inl deadError, dead.2) ∧
   ∃ st2, searchChannelsViaAPI (deadWorld 0) plainClient "cats" key st2
            = (inl deadError, dead.2)).
Proof.
  intros key probed viaBridge bridgeError dead deadError.
  split; [| split].
  - split; [repeat split |].
    apply (proj1 (bridge_failure_falls_through (brokenBridgeWorld false) bridgedClient
                    "cats" emptyState (cache emptyState) eq_refl eq_refl));
      reflexivity.
  - split; [split; reflexivity |].
    apply (proj1 (proj2 (bridge_failure_falls_through (brokenBridgeWorld true) bridgedClient
                           "cats" emptyState (cache emptyState) eq_refl eq_refl))
             bridgeError viaBridge.2); reflexivity.
  - split; [reflexivity |].
    apply (proj2 (proj2 (bridge_failure_falls_through (deadWorld 0) plainClient
                           "cats" emptyState (cache emptyState) eq_refl eq_refl))
             deadError dead.2). reflexivity.
Defined.

(** *** Outbound calls *)

Section Emission.
Context (P : Call → Prop).

Lemma Emits_ret {A} (a : A) : Emits P (ret a).
Proof. intros st r st' [= <- <-]. exists []. by rewrite app_nil_r. Qed.

Lemma Emits_throw {A} e : Emits P (@throw A e).
Proof. intros st r st' [= <- <-]. exists []. by rewrite app_nil_r. Qed.

Lemma Emits_bind {A B} (m : M A) (k : A → M B) :
  Emits P m → (∀ a, Emits P (k a)) → Emits P (bind m k).
Proof.
  intros Hm Hk st r st' Hrun.
  apply bind_inv in Hrun as [(e & Hrun & ->) | (a & st1 & Hrun & Hrest)].
  - eapply Hm; eauto.
  - destruct (Hm _ _ _ Hrun) as (l1 & Ht1 & HP1).
    destruct (Hk a _ _ _ Hrest) as (l2 & Ht2 & HP2).
    exists (l1 ++ l2). rewrite Ht2, Ht1, app_assoc. split; [done |].
    by apply Forall_app.
Qed.

Lemma Emits_tryCatch {A} (m : M A) (h : Thrown → M A) :
  Emits P m → (∀ e, Emits P (h e)) → Emits P (tryCatch m h).
Proof.
  intros Hm Hh st r st' Hrun. unfold tryCatch in Hrun.
  destruct (m st) as [[e|a] st1] eqn:Hmst.
  - destruct (Hm _ _ _ Hmst) as (l1 & Ht1 & HP1).
    destruct (Hh e _ _ _ Hrun) as (l2 & Ht2 & HP2).
    exists (l1 ++ l2). rewrite Ht2, Ht1, app_assoc. split; [done |].
    by apply Forall_app.
  - inversion Hrun; subst. eapply Hm; eauto.
Qed.

Lemma Emits_handled {A} (m : M A) : Emits P m → Emits P (handled m).
Proof. intros Hm. apply Emits_tryCatch; [done |]. intros e. apply Emits_throw. Qed.

Lemma Emits_validateResponse {T} (body : Body T) : Emits P (validateResponse body).
Proof. destruct body; simpl; (apply Emits_throw || apply Emits_ret). Qed.

Lemma Emits_now w : Emits P (now w).
Proof. intros st r st' [= <- <-]. exists []. by rewrite app_nil_r. Qed.

Lemma Emits_cacheGetVideos w key : Emits P (cacheGetVideos w key).
Proof.
  intros st r st' Hrun. unfold cacheGetVideos in Hrun.
  destruct (APICache.getVideos _ key (cache st)) as [x cache'].
  inversion Hrun; subst. exists []. by rewrite app_nil_r.
Qed.

Lemma Emits_cacheGetChannel w key : Emits P (cacheGetChannel w key).
Proof.
  intros st r st' Hrun. unfold cacheGetChannel in Hrun.
  destruct (APICache.getChannel _ key (cache st)) as [x cache'].
  inversion Hrun; subst. exists []. by rewrite app_nil_r.
Qed.

Lemma Emits_cacheSetVideos w key v d : Emits P (cacheSetVideos w key v d).
Proof. intros st r st' [= <- <-]. exists []. by rewrite app_nil_r. Qed.

Lemma Emits_cacheSetChannel w key v d : Emits P (cacheSetChannel w key v d).
Proof. intros st r st' [= <- <-]. exists []. by rewrite app_nil_r. Qed.

Lemma Emits_requestOutcome {T} (outcome : Outcome T) call :
  P call → Emits P (requestOutcome outcome call).
Proof.
  intros HP st r st' Hrun. unfold requestOutcome in Hrun.
  exists [call]. destruct outcome; inversion Hrun; subst; simpl; auto.
Qed.

Lemma Emits_isHealthy w : P BridgeHealth → Emits P (isHealthy w).
Proof. intros HP st r st' [= <- <-]. exists [BridgeHealth]. simpl. auto. Qed.

Lemma Emits_serviceSearchChannels w query limit :
  (∀ q n, P (BridgeSearch q n)) → Emits P (serviceSearchChannels w query limit).
Proof.
  intros HP. unfold serviceSearchChannels.
  destruct (JSString.isBlank query); [apply Emits_throw |].
  intros st r st' [= <- <-]. eexists [_]. simpl. auto.
Qed.
End Emission.

Create HintDb emits discriminated.
#[local] Hint Resolve Emits_ret Emits_throw Emits_validateResponse Emits_now
  Emits_cacheGetVideos Emits_cacheGetChannel Emits_cacheSetVideos Emits_cacheSetChannel
  : emits.

(** Walks through a computation of the client: binds, handlers and
    branches are split, the leaves are closed from the hint base. *)
Ltac emits :=
  repeat first
    [ solve [eauto with emits]
    | apply Emits_handled
    | apply Emits_bind; [| intros ?]
    | apply Emits_tryCatch; [| intros ?]
    | progress cbv zeta
    | match goal with
      | |- Emits _ (if ?b then _ else _) => destruct b
      | |- Emits _ (match ?x with _ => _ end) => destruct x
      end ].

Section ClientEmission.
Context (w : World) (c : YouTubeAPIClient.t) (P : Call → Prop).
Hypothesis Pprovider : ∀ request, P (ProviderCall (apiKey c) request).
Hypothesis Pbridge : P BridgeHealth ∧ ∀ q n, P (BridgeSearch q n).

Lemma Emits_requestSearch q limit : Emits P (requestSearch w c q limit).
Proof. intros st r st' Hrun. eapply Emits_requestOutcome; [| exact Hrun]. auto. Qed.

Lemma Emits_requestChannels id : Emits P (requestChannels w c id).
Proof. intros st r st' Hrun. eapply Emits_requestOutcome; [| exact Hrun]. auto. Qed.

Lemma Emits_requestPlaylistItems id limit : Emits P (requestPlaylistItems w c id limit).
Proof. intros st r st' Hrun. eapply Emits_requestOutcome; [| exact Hrun]. auto. Qed.

Lemma Emits_requestVideos id : Emits P (requestVideos w c id).
Proof. intros st r st' Hrun. eapply Emits_requestOutcome; [| exact Hrun]. auto. Qed.

Lemma Emits_isHealthy' : Emits P (isHealthy w).
Proof. apply Emits_isHealthy, Pbridge. Qed.

Lemma Emits_serviceSearchChannels' query limit :
  Emits P (serviceSearchChannels w query limit).
Proof. apply Emits_serviceSearchChannels, Pbridge. Qed.

Hint Resolve Emits_requestSearch Emits_requestChannels Emits_requestPlaylistItems
  Emits_requestVideos Emits_isHealthy' Emits_serviceSearchChannels' : emits.

Lemma Emits_fetchBatches batches : ∀ acc, Emits P (fetchBatches w c batches acc).
Proof.
  induction batches as [|batch rest IH]; intros acc; cbn [fetchBatches]; emits.
Qed.

Lemma Emits_getVideoDetails ids : Emits P (getVideoDetails w c ids).
Proof. unfold getVideoDetails. pose proof Emits_fetchBatches. emits. Qed.

Lemma Emits_getChannelsByIds ids : Emits P (getChannelsByIds w c ids).
Proof. unfold getChannelsByIds. emits. Qed.

Hint Resolve Emits_getVideoDetails Emits_getChannelsByIds : emits.

Lemma Emits_searchChannelsViaService query key :
  Emits P (searchChannelsViaService w c query key).
Proof. unfold searchChannelsViaService. emits. Qed.

Lemma Emits_searchChannelsViaAPI query key :
  Emits P (searchChannelsViaAPI w c query key).
Proof. unfold searchChannelsViaAPI. emits. Qed.

Hint Resolve Emits_searchChannelsViaService Emits_searchChannelsViaAPI : emits.

Lemma Emits_tryBridge query key : Emits P (tryBridge w c query key).
Proof. unfold tryBridge. emits. Qed.

Hint Resolve Emits_tryBridge : emits.

Lemma Emits_searchChannels query : Emits P (searchChannels w c query).
Proof. unfold searchChannels. emits. Qed.

Lemma Emits_getChannelInfo id : Emits P (getChannelInfo w c id).
Proof. unfold getChannelInfo. emits. Qed.

Hint Resolve Emits_getChannelInfo : emits.

Lemma Emits_getChannelVideos id limit : Emits P (getChannelVideos w c id limit).
Proof. unfold getChannelVideos. emits. Qed.
End ClientEmission.

Lemma Emits_length {A} (m : M A) st r st' :
  Emits (fun _ => True) m → m st = (r, st') → (length (trace st) ≤ length (trace st'))%nat.
Proof.
  intros Hm Hrun. destruct (Hm _ _ _ Hrun) as (l & -> & _). rewrite length_app. lia.
Qed.

(** *** Zero hits *)

Lemma getVideos_None_lookup now key ch cache' :
  APICache.getVideos now key ch = (None, cache') →
  APICache.videoCache cache' !! key = None.
Proof.
  unfold APICache.getVideos.
  destruct (APICache.videoCache ch !! key) as [entry|] eqn:Hk.
  - destruct (expiresAt entry <=? now); [| done].
    intros [= <-]. simpl. apply lookup_delete_eq.
  - by intros [= <-].
Qed.

Lemma searchChannelsViaAPI_first w c query key st :
  searchChannelsViaAPI w c query key st =
    handled (fun st1 =>
      match searchEndpoint w (length (trace st)) (apiKey c) query (searchLimit c) with
      | Failed error => (inl error, st1)
      | Responded body =>
          bind (validateResponse body) (fun items =>
            let channelIds := YouTubeChannelSearchItem.channelId <$> items in
            if (length channelIds =? 0)%nat then ret []
            else
              bind (getChannelsByIds w c channelIds) (fun channels =>
                bind (cacheSetVideos w key (Channels channels) (Some (24 * 60 * 60 * 1000)))
                     (fun _ => ret channels))) st1
      end)
      (mkState (cache st)
         (trace st ++ [ProviderCall (apiKey c) (ReqSearch query (searchLimit c))])).
Proof.
  unfold searchChannelsViaAPI, handled, tryCatch, bind at 1, requestSearch, requestOutcome.
  by destruct (searchEndpoint w (length (trace st)) (apiKey c) query (searchLimit c)).
Qed.

Lemma searchChannelsViaAPI_zero_hits w c query key st :
  searchEndpoint w (length (trace st)) (apiKey c) query (searchLimit c)
    = Responded (BodyItems []) →
  searchChannelsViaAPI w c query key st =
    (inr [], mkState (cache st)
               (trace st ++ [ProviderCall (apiKey c) (ReqSearch query (searchLimit c))])).
Proof. intros Hresp. rewrite searchChannelsViaAPI_first, Hresp. done. Qed.

Lemma searchChannelsViaAPI_failed w c query key st error :
  searchEndpoint w (length (trace st)) (apiKey c) query (searchLimit c) = Failed error →
  searchChannelsViaAPI w c query key st =
    (inl (ThrownAPIError (handleError error)),
     mkState (cache st)
       (trace st ++ [ProviderCall (apiKey c) (ReqSearch query (searchLimit c))])).
Proof. intros Hresp. rewrite searchChannelsViaAPI_first, Hresp. done. Qed.

Lemma searchChannelsViaService_zero_hits w c query key st :
  JSString.isBlank query = false →
  bridgeSearch w (length (trace st)) (JSString.trim query) (searchLimit c) = inr [] →
  searchChannelsViaService w c query key st =
    (inr [], mkState (cache st)
               (trace st ++ [BridgeSearch (JSString.trim query) (searchLimit c)])).
Proof.
  intros Hb Hhits.
  unfold searchChannelsViaService, handled, tryCatch, bind at 1, serviceSearchChannels.
  rewrite Hb, Hhits. done.
Qed.

Lemma tryBridge_not_configured w c query key st :
  searchService c && useSearchService c = false →
  tryBridge w c query key st = (inr None, st).
Proof. intros Hcfg. unfold tryBridge. by rewrite Hcfg. Qed.

Lemma tryBridge_healthy w c query key st :
  searchService c && useSearchService c = true →
  default false (bridgeHealth w (length (trace st))) = true →
  tryBridge w c query key st =
    match searchChannelsViaService w c query key
            (mkState (cache st) (trace st ++ [BridgeHealth])) with
    | (inr channels, st2) => (inr (Some channels), st2)
    | (inl _, st2) => (inr None, st2)
    end.
Proof.
  intros Hcfg Hh. unfold tryBridge. rewrite Hcfg.
  unfold tryCatch, bind at 1, isHealthy. rewrite Hh. unfold bind.
  by destruct (searchChannelsViaService w c query key _) as [[e|chs] st2].
Qed.

Lemma searchChannels_miss_calls w c query st r st' :
  JSString.isBlank query = false →
  APICache.videoCache (cache st) !! searchCacheKey query = None →
  searchChannels w c query st = (r, st') →
  (length (trace st) < length (trace st'))%nat.
Proof.
  intros Hb Hmiss Hrun.
  rewrite (searchChannels_miss w c query st (cache st) Hb) in Hrun
    by (by apply CacheProps.getVideos_miss).
  assert (Hapi : ∀ st1 r1 st2,
            searchChannelsViaAPI w c query (searchCacheKey query) st1 = (r1, st2) →
            (length (trace st1) < length (trace st2))%nat).
  { intros st1 r1 st2. rewrite searchChannelsViaAPI_first. intros Hh.
    apply Emits_length in Hh.
    - simpl in Hh. rewrite length_app in Hh. simpl in Hh. lia.
    - apply Emits_handled.
      destruct (searchEndpoint w _ _ _ _) as [body|error];
        [| intros s0 r0 s0' [= <- <-]; exists []; by rewrite app_nil_r].
      apply Emits_bind; [apply Emits_validateResponse |]. intros items.
      cbv zeta. destruct (length _ =? 0)%nat; [apply Emits_ret |].
      apply Emits_bind; [by apply Emits_getChannelsByIds |]. intros channels.
      apply Emits_bind; [apply Emits_cacheSetVideos |]. intros _. apply Emits_ret. }
  destruct (searchService c && useSearchService c) eqn:Hcfg.
  - assert (Hprobe : ∀ o st1,
              tryBridge w c query (searchCacheKey query) (mkState (cache st) (trace st))
                = (o, st1) → (length (trace st) < length (trace st1))%nat).
    { intros o st1.
      destruct (default false (bridgeHealth w (length (trace st)))) eqn:Hh.
      - rewrite (tryBridge_healthy w c query _ (mkState (cache st) (trace st)) Hcfg Hh).
        destruct (searchChannelsViaService w c query _ _) as [[e|chs] st2] eqn:Hsvc;
          intros [= <- <-];
          apply Emits_length in Hsvc;
          try (by apply Emits_searchChannelsViaService);
          simpl in Hsvc; rewrite length_app in Hsvc; simpl in Hsvc; lia.
      - rewrite (tryBridge_unhealthy w c query _ (mkState (cache st) (trace st)) Hcfg Hh).
        intros [= <- <-]. simpl. rewrite length_app. simpl. lia. }
    destruct (tryBridge w c query (searchCacheKey query) (mkState (cache st) (trace st)))
      as [[e|[channels|]] st1] eqn:Hbr.
    + inversion Hrun; subst. by eapply Hprobe.
    + inversion Hrun; subst. by eapply Hprobe.
    + specialize (Hprobe _ _ eq_refl).
      destruct (searchChannelsViaAPI w c query (searchCacheKey query) st1)
        as [r1 st2] eqn:Hv.
      specialize (Hapi _ _ _ Hv).
      destruct r1; inversion Hrun; subst; lia.
  - rewrite (tryBridge_not_configured w c query _ _ Hcfg) in Hrun.
    destruct (searchChannelsViaAPI w c query (searchCacheKey query)
                (mkState (cache st) (trace st))) as [r1 st2] eqn:Hv.
    specialize (Hapi _ _ _ Hv). simpl in Hapi.
    destruct r1; inversion Hrun; subst; lia.
Qed.

(** C8 (as the code has it). When a query yields zero hits, from the
    bridge or from the provider's native search, [searchChannels] returns
    an empty result set and does not cache it: the video cache holds no
    entry under the query's key afterwards, and a repetition of the query
    on that cache makes at least one further outbound call. *)
Theorem empty_result_not_cached (w : World) (c : YouTubeAPIClient.t)
    (query : string) (st : State) (cache' : APICache.t) :
  JSString.isBlank query = false →
  APICache.getVideos (clock w (length (trace st))) (searchCacheKey query) (cache st)
    = (None, cache') →
  let key := searchCacheKey query in
  let limit := searchLimit c in
  (searchService c && useSearchService c = true →
   default false (bridgeHealth w (length (trace st))) = true →
   bridgeSearch w (S (length (trace st))) (JSString.trim query) limit = inr [] →
   searchChannels w c query st =
     (inr (Channels []),
      mkState cache' (trace st ++ [BridgeHealth; BridgeSearch (JSString.trim query) limit]))) ∧
  (searchService c && useSearchService c = false →
   searchEndpoint w (length (trace st)) (apiKey c) query limit = Responded (BodyItems []) →
   searchChannels w c query st =
     (inr (Channels []),
      mkState cache' (trace st ++ [ProviderCall (apiKey c) (ReqSearch query limit)]))) ∧
  (searchService c && useSearchService c = true →
   default false (bridgeHealth w (length (trace st))) = false →
   searchEndpoint w (S (length (trace st))) (apiKey c) query limit
     = Responded (BodyItems []) →
   searchChannels w c query st =
     (inr (Channels []),
      mkState cache'
        (trace st ++ [BridgeHealth; ProviderCall (apiKey c) (ReqSearch query limit)]))) ∧
  APICache.videoCache cache' !! key = None ∧
  (∀ calls r st2,
     searchChannels w c query (mkState cache' calls) = (r, st2) →
     (length calls < length (trace st2))%nat).
Proof.
  intros Hb Hmiss key limit.
  pose proof (searchChannels_miss w c query st cache' Hb Hmiss) as Hsearch.
  fold key in Hsearch.
  pose proof (getVideos_None_lookup _ _ _ _ Hmiss) as Hnone.
  assert (Hlen : length (trace st ++ [BridgeHealth]) = S (length (trace st)))
    by (rewrite length_app; simpl; lia).
  split; [| split; [| split; [| split]]].
  - intros Hcfg Hh Hhits. rewrite Hsearch.
    rewrite (tryBridge_healthy w c query key (mkState cache' (trace st)) Hcfg Hh).
    rewrite searchChannelsViaService_zero_hits; cbn [trace cache];
      [| done | by rewrite Hlen].
    by rewrite <- app_assoc.
  - intros Hcfg Hresp. rewrite Hsearch.
    rewrite (tryBridge_not_configured w c query key _ Hcfg).
    by rewrite searchChannelsViaAPI_zero_hits.
  - intros Hcfg Hh Hresp. rewrite Hsearch.
    rewrite (tryBridge_unhealthy w c query key (mkState cache' (trace st)) Hcfg Hh).
    rewrite searchChannelsViaAPI_zero_hits; cbn [trace cache]; [| by rewrite Hlen].
    by rewrite <- app_assoc.
  - done.
  - intros calls r st2 Hrun.
    by apply (searchChannels_miss_calls w c query (mkState cache' calls) r st2 Hb Hnone).
Qed.

Lemma empty_result_not_cached_witness :
  let key := searchCacheKey "zzz" in
  let again := searchChannels emptyWorld plainClient "zzz"
                 (mkState (cache emptyState) [BridgeHealth]) in
  (JSString.isBlank "zzz" = false ∧
   APICache.getVideos 0 key (cache emptyState) = (None, cache emptyState)) ∧
  ((searchService bridgedClient && useSearchService bridgedClient = true ∧
    default false (bridgeHealth emptyWorld (length (trace emptyState))) = true ∧
    bridgeSearch emptyWorld (S (length (trace emptyState))) (JSString.trim "zzz")
      (searchLimit bridgedClient) = inr []) ∧
   searchChannels emptyWorld bridgedClient "zzz" emptyState =
     (inr (Channels []),
      mkState (cache emptyState)
        (trace emptyState ++ [BridgeHealth;
                              BridgeSearch (JSString.trim "zzz") (searchLimit bridgedClient)]))) ∧
  ((searchService plainClient && useSearchService plainClient = false ∧
    searchEndpoint emptyWorld (length (trace emptyState)) (apiKey plainClient) "zzz"
      (searchLimit plainClient) = Responded (BodyItems [])) ∧
   searchChannels emptyWorld plainClient "zzz" emptyState =
     (inr (Channels []),
      mkState (cache emptyState)
        (trace emptyState ++ [ProviderCall (apiKey plainClient)
                                (ReqSearch "zzz" (searchLimit plainClient))]))) ∧
  ((searchService bridgedClient && useSearchService bridgedClient = true ∧
    default false (bridgeHealth emptyWorldBridgeDown (length (trace emptyState))) = false ∧
    searchEndpoint emptyWorldBridgeDown (S (length (trace emptyState)))
      (apiKey bridgedClient) "zzz" (searchLimit bridgedClient) = Responded (BodyItems [])) ∧
   searchChannels emptyWorldBridgeDown bridgedClient "zzz" emptyState =
     (inr (Channels []),
      mkState (cache emptyState)
        (trace emptyState ++ [BridgeHealth;
                              ProviderCall (apiKey bridgedClient)
                                (ReqSearch "zzz" (searchLimit bridgedClient))]))) ∧
  (again = (again.1, again.2) ∧ (length [BridgeHealth] < length (trace again.2))%nat).
Proof.
  intros key again.
  pose proof (empty_result_not_cached emptyWorld bridgedClient "zzz" emptyState
                (cache emptyState) eq_refl eq_refl) as (Hbridge & _).
  pose proof (empty_result_not_cached emptyWorldBridgeDown bridgedClient "zzz" emptyState
                (cache emptyState) eq_refl eq_refl) as (_ & _ & Hdown & _).
  pose proof (empty_result_not_cached emptyWorld plainClient "zzz" emptyState
                (cache emptyState) eq_refl eq_refl) as (_ & Hnative & _ & _ & Hagain).
  split; [split; reflexivity |]. split; [| split; [| split]].
  - split; [repeat split |]. apply Hbridge; reflexivity.
  - split; [repeat split |]. apply Hnative; reflexivity.
  - split; [repeat split |]. apply Hdown; reflexivity.
  - split; [reflexivity |]. apply (Hagain [BridgeHealth] again.1 again.2). reflexivity.
Defined.

(** C8 as stated fails: a query without hits is answered with an empty
    list that is not cached, and repeating it calls the provider again. *)
Lemma empty_result_refetched_counterexample :
  let first := searchChannels emptyWorld plainClient "zzz" emptyState in
  let second := searchChannels emptyWorld plainClient "zzz" first.2 in
  first.1 = inr (Channels []) ∧
  APICache.videoCache (cache first.2) !! searchCacheKey "zzz" = None ∧
  trace first.2 = [ProviderCall "K1" (ReqSearch "zzz" 25)] ∧
  trace second.2 = [ProviderCall "K1" (ReqSearch "zzz" 25);
                    ProviderCall "K1" (ReqSearch "zzz" 25)] ∧
  trace second.2 ≠ trace first.2.
Proof. vm_compute. repeat split. discriminate. Qed.

(** *** Quota signals *)

Lemma getChannelInfo_failed w c channelId st cache' error :
  JSString.isBlank channelId = false →
  APICache.getChannel (clock w (length (trace st))) channelId (cache st) = (None, cache') →
  channelsEndpoint w (length (trace st)) (apiKey c) channelId = Failed error →
  getChannelInfo w c channelId st =
    (inl (ThrownAPIError (handleError error)),
     mkState cache' (trace st ++ [ProviderCall (apiKey c) (ReqChannels channelId)])).
Proof.
  intros Hb Hmiss Hresp. unfold getChannelInfo. rewrite Hb.
  unfold bind at 1, cacheGetChannel. rewrite Hmiss.
  unfold handled, tryCatch, bind, requestChannels, requestOutcome. cbn [trace cache].
  by rewrite Hresp.
Qed.

Lemma getVideoDetails_failed w c videoIds st error :
  videoIds ≠ [] →
  videosEndpoint w (length (trace st)) (apiKey c) (String.concat "," (take 50 videoIds))
    = Failed error →
  getVideoDetails w c videoIds st =
    (inl (ThrownAPIError (handleError error)),
     mkState (cache st)
       (trace st ++ [ProviderCall (apiKey c)
                       (ReqVideos (String.concat "," (take 50 videoIds)))])).
Proof.
  intros Hne Hresp. unfold getVideoDetails.
  destruct videoIds as [|v videoIds]; [done |].
  cbn [length Nat.eqb batchesOf fetchBatches].
  unfold handled, tryCatch, bind, requestVideos, requestOutcome.
  by rewrite Hresp.
Qed.

Lemma handleError_quota message response :
  status response = 403 →
  JSString.includes
    (JSString.toLowerCase (default message (dataErrorMessage response))) "quota" = true →
  handleError (ThrownAxios message (Some response)) =
    APIError.mk 403 (default message (dataErrorMessage response))
      "YouTube API quota exceeded. The quota resets daily at midnight PST. Try again in a few hours or contact support for a premium API key."
      false.
Proof. intros Hs Hq. unfold handleError. rewrite Hs, Hq. done. Qed.


(** *** The time window of [getChannelVideos] *)

Lemma validateResponse_inv {T} (body : Body T) st items st' :
  validateResponse body st = (inr items, st') → body = BodyItems items ∧ st' = st.
Proof. destruct body; simpl; unfold throw, ret; intros [=]; subst; done. Qed.

Lemma requestOutcome_inv {T} (outcome : Outcome T) call st body st' :
  requestOutcome outcome call st = (inr body, st') →
  outcome = Responded body ∧ st' = mkState (cache st) (trace st ++ [call]).
Proof. unfold requestOutcome. destruct outcome; intros [=]; subst; done. Qed.

Lemma getChannelInfo_videoCache w c channelId st r st' :
  getChannelInfo w c channelId st = (r, st') →
  APICache.videoCache (cache st') = APICache.videoCache (cache st).
Proof.
  unfold getChannelInfo. destruct (JSString.isBlank channelId).
  { by intros [= <- <-]. }
  unfold bind at 1, cacheGetChannel, APICache.getChannel.
  destruct (APICache.channelCache (cache st) !! channelId) as [entry|].
  - destruct (expiresAt entry <=? clock w (length (trace st))); [| by intros [= <- <-]].
    unfold handled, tryCatch, bind, requestChannels, requestOutcome. cbn [trace cache].
    destruct (channelsEndpoint w _ _ _) as [[| | |[|item items]]|error];
      by intros [= <- <-].
  - unfold handled, tryCatch, bind, requestChannels, requestOutcome. cbn [trace cache].
    destruct (channelsEndpoint w _ _ _) as [[| | |[|item items]]|error];
      by intros [= <- <-].
Qed.

(** The bound on the iterations of the batching loop is never reached:
    the batches cover the whole list. *)
Lemma batchesOf_concat n : ∀ fuel l,
  (length l ≤ fuel)%nat → concat (batchesOf fuel (S n) l) = l.
Proof.
  induction fuel as [|fuel IH]; intros l Hlen.
  - destruct l; [done | simpl in Hlen; lia].
  - destruct l as [|y l]; [done |].
    cbn [batchesOf concat]. rewrite IH; [apply take_drop |].
    rewrite length_drop. simpl in *. lia.
Qed.

Lemma batchesOf_elem fuel n : ∀ l batch x,
  batch ∈ batchesOf fuel n l → x ∈ batch → x ∈ l.
Proof.
  induction fuel as [|fuel IH]; intros l batch x Hb Hx.
  - destruct l; simpl in Hb; by apply elem_of_nil in Hb.
  - destruct l as [|y l]; [by apply elem_of_nil in Hb |].
    cbn [batchesOf] in Hb. apply elem_of_cons in Hb as [-> | Hb].
    + by apply (subseteq_take n (y :: l)).
    + apply (subseteq_drop n (y :: l)). eapply IH; eauto.
Qed.

Lemma batchesOf_nonempty fuel n : ∀ l batch,
  batch ∈ batchesOf fuel (S n) l → batch ≠ [].
Proof.
  induction fuel as [|fuel IH]; intros l batch Hb.
  - destruct l; simpl in Hb; by apply elem_of_nil in Hb.
  - destruct l as [|y l]; [by apply elem_of_nil in Hb |].
    cbn [batchesOf] in Hb. apply elem_of_cons in Hb as [-> | Hb]; [done |].
    by apply (IH _ _ Hb).
Qed.

(** A request for ids without commas asks for exactly these ids. *)
Lemma requestedIds_single id : commaFree id = true → requestedIds id = [id].
Proof.
  induction id as [|a id IH]; [done |]. simpl.
  intros [Ha Hid]%andb_true_iff. apply negb_true_iff in Ha.
  by rewrite Ha, (IH Hid).
Qed.

Lemma requestedIds_cons id rest :
  commaFree id = true →
  requestedIds (id +:+ "," +:+ rest) = id :: requestedIds rest.
Proof.
  induction id as [|a id IH]; [done |]. simpl.
  intros [Ha Hid]%andb_true_iff. apply negb_true_iff in Ha.
  by rewrite Ha, (IH Hid).
Qed.

Lemma requestedIds_join batch :
  batch ≠ [] → Forall (fun id => commaFree id = true) batch →
  requestedIds (String.concat "," batch) = batch.
Proof.
  induction batch as [|id batch IH]; [done |]. intros _ [Hid Hbatch]%Forall_cons.
  destruct batch as [|id' batch]; [by apply requestedIds_single |].
  change (String.concat "," (id :: id' :: batch))
    with (id +:+ "," +:+ String.concat "," (id' :: batch)).
  rewrite (requestedIds_cons _ _ Hid). f_equal. by apply IH.
Qed.

Lemma fetchBatches_ids w c (Hw : answersOnlyRequested w) batches :
  Forall (fun batch => batch ≠ [] ∧ Forall (fun id => commaFree id = true) batch) batches →
  ∀ acc st videos st',
    fetchBatches w c batches acc st = (inr videos, st') →
    ∀ v, v ∈ videos → v ∈ acc ∨ ∃ batch, batch ∈ batches ∧ Video.id v ∈ batch.
Proof.
  induction batches as [|batch rest IH]; intros Hbatches acc st videos st' Hrun v Hv.
  - inversion Hrun; subst. by left.
  - apply Forall_cons in Hbatches as [[Hne Hfree] Hrest].
    cbn [fetchBatches] in Hrun.
    apply bind_inv in Hrun as [(e & _ & [=]) | (body & st1 & Hreq & Hrun)].
    apply bind_inv in Hrun as [(e & _ & [=]) | (items & st2 & Hval & Hrun)].
    apply validateResponse_inv in Hval as [-> ->].
    apply requestOutcome_inv in Hreq as [Hresp _].
    destruct (IH Hrest _ _ _ _ Hrun v Hv) as [Hacc | (b & Hb & Hid)].
    + apply elem_of_app in Hacc as [Hacc | Hnew]; [by left |].
      right. exists batch. split; [left |].
      apply list_elem_of_fmap in Hnew as (item & -> & Hitem).
      pose proof (Hw _ _ _ _ Hresp item Hitem) as Hin.
      by rewrite (requestedIds_join batch Hne Hfree) in Hin.
    + right. exists b. split; [by right | done].
Qed.

Lemma getVideoDetails_ids w c (Hw : answersOnlyRequested w) videoIds st videos st' :
  Forall (fun id => commaFree id = true) videoIds →
  getVideoDetails w c videoIds st = (inr videos, st') →
  ∀ v, v ∈ videos → Video.id v ∈ videoIds.
Proof.
  intros Hfree. unfold getVideoDetails. destruct (length videoIds =? 0)%nat.
  { intros [= <- <-] v Hv. by apply elem_of_nil in Hv. }
  intros [(vs & [= <-] & Hrun) | (e & [=] & _)]%handled_inv v Hv.
  assert (Hbatches : Forall (fun batch => batch ≠ [] ∧
                               Forall (fun id => commaFree id = true) batch)
                       (batchesOf (length videoIds) 50 videoIds)).
  { apply Forall_forall. intros batch Hb. split; [by eapply batchesOf_nonempty |].
    apply Forall_forall. intros id Hid.
    apply (proj1 (Forall_forall _ _) Hfree). eapply batchesOf_elem; eauto. }
  destruct (fetchBatches_ids w c Hw _ Hbatches _ _ _ _ Hrun v Hv) as [Hnil | (b & Hb & Hid)].
  - by apply elem_of_nil in Hnil.
  - eapply batchesOf_elem; eauto.
Qed.

Lemma getChannelVideos_hit w c channelId maxResultsArg st cached cache' :
  JSString.isBlank channelId = false →
  APICache.getVideos (clock w (length (trace st)))
    (videosCacheKey channelId (default (maxResults c) maxResultsArg)) (cache st)
    = (Some cached, cache') →
  getChannelVideos w c channelId maxResultsArg st = (inr cached, mkState cache' (trace st)).
Proof.
  intros Hb Hhit. unfold getChannelVideos. rewrite Hb.
  unfold bind, cacheGetVideos. by rewrite Hhit.
Qed.

Lemma getChannelVideos_miss (w : World) (c : YouTubeAPIClient.t)
    (channelId : string) (maxResultsArg : option Z) (st : State)
    (cache' : APICache.t) (r : VideoCacheData) (st' : State) :
  let limit := default (maxResults c) maxResultsArg in
  let key := videosCacheKey channelId limit in
  JSString.isBlank channelId = false →
  APICache.getVideos (clock w (length (trace st))) key (cache st) = (None, cache') →
  getChannelVideos w c channelId maxResultsArg st = (inr r, st') →
  ∃ channel st1 items,
    getChannelInfo w c channelId (mkState cache' (trace st)) = (inr channel, st1) ∧
    playlistItemsEndpoint w (length (trace st1)) (apiKey c)
      (Channel.uploadsPlaylistId channel) limit = Responded (BodyItems items) ∧
    let publishedAfter :=
      subDays w (clock w (length (trace st1))) (videoTimeWindowDays c) in
    let kept := List.filter (publishedSince w publishedAfter) items in
    let st2 :=
      mkState (cache st1)
        (trace st1 ++ [ProviderCall (apiKey c)
                         (ReqPlaylistItems (Channel.uploadsPlaylistId channel) limit)]) in
    (∀ item, item ∈ kept ↔
             item ∈ items ∧
             ∃ t, parseDate w (YouTubePlaylistItem.publishedAt item) = Some t ∧
                  publishedAfter <= t) ∧
    (kept = [] →
       r = Videos [] ∧ st' = st2 ∧ APICache.videoCache (cache st') !! key = None) ∧
    (kept ≠ [] →
       ∃ videos st3,
         getVideoDetails w c (YouTubePlaylistItem.videoId <$> kept) st2
           = (inr videos, st3) ∧
         r = Videos videos ∧
         st' = mkState (APICache.setVideos (clock w (length (trace st3))) key
                          (Videos videos) None (cache st3)) (trace st3) ∧
         (answersOnlyRequested w →
          Forall (fun item => commaFree (YouTubePlaylistItem.videoId item) = true) kept →
          ∀ v, v ∈ videos →
            ∃ item, item ∈ kept ∧ YouTubePlaylistItem.videoId item = Video.id v)).
Proof.
  intros limit key Hb Hmiss Hrun.
  unfold getChannelVideos in Hrun. rewrite Hb in Hrun.
  fold limit in Hrun. fold key in Hrun.
  unfold bind at 1, cacheGetVideos in Hrun. rewrite Hmiss in Hrun.
  apply handled_inv in Hrun as [(a & [= <-] & Hrun) | (e & [=] & _)].
  apply bind_inv in Hrun as [(e & _ & [=]) | (channel & st1 & Hinfo & Hrun)].
  apply bind_inv in Hrun as [(e & _ & [=]) | (today & st1' & Hnow & Hrun)].
  inversion Hnow; subst today st1'. clear Hnow.
  apply bind_inv in Hrun as [(e & _ & [=]) | (body & st2 & Hreq & Hrun)].
  apply bind_inv in Hrun as [(e & _ & [=]) | (items & st2' & Hval & Hrun)].
  apply validateResponse_inv in Hval as [-> ->].
  apply requestOutcome_inv in Hreq as [Hresp ->].
  exists channel, st1, items. split; [done |]. split; [done |].
  cbv zeta. split; [| split].
  - intros item. rewrite list_elem_of_In, filter_In, <- list_elem_of_In.
    unfold publishedSince.
    destruct (parseDate w (YouTubePlaylistItem.publishedAt item)) as [t|].
    + rewrite Z.leb_le. split.
      * intros [Hin Hle]. split; [done |]. eauto.
      * intros [Hin (t' & [= <-] & Hle)]. done.
    + split; [by intros [_ ?] | by intros [_ (t' & ? & _)]].
  - intros Hkept. rewrite Hkept in Hrun. cbn [fmap list_fmap length Nat.eqb] in Hrun.
    inversion Hrun; subst. split; [done |]. split; [done |]. cbn [cache].
    rewrite (getChannelInfo_videoCache _ _ _ _ _ _ Hinfo). cbn [cache].
    by apply (getVideos_None_lookup _ _ _ _ Hmiss).
  - intros Hkept.
    destruct (List.filter _ items) as [|item0 kept'] eqn:Hf; [done |].
    cbn [fmap list_fmap length Nat.eqb] in Hrun.
    apply bind_inv in Hrun as [(e & _ & [=]) | (videos & st3 & Hdet & Hrun)].
    apply bind_inv in Hrun as [(e & _ & [=]) | ([] & st4 & Hset & Hrun)].
    inversion Hrun; subst. inversion Hset; subst.
    exists videos, st3. split; [done |]. split; [done |]. split; [done |].
    intros Hw Hfree v Hv.
    assert (Hids : Forall (fun id => commaFree id = true)
                     (YouTubePlaylistItem.videoId <$> item0 :: kept'))
      by (by apply Forall_fmap).
    pose proof (getVideoDetails_ids w c Hw _ _ _ _ Hids Hdet v Hv) as Hid.
    apply list_elem_of_fmap in Hid as (item & Heq & Hin). eauto.
Qed.

Lemma honestWorld_answers t : answersOnlyRequested (honestWorld t).
Proof.
  intros n key ids items [= <-] item (id & -> & Hid)%list_elem_of_fmap. done.
Qed.

(** C10 (as the code has it). A [getChannelVideos] call that finds a
    live entry under its key returns the stored list as it is and calls
    nobody. A call that is not served from the cache and succeeds has
    looked the channel up, read one page of its uploads playlist and kept
    exactly the entries whose [publishedAt] parses to a time at or after
    the start of the window ([videoTimeWindowDays] before the moment the
    lookup returned), however few they are. The detail fetch is made for
    the kept entries only; if the provider answers a detail request only
    with videos that were asked for, and the ids of the kept entries
    contain no comma, every returned video is the detail record of a
    kept entry. The date a returned video carries is the one of its
    detail record, which is not compared with the window. If no entry is
    kept the method returns an empty list and the video cache still has
    no entry under the call's key; otherwise the videos are cached under
    that key. *)
Theorem getChannelVideos_window (w : World) (c : YouTubeAPIClient.t)
    (channelId : string) (maxResultsArg : option Z) (st : State) :
  let limit := default (maxResults c) maxResultsArg in
  let key := videosCacheKey channelId limit in
  JSString.isBlank channelId = false →
  (∀ cached cache',
     APICache.getVideos (clock w (length (trace st))) key (cache st)
       = (Some cached, cache') →
     getChannelVideos w c channelId maxResultsArg st
       = (inr cached, mkState cache' (trace st))) ∧
  (∀ cache' r st',
     APICache.getVideos (clock w (length (trace st))) key (cache st) = (None, cache') →
     getChannelVideos w c channelId maxResultsArg st = (inr r, st') →
     ∃ channel st1 items,
       getChannelInfo w c channelId (mkState cache' (trace st)) = (inr channel, st1) ∧
       playlistItemsEndpoint w (length (trace st1)) (apiKey c)
         (Channel.uploadsPlaylistId channel) limit = Responded (BodyItems items) ∧
       let publishedAfter :=
         subDays w (clock w (length (trace st1))) (videoTimeWindowDays c) in
       let kept := List.filter (publishedSince w publishedAfter) items in
       let st2 :=
         mkState (cache st1)
           (trace st1 ++ [ProviderCall (apiKey c)
                            (ReqPlaylistItems (Channel.uploadsPlaylistId channel) limit)]) in
       (∀ item, item ∈ kept ↔
                item ∈ items ∧
                ∃ t, parseDate w (YouTubePlaylistItem.publishedAt item) = Some t ∧
                     publishedAfter <= t) ∧
       (kept = [] →
          r = Videos [] ∧ st' = st2 ∧ APICache.videoCache (cache st') !! key = None) ∧
       (kept ≠ [] →
          ∃ videos st3,
            getVideoDetails w c (YouTubePlaylistItem.videoId <$> kept) st2
              = (inr videos, st3) ∧
            r = Videos videos ∧
            st' = mkState (APICache.setVideos (clock w (length (trace st3))) key
                             (Videos videos) None (cache st3)) (trace st3) ∧
            (answersOnlyRequested w →
             Forall (fun item => commaFree (YouTubePlaylistItem.videoId item) = true) kept →
             ∀ v, v ∈ videos →
               ∃ item, item ∈ kept ∧ YouTubePlaylistItem.videoId item = Video.id v))).
Proof.
  intros limit key Hb. split.
  - intros cached cache' Hhit. by apply getChannelVideos_hit.
  - intros cache' r st' Hmiss Hrun.
    by apply (getChannelVideos_miss w c channelId maxResultsArg st cache' r st').
Qed.

Lemma getChannelVideos_window_witness :
  let w := honestWorld (30 * day) in
  let later := honestWorld (30 * day + 60 * 60 * 1000) in
  let key := videosCacheKey "UC1" (default (maxResults plainClient) None) in
  let run := getChannelVideos w plainClient "UC1" None emptyState in
  let entry := YouTubePlaylistItem.mk "p1" epochDate "v1" in
  let video := mapVideoItem w (sampleVideoItem "v1" "UC1" epochDate) in
  let hit := APICache.getVideos (clock later (length (trace run.2))) key (cache run.2) in
  (JSString.isBlank "UC1" = false ∧
   APICache.getVideos (clock w (length (trace emptyState))) key (cache emptyState)
     = (None, cache emptyState) ∧
   run = (inr (Videos [video]), run.2) ∧
   hit = (Some (Videos [video]), hit.2) ∧
   [entry] ≠ [] ∧
   answersOnlyRequested w ∧
   Forall (fun item => commaFree (YouTubePlaylistItem.videoId item) = true) [entry]) ∧
  (∃ videos,
     Videos [video] = Videos videos ∧
     ∀ v, v ∈ videos →
       ∃ item, item ∈ [entry] ∧ YouTubePlaylistItem.videoId item = Video.id v) ∧
  getChannelVideos later plainClient "UC1" None run.2
    = (inr (Videos [video]), mkState hit.2 (trace run.2)).
Proof.
  intros w later key run entry video hit.
  assert (Hb : JSString.isBlank "UC1" = false) by reflexivity.
  assert (Hmiss : APICache.getVideos (clock w (length (trace emptyState))) key
                    (cache emptyState) = (None, cache emptyState)) by reflexivity.
  assert (Hrun : run = (inr (Videos [video]), run.2)) by reflexivity.
  assert (Hhit : hit = (Some (Videos [video]), hit.2)) by reflexivity.
  assert (Hne : [entry] ≠ []) by discriminate.
  assert (Hw : answersOnlyRequested w) by apply honestWorld_answers.
  assert (Hfree : Forall (fun item => commaFree (YouTubePlaylistItem.videoId item) = true)
                    [entry]) by (by constructor).
  split; [by repeat split |]. split.
  - destruct (proj2 (getChannelVideos_window w plainClient "UC1" None emptyState Hb)
                (cache emptyState) (Videos [video]) run.2 Hmiss Hrun)
      as (channel & st1 & items & Hinfo & Hresp & _ & _ & Hkept).
    assert (Hitems : items = [entry]) by (by injection Hresp as <-).
    rewrite Hitems in Hkept.
    destruct (Hkept Hne) as (videos & st3 & _ & Hr & _ & Hids).
    exists videos. split; [exact Hr |]. exact (Hids Hw Hfree).
  - exact (proj1 (getChannelVideos_window later plainClient "UC1" None run.2 Hb)
             (Videos [video]) hit.2 Hhit).
Defined.

(** C10 as stated fails, in two ways. On a miss: the playlist entry of
    video v1 is dated on day 55, inside the window of a call made on day
    60, so the entry is kept; the detail record of v1 is dated at the
    epoch, and the call returns the video with that date, thirty days
    before the start of its window. On a cache hit: the first call,
    thirty days after the epoch, keeps and caches the upload of the
    epoch, which lies on the edge of its window; an hour later the second
    call is served from the cache, without any outbound call, and returns
    that video although it was published before the start of the second
    call's window. *)
Lemma returned_video_outside_window_counterexample :
  (let w := redatedWorld (60 * day) in
   let run := getChannelVideos w plainClient "UC1" None emptyState in
   ∃ v, run.1 = inr (Videos [v]) ∧
        trace run.2 = [ProviderCall "K1" (ReqChannels "UC1");
                       ProviderCall "K1" (ReqPlaylistItems "UUUC1" 50);
                       ProviderCall "K1" (ReqVideos "v1")] ∧
        Video.publishedAt v = Some 0 ∧
        subDays w (clock w 1) (videoTimeWindowDays plainClient) = 30 * day ∧
        0 < 30 * day) ∧
  (let later := 30 * day + 60 * 60 * 1000 in
   let first := getChannelVideos (agedWorld (30 * day)) plainClient "UC1" None emptyState in
   let second := getChannelVideos (agedWorld later) plainClient "UC1" None first.2 in
   ∃ v, second.1 = inr (Videos [v]) ∧
        trace second.2 = trace first.2 ∧
        Video.publishedAt v = Some 0 ∧
        subDays (agedWorld later) (clock (agedWorld later) (length (trace first.2)))
          (videoTimeWindowDays plainClient) = 60 * 60 * 1000 ∧
        0 < 60 * 60 * 1000).
Proof. split; vm_compute; eexists; repeat split. Qed.

End ClientProps.

(** ** Ranking of the bridge path *)

Module RankingProps.
Import YouTubeAPIClient ClientSpec ClientProps.

Section Sorting.
Variable rel : gmap string Q.

Lemma insertByConfidence_step a b rest :
  insertByConfidence rel a (b :: rest) =
    if Qlt_le_dec 0 (relevance rel b - relevance rel a)
    then b :: insertByConfidence rel a rest
    else a :: b :: rest.
Proof. reflexivity. Qed.

Lemma insertByConfidence_perm a l :
  Permutation (insertByConfidence rel a l) (a :: l).
Proof.
  induction l as [|b rest IH]; [done |].
  rewrite insertByConfidence_step.
  destruct (Qlt_le_dec 0 (relevance rel b - relevance rel a)); [| done].
  rewrite IH. apply perm_swap.
Qed.

Lemma sortByConfidence_perm l : Permutation (sortByConfidence rel l) l.
Proof.
  induction l as [|a l IH]; [done |].
  cbn [sortByConfidence foldr]. fold (sortByConfidence rel l).
  rewrite insertByConfidence_perm. by constructor.
Qed.

Lemma insertByConfidence_sorted a l :
  StronglySorted (descending rel) l → StronglySorted (descending rel) (insertByConfidence rel a l).
Proof.
  induction l as [|b rest IH]; intros Hs.
  - repeat constructor.
  - rewrite insertByConfidence_step.
    apply StronglySorted_inv in Hs as [Hrest Hb].
    destruct (Qlt_le_dec 0 (relevance rel b - relevance rel a)) as [Hlt|Hle].
    + constructor; [by apply IH |].
      eapply Permutation_Forall; [symmetry; apply insertByConfidence_perm |].
      constructor; [| done]. unfold descending. lra.
    + constructor; [by constructor |].
      constructor; [unfold descending; lra |].
      eapply Forall_impl; [exact Hb |]. unfold descending. intros x Hx. lra.
Qed.

Lemma sortByConfidence_sorted l : StronglySorted (descending rel) (sortByConfidence rel l).
Proof.
  induction l as [|a l IH]; [constructor |].
  cbn [sortByConfidence foldr]. by apply insertByConfidence_sorted.
Qed.

Lemma insertByConfidence_tied q a l :
  List.filter (tied rel q) (insertByConfidence rel a l) = List.filter (tied rel q) (a :: l).
Proof.
  induction l as [|b rest IH]; [done |].
  rewrite insertByConfidence_step.
  destruct (Qlt_le_dec 0 (relevance rel b - relevance rel a)) as [Hlt|Hle]; [| done].
  cbn [List.filter] in *. rewrite IH.
  destruct (tied rel q b) eqn:Hb, (tied rel q a) eqn:Ha; try done.
  unfold tied in *. apply Qeq_bool_iff in Ha, Hb. lra.
Qed.

Lemma sortByConfidence_stable q l :
  List.filter (tied rel q) (sortByConfidence rel l) = List.filter (tied rel q) l.
Proof.
  induction l as [|a l IH]; [done |].
  cbn [sortByConfidence foldr]. fold (sortByConfidence rel l).
  rewrite insertByConfidence_tied. cbn [List.filter]. by rewrite IH.
Qed.
End Sorting.

(** *** The relevance map *)

Lemma qmax_cases a b : (qmax a b = a ∨ qmax a b = b) ∧ (a <= qmax a b)%Q ∧ (b <= qmax a b)%Q.
Proof.
  unfold qmax. destruct (Qle_bool a b) eqn:Hle.
  - apply Qle_bool_iff in Hle. split; [by right |]. split; [done | apply Qle_refl].
  - split; [by left |]. split; [apply Qle_refl |].
    destruct (Qlt_le_dec a b) as [Hlt|Hge]; [| done].
    apply Qlt_le_weak, Qle_bool_iff in Hlt. congruence.
Qed.

Lemma foldl_qmax_spec (l : list Q) : ∀ acc,
  (acc <= foldl qmax acc l)%Q ∧
  (∀ q, q ∈ l → (q <= foldl qmax acc l)%Q) ∧
  (foldl qmax acc l = acc ∨ foldl qmax acc l ∈ l).
Proof.
  induction l as [|x l IH]; intros acc; simpl.
  - split; [apply Qle_refl |]. split; [by intros q ?%elem_of_nil | by left].
  - destruct (IH (qmax acc x)) as (Hacc & Hall & Hwhich).
    destruct (qmax_cases acc x) as (Hcase & Hle1 & Hle2).
    split; [eapply Qle_trans; eauto |]. split.
    + intros q [->|Hq]%elem_of_cons; [eapply Qle_trans; eauto | by apply Hall].
    + destruct Hwhich as [Heq | Hin]; [| right; by right].
      rewrite Heq. destruct Hcase as [-> | ->]; [by left | right; left].
Qed.

Lemma relevanceStep_lookup hits rel video channelId :
  orZero (relevanceStep hits rel video !! channelId) =
    match (if bool_decide (Video.channelId video = channelId)
           then firstHitConfidence hits (Video.id video) else None) with
    | Some q => qmax (orZero (rel !! channelId)) q
    | None => orZero (rel !! channelId)
    end.
Proof.
  unfold relevanceStep, firstHitConfidence.
  destruct (List.find _ hits) as [sr|]; simpl.
  - case_bool_decide as Hc.
    + subst channelId. by rewrite lookup_insert_eq.
    + by rewrite lookup_insert_ne.
  - by case_bool_decide.
Qed.

Lemma channelRelevanceMap_fold hits videos channelId : ∀ rel,
  orZero (foldl (relevanceStep hits) rel videos !! channelId) =
    foldl qmax (orZero (rel !! channelId)) (firstHitConfidences hits videos channelId).
Proof.
  unfold firstHitConfidences.
  induction videos as [|video videos IH]; intros rel; [done |].
  cbn [foldl omap list_omap]. rewrite IH, relevanceStep_lookup.
  by destruct (if bool_decide _ then _ else _).
Qed.

Lemma relevance_spec hits videos channel :
  relevance (channelRelevanceMap hits videos) channel =
    foldl qmax 0%Q (firstHitConfidences hits videos (Channel.id channel)).
Proof.
  unfold relevance, channelRelevanceMap. rewrite channelRelevanceMap_fold.
  by rewrite lookup_empty.
Qed.

(** *** What the bridge path returns *)

Lemma searchChannelsViaService_result w c query key st result st' :
  searchChannelsViaService w c query key st = (inr result, st') →
  ∃ hits st1,
    serviceSearchChannels w query (searchLimit c) st = (inr hits, st1) ∧
    (hits = [] → result = []) ∧
    (hits ≠ [] →
     ∃ videos st2,
       getVideoDetails w c (extractVideoIds hits) st1 = (inr videos, st2) ∧
       let channelIds := JSString.distinct (Video.channelId <$> videos) in
       (channelIds = [] → result = []) ∧
       (channelIds ≠ [] →
        ∃ channels st3,
          getChannelsByIds w c channelIds st2 = (inr channels, st3) ∧
          result = sortByConfidence (channelRelevanceMap hits videos) channels)).
Proof.
  unfold searchChannelsViaService.
  intros [(a & [= <-] & Hrun) | (e & [=] & _)]%handled_inv.
  apply bind_inv in Hrun as [(e & _ & [=]) | (hits & st1 & Hhits & Hrun)].
  exists hits, st1. split; [done |].
  destruct hits as [|h hits].
  { split; [| done]. intros _. by inversion Hrun. }
  split; [done |]. intros _. cbn [length Nat.eqb] in Hrun.
  apply bind_inv in Hrun as [(e & _ & [=]) | (videos & st2 & Hvid & Hrun)].
  exists videos, st2. split; [done |]. cbv zeta.
  destruct (JSString.distinct (Video.channelId <$> videos)) as [|cid cids].
  { split; [| done]. intros _. by inversion Hrun. }
  split; [done |]. intros _. cbn [length Nat.eqb] in Hrun.
  apply bind_inv in Hrun as [(e & _ & [=]) | (channels & st3 & Hch & Hrun)].
  apply bind_inv in Hrun as [(e & _ & [=]) | ([] & st4 & _ & Hrun)].
  exists channels, st3. split; [done |]. by inversion Hrun.
Qed.

Lemma run_deterministic {A} (m : YouTubeAPIClient.M A) st r1 st1 r2 st2 :
  m st = (r1, st1) → m st = (r2, st2) → r1 = r2 ∧ st1 = st2.
Proof. intros H1 H2. rewrite H1 in H2. by injection H2. Qed.




End RankingProps.

(** ** Further properties of the cache *)

Module CacheLaws.
Import APICache CacheSpec.

Lemma setVideos_lookup now key v d c :
  videoCache (setVideos now key v d c) !! key
    = Some (mkCacheEntry v now (now + ttlOf d c)).
Proof. unfold setVideos, ttlOf. simpl. by rewrite lookup_insert_eq. Qed.

Lemma setChannel_lookup now key ch d c :
  channelCache (setChannel now key ch d c) !! key
    = Some (mkCacheEntry ch now (now + ttlOf d c)).
Proof. unfold setChannel, ttlOf. simpl. by rewrite lookup_insert_eq. Qed.

Lemma size_insert_present {V} (key : string) (v : V) (m : gmap string V) :
  is_Some (m !! key) → size (<[key := v]> m) = size m.
Proof.
  intros Hk. rewrite <- (insert_delete_eq m key v).
  rewrite map_size_insert, lookup_delete_eq.
  by apply CacheProps.size_after_eviction.
Qed.

(** X1. Storing under a key that already has an entry replaces the entry
    whole: a read before the new entry's expiry returns the value stored
    last, whether or not the replaced entry had expired by then, and the
    cache does not grow. *)
Theorem set_overwrites_and_restarts_ttl (c : APICache.t) (key : string)
    (v1 v2 : VideoCacheData) (ch1 ch2 : Channel.t) (d1 d2 : option Z)
    (t1 t2 now : Z) :
  now < t2 + ttlOf d2 c →
  let cv := setVideos t2 key v2 d2 (setVideos t1 key v1 d1 c) in
  let cc := setChannel t2 key ch2 d2 (setChannel t1 key ch1 d1 c) in
  getVideos now key cv = (Some v2, cv) ∧
  getVideoCacheSize cv = getVideoCacheSize (setVideos t1 key v1 d1 c) ∧
  getChannel now key cc = (Some ch2, cc) ∧
  getChannelCacheSize cc = getChannelCacheSize (setChannel t1 key ch1 d1 c).
Proof.
  intros Hnow cv cc. repeat split.
  - apply (CacheProps.getVideos_fresh now key (mkCacheEntry v2 t2 (t2 + ttlOf d2 c))); [| done].
    apply (setVideos_lookup t2 key v2 d2 (setVideos t1 key v1 d1 c)).
  - unfold getVideoCacheSize, cv. cbn [setVideos videoCache].
    apply size_insert_present. rewrite lookup_insert_eq. eauto.
  - apply (CacheProps.getChannel_fresh now key (mkCacheEntry ch2 t2 (t2 + ttlOf d2 c))); [| done].
    apply (setChannel_lookup t2 key ch2 d2 (setChannel t1 key ch1 d1 c)).
  - unfold getChannelCacheSize, cc. cbn [setChannel channelCache].
    apply size_insert_present. rewrite lookup_insert_eq. eauto.
Qed.

Lemma set_overwrites_and_restarts_ttl_witness :
  let c := APICache.new (Some 1000) in
  let cv := setVideos 5000 "k" (Videos []) None (setVideos 0 "k" (Channels []) None c) in
  5500 < 5000 + ttlOf None c ∧
  getVideos 5500 "k" cv = (Some (Videos []), cv) ∧
  getVideoCacheSize cv = getVideoCacheSize (setVideos 0 "k" (Channels []) None c).
Proof.
  intros c cv.
  assert (Hnow : 5500 < 5000 + ttlOf None c) by reflexivity.
  split; [exact Hnow |].
  destruct (set_overwrites_and_restarts_ttl c "k" (Channels []) (Videos [])
              (Channel.mk "" "" "" None "") (Channel.mk "" "" "" None "")
              None None 0 5000 5500 Hnow) as (H1 & H2 & _).
  split; [exact H1 | exact H2].
Defined.

(** X2. Invalidation removes the entry of its key whether or not it has
    expired: the next read of the key is a miss that leaves the cache as
    it is, the size drops by one if there was an entry, every other key
    keeps its entry, and the other map is not touched. *)
Theorem invalidate_removes_entry (c : APICache.t) (key : string) (now : Z) :
  (getVideos now key (invalidateVideos key c) = (None, invalidateVideos key c) ∧
   getChannel now key (invalidateChannel key c) = (None, invalidateChannel key c)) ∧
  (is_Some (videoCache c !! key) →
   S (getVideoCacheSize (invalidateVideos key c)) = getVideoCacheSize c) ∧
  (is_Some (channelCache c !! key) →
   S (getChannelCacheSize (invalidateChannel key c)) = getChannelCacheSize c) ∧
  (∀ key', key' ≠ key →
     videoCache (invalidateVideos key c) !! key' = videoCache c !! key' ∧
     channelCache (invalidateChannel key c) !! key' = channelCache c !! key') ∧
  channelCache (invalidateVideos key c) = channelCache c ∧
  videoCache (invalidateChannel key c) = videoCache c.
Proof.
  split; [split |].
  - unfold getVideos, invalidateVideos. simpl. by rewrite lookup_delete_eq.
  - unfold getChannel, invalidateChannel. simpl. by rewrite lookup_delete_eq.
  - split; [apply CacheProps.size_after_eviction |].
    split; [apply CacheProps.size_after_eviction |].
    split; [| done].
    intros key' Hne. simpl. by rewrite !lookup_delete_ne.
Qed.

Lemma invalidate_removes_entry_witness :
  let c := setVideos 0 "a" (Videos []) None
             (setVideos 0 "b" (Videos []) None (APICache.new None)) in
  is_Some (videoCache c !! "a") ∧ "b" ≠ "a" ∧
  getVideos 1 "a" (invalidateVideos "a" c) = (None, invalidateVideos "a" c) ∧
  S (getVideoCacheSize (invalidateVideos "a" c)) = getVideoCacheSize c ∧
  videoCache (invalidateVideos "a" c) !! "b" = videoCache c !! "b".
Proof.
  intros c.
  assert (Ha : is_Some (videoCache c !! "a")) by (vm_compute; eauto).
  assert (Hne : ("b" : string) ≠ "a") by discriminate.
  split; [exact Ha |]. split; [exact Hne |].
  destruct (invalidate_removes_entry c "a" 1) as ((Hget & _) & Hsize & _ & Hother & _).
  split; [exact Hget |]. split; [exact (Hsize Ha) |].
  exact (proj1 (Hother "b" Hne)).
Defined.

(** X3. Expiry is final and hits are stable towards the past: once a
    read has missed, every later read of the key on the cache it left is
    a miss as well, whatever the time, until the key is stored again; and
    if a read at time [now] is a hit, a read at any time up to [now]
    returns the same value and leaves the cache unchanged. *)
Theorem miss_is_final (c : APICache.t) (key : string) (now now' : Z) :
  ((getVideos now key c).1 = None →
   getVideos now' key (getVideos now key c).2 = (None, (getVideos now key c).2)) ∧
  ((getChannel now key c).1 = None →
   getChannel now' key (getChannel now key c).2 = (None, (getChannel now key c).2)) ∧
  (∀ v, (getVideos now key c).1 = Some v → now' <= now →
        getVideos now' key c = (Some v, c)) ∧
  (∀ ch, (getChannel now key c).1 = Some ch → now' <= now →
         getChannel now' key c = (Some ch, c)).
Proof.
  repeat split.
  - unfold getVideos at 1 3 4. destruct (videoCache c !! key) as [entry|] eqn:Hk.
    + destruct (expiresAt entry <=? now); [| done]. intros _.
      unfold getVideos. simpl. by rewrite lookup_delete_eq.
    + intros _. simpl. unfold getVideos. by rewrite Hk.
  - unfold getChannel at 1 3 4. destruct (channelCache c !! key) as [entry|] eqn:Hk.
    + destruct (expiresAt entry <=? now); [| done]. intros _.
      unfold getChannel. simpl. by rewrite lookup_delete_eq.
    + intros _. simpl. unfold getChannel. by rewrite Hk.
  - intros v. unfold getVideos. destruct (videoCache c !! key) as [entry|]; [| done].
    destruct (Z.leb_spec (expiresAt entry) now); [done |]. intros [= <-] Hle.
    destruct (Z.leb_spec (expiresAt entry) now'); [lia | done].
  - intros ch. unfold getChannel. destruct (channelCache c !! key) as [entry|]; [| done].
    destruct (Z.leb_spec (expiresAt entry) now); [done |]. intros [= <-] Hle.
    destruct (Z.leb_spec (expiresAt entry) now'); [lia | done].
Qed.

Lemma miss_is_final_witness :
  let c := setVideos 0 "a" (Videos []) (Some 10) (APICache.new None) in
  ((getVideos 10 "a" c).1 = None ∧ (getVideos 5 "a" c).1 = Some (Videos []) ∧ 3 <= 5) ∧
  getVideos 0 "a" (getVideos 10 "a" c).2 = (None, (getVideos 10 "a" c).2) ∧
  getVideos 3 "a" c = (Some (Videos []), c).
Proof.
  intros c.
  assert (Hmiss : (getVideos 10 "a" c).1 = None) by reflexivity.
  assert (Hhit : (getVideos 5 "a" c).1 = Some (Videos [])) by reflexivity.
  assert (Hle : 3 <= 5) by discriminate.
  split; [by repeat split |].
  split.
  - exact (proj1 (miss_is_final c "a" 10 0) Hmiss).
  - exact (proj1 (proj2 (proj2 (miss_is_final c "a" 5 3))) (Videos []) Hhit Hle).
Defined.

Lemma applyOp_duration c o : defaultCacheDuration (applyOp c o) = defaultCacheDuration c.
Proof.
  destruct o; simpl; try done.
  - unfold getChannel. destruct (channelCache c !! key) as [entry|]; [| done].
    by destruct (expiresAt entry <=? now).
  - unfold getVideos. destruct (videoCache c !! key) as [entry|]; [| done].
    by destruct (expiresAt entry <=? now).
Qed.

Lemma applyOp_videos c o key :
  concernsVideos key o = false →
  videoCache (applyOp c o) !! key = videoCache c !! key.
Proof.
  destruct o; simpl; try done.
  - intros _. unfold getChannel. destruct (channelCache c !! key0) as [entry|]; [| done].
    by destruct (expiresAt entry <=? now).
  - intros Hne%bool_decide_eq_false. by rewrite lookup_insert_ne.
  - intros Hne%bool_decide_eq_false. unfold getVideos.
    destruct (videoCache c !! key0) as [entry|]; [| done].
    destruct (expiresAt entry <=? now); [| done]. simpl. by rewrite lookup_delete_ne.
  - intros Hne%bool_decide_eq_false. by rewrite lookup_delete_ne.
Qed.

Lemma applyOp_channels c o key :
  concernsChannel key o = false →
  channelCache (applyOp c o) !! key = channelCache c !! key.
Proof.
  destruct o; simpl; try done.
  - intros Hne%bool_decide_eq_false. by rewrite lookup_insert_ne.
  - intros Hne%bool_decide_eq_false. unfold getChannel.
    destruct (channelCache c !! key0) as [entry|]; [| done].
    destruct (expiresAt entry <=? now); [| done]. simpl. by rewrite lookup_delete_ne.
  - intros Hne%bool_decide_eq_false. by rewrite lookup_delete_ne.
  - intros _. unfold getVideos. destruct (videoCache c !! key0) as [entry|]; [| done].
    by destruct (expiresAt entry <=? now).
Qed.

(** X4. The entries are independent of each other, and so are the two
    maps: a sequence of cache calls none of which names a key of the
    video cache (or clears that cache) leaves the outcome of reading that
    key as it was, at every time; likewise for the channel cache. The
    same key string may be used in both maps without interference, and no
    call changes the default duration. *)
Theorem cache_entries_independent (c : APICache.t) (os : list op) (key : string)
    (now : Z) :
  (Forall (fun o => concernsVideos key o = false) os →
   (getVideos now key (applyOps os c)).1 = (getVideos now key c).1) ∧
  (Forall (fun o => concernsChannel key o = false) os →
   (getChannel now key (applyOps os c)).1 = (getChannel now key c).1) ∧
  defaultCacheDuration (applyOps os c) = defaultCacheDuration c.
Proof.
  unfold applyOps. revert c. induction os as [|o os IH]; intros c; [done |].
  simpl. destruct (IH (applyOp c o)) as (IHv & IHc & IHd).
  split; [| split].
  - intros [Ho Hos]%Forall_cons. rewrite IHv by done.
    unfold getVideos. rewrite (applyOp_videos c o key Ho).
    destruct (videoCache c !! key) as [entry|]; [| done].
    by destruct (expiresAt entry <=? now).
  - intros [Ho Hos]%Forall_cons. rewrite IHc by done.
    unfold getChannel. rewrite (applyOp_channels c o key Ho).
    destruct (channelCache c !! key) as [entry|]; [| done].
    by destruct (expiresAt entry <=? now).
  - by rewrite IHd, applyOp_duration.
Qed.

Lemma cache_entries_independent_witness :
  let c := setVideos 0 "k" (Videos []) None (APICache.new None) in
  let os := [SetChannel 1 "k" (Channel.mk "k" "" "" None "") None;
             SetVideos 2 "j" (Channels []) None; GetVideos 3 "j";
             InvalidateChannel "k"; ClearChannels] in
  Forall (fun o => concernsVideos "k" o = false) os ∧
  (getVideos 5 "k" (applyOps os c)).1 = (getVideos 5 "k" c).1.
Proof.
  intros c os.
  assert (Hos : Forall (fun o => concernsVideos "k" o = false) os)
    by (repeat constructor).
  split; [exact Hos |].
  exact (proj1 (cache_entries_independent c os "k" 5) Hos).
Defined.

End CacheLaws.

(** ** Further properties of the key manager *)

Module KeyPoolLaws.
Import APIKeyStatus APIKeyManager KeyManagerSpec KeyPoolSpec KeyManagerProps.

Lemma findIndex_first p l i :
  findIndex p l = Some i →
  ∀ j x, (j < i)%nat → l !! j = Some x → p x = false.
Proof.
  revert i. induction l as [|y l IH]; intros i; simpl; [done |].
  destruct (p y) eqn:Hp.
  - intros [= <-] j x Hj. lia.
  - destruct (findIndex p l) as [i'|] eqn:Hf; simpl; [| done].
    intros [= <-] [|j] x Hj; simpl.
    + by intros [= <-].
    + apply (IH i' eq_refl). lia.
Qed.

Lemma getCurrentKey_current now m k :
  apiKeys m !! currentKeyIndex m = Some k →
  availableIn now (keyStatuses m) k = true →
  getCurrentKey now m = (Some k, (getAvailableKeys now m).2).
Proof.
  intros Hk Ha. unfold getCurrentKey.
  pose proof (getAvailableKeys_snd now m) as (Hkeys & Hidx & _).
  pose proof (includes_available now m k) as Hinc.
  destruct (getAvailableKeys now m) as [avail m1].
  cbn [fst snd] in Hkeys, Hidx, Hinc. cbv beta iota zeta.
  assert (Hin : includes avail (Some k) = true).
  { apply Hinc. split; [| done]. eapply list_elem_of_lookup_2; eauto. }
  destruct (length avail =? 0)%nat eqn:Hlen.
  { apply length_zero_nil in Hlen. subst avail. done. }
  rewrite Hkeys, Hidx, Hk, Hin. cbn [negb]. by rewrite Hkeys, Hidx, Hk.
Qed.

Lemma getCurrentKey_moved now m k m' :
  (∀ k0, apiKeys m !! currentKeyIndex m = Some k0 →
         availableIn now (keyStatuses m) k0 = false) →
  getCurrentKey now m = (Some k, m') →
  apiKeys m !! currentKeyIndex m' = Some k ∧
  availableIn now (keyStatuses m) k = true ∧
  ∀ j k', (j < currentKeyIndex m')%nat → apiKeys m !! j = Some k' →
          availableIn now (keyStatuses m) k' = false.
Proof.
  intros Hcur. unfold getCurrentKey.
  pose proof (getAvailableKeys_snd now m) as (Hkeys & Hidx & _).
  pose proof (includes_available now m) as Hinc.
  destruct (getAvailableKeys now m) as [avail m1].
  cbn [fst snd] in Hkeys, Hidx, Hinc. cbv beta iota zeta.
  destruct (length avail =? 0)%nat eqn:Hlen; [done |].
  assert (Hnot : includes avail (apiKeys m1 !! currentKeyIndex m1) = false).
  { rewrite Hkeys, Hidx. destruct (apiKeys m !! currentKeyIndex m) as [k0|] eqn:Hk0; [| done].
    destruct (includes avail (Some k0)) eqn:Hi; [| done].
    apply Hinc in Hi as [_ Hi]. by rewrite (Hcur k0 eq_refl) in Hi. }
  rewrite Hnot. cbn [negb].
  destruct (findIndex (fun key => includes avail (Some key)) (apiKeys m1)) as [i|] eqn:Hfind.
  - intros [= Hr <-]. cbn [apiKeys currentKeyIndex setIndex] in *.
    rewrite Hkeys in Hr, Hfind.
    pose proof (findIndex_Some _ _ _ Hfind) as (x & Hx & Hpx).
    rewrite Hx in Hr. injection Hr as ->.
    split; [done |]. split; [by apply Hinc |].
    intros j k' Hj Hk'.
    pose proof (findIndex_first _ _ _ Hfind j k' Hj Hk') as Hp.
    destruct (availableIn now (keyStatuses m) k') eqn:Ha; [| done].
    assert (includes avail (Some k') = true) as Hc; [| congruence].
    apply Hinc. split; [| done]. eapply list_elem_of_lookup_2; eauto.
  - intros _. exfalso.
    destruct avail as [|x avail']; [done |].
    assert (Hix : includes (x :: avail') (Some x) = true)
      by (simpl; apply bool_decide_eq_true; left).
    pose proof Hix as [Hxin _]%Hinc. rewrite <- Hkeys in Hxin.
    by rewrite (findIndex_None _ _ x Hfind Hxin) in Hix.
Qed.

(** X5. The constructor refuses an empty list of keys and nothing else.
    In a manager it has built every key is available at every time:
    [getAvailableKeys] returns the whole pool in its order (a key listed
    twice is counted twice), [getAvailableKeyCount] equals
    [getTotalKeys], and [getCurrentKey] returns the first key and leaves
    the pointer at 0. *)
Theorem new_pool_all_available (keys : list string) :
  (keys = [] ∧ APIKeyManager.new keys = inl "At least one API key is required"%string) ∨
  (∃ m, APIKeyManager.new keys = inr m ∧
        getTotalKeys m = length keys ∧
        ∀ now,
          (getAvailableKeys now m).1 = keys ∧
          (getAvailableKeyCount now m).1 = getTotalKeys m ∧
          (hasAvailableKeys now m).1 = true ∧
          (getCurrentKey now m).1 = head keys ∧
          currentKeyIndex (getCurrentKey now m).2 = 0%nat).
Proof.
  destruct keys as [|k0 keys]; [by left |]. right.
  destruct (APIKeyManager.new (k0 :: keys)) as [e|m] eqn:Hnew; [done |].
  exists m. split; [done |].
  destruct (new_spec _ _ Hnew) as (_ & Hkeys & Hidx & Hst).
  assert (Hfresh : ∀ now k, k ∈ apiKeys m → availableIn now (keyStatuses m) k = true).
  { intros now k Hk. rewrite Hkeys in Hk. unfold availableIn. by rewrite (Hst k Hk). }
  split; [unfold getTotalKeys; by rewrite Hkeys |]. intros now.
  assert (Havail : (getAvailableKeys now m).1 = k0 :: keys).
  { rewrite getAvailableKeys_fst, <- Hkeys. apply filter_all.
    intros k Hk. apply Is_true_true. by apply Hfresh. }
  split; [done |].
  unfold getAvailableKeyCount, hasAvailableKeys, getTotalKeys.
  destruct (getAvailableKeys now m) as [out m1] eqn:Hget. cbn [fst] in *. subst out.
  split; [by rewrite Hkeys |]. split; [done |].
  assert (Hk0 : apiKeys m !! currentKeyIndex m = Some k0) by (by rewrite Hkeys, Hidx).
  rewrite (getCurrentKey_current now m k0 Hk0)
    by (apply Hfresh; rewrite Hkeys; left).
  split; [done |]. rewrite Hget. cbn [snd].
  pose proof (getAvailableKeys_snd now m) as (_ & Hi & _). rewrite Hget in Hi.
  cbn [snd] in Hi. by rewrite Hi.
Qed.

(** X6. [getCurrentKey] keeps to the key under the pointer as long as it
    is available: that key is returned and the pointer does not move.
    Only when it is not available does the pointer move, and then to the
    first available key in the order of the pool, whatever the position
    the pointer had. *)
Theorem getCurrentKey_prefers_current (now : Z) (m m' : APIKeyManager.t)
    (r : option string) :
  getCurrentKey now m = (r, m') →
  (∀ k, apiKeys m !! currentKeyIndex m = Some k →
        availableIn now (keyStatuses m) k = true →
        r = Some k ∧ currentKeyIndex m' = currentKeyIndex m) ∧
  ((∀ k0, apiKeys m !! currentKeyIndex m = Some k0 →
          availableIn now (keyStatuses m) k0 = false) →
   ∀ k, r = Some k →
     apiKeys m !! currentKeyIndex m' = Some k ∧
     availableIn now (keyStatuses m) k = true ∧
     ∀ j k', (j < currentKeyIndex m')%nat → apiKeys m !! j = Some k' →
             availableIn now (keyStatuses m) k' = false).
Proof.
  intros Hget. split.
  - intros k Hk Ha. rewrite (getCurrentKey_current now m k Hk Ha) in Hget.
    injection Hget as <- <-. split; [done |].
    by destruct (getAvailableKeys_snd now m) as (_ & -> & _).
  - intros Hcur k ->. by apply getCurrentKey_moved.
Qed.

Lemma getCurrentKey_prefers_current_witness :
  let m := managerOf ["K1"; "K2"; "K3"] in
  let m1 := reportError utcNextMidnight 0 "quotaExceeded" true m in
  let m2 := (getCurrentKey 1 m1).2 in
  (apiKeys m2 !! currentKeyIndex m2 = Some "K2"%string ∧
   availableIn 2 (keyStatuses m2) "K2" = true ∧
   (∀ k0, apiKeys m1 !! currentKeyIndex m1 = Some k0 →
          availableIn 1 (keyStatuses m1) k0 = false)) ∧
  ((getCurrentKey 2 m2).1 = Some "K2"%string ∧
   currentKeyIndex (getCurrentKey 2 m2).2 = currentKeyIndex m2) ∧
  apiKeys m1 !! currentKeyIndex m2 = Some "K2"%string.
Proof.
  intros m m1 m2.
  assert (Hk : apiKeys m2 !! currentKeyIndex m2 = Some "K2"%string) by reflexivity.
  assert (Ha : availableIn 2 (keyStatuses m2) "K2" = true) by reflexivity.
  assert (Hcur : ∀ k0, apiKeys m1 !! currentKeyIndex m1 = Some k0 →
                       availableIn 1 (keyStatuses m1) k0 = false)
    by (intros k0 [= <-]; reflexivity).
  split; [by repeat split |].
  split.
  - exact (proj1 (getCurrentKey_prefers_current 2 m2 (getCurrentKey 2 m2).2
                    (getCurrentKey 2 m2).1 (surjective_pairing _)) "K2"%string Hk Ha).
  - assert (Hr : (getCurrentKey 1 m1).1 = Some "K2"%string) by reflexivity.
    exact (proj1 (proj2 (getCurrentKey_prefers_current 1 m1 m2 (getCurrentKey 1 m1).1
                           (surjective_pairing _)) Hcur "K2"%string Hr)).
Defined.

(** What [reportError] and [reportSuccess] store, and where. *)
Lemma reportError_lookup nm t e q m k st k' :
  apiKeys m !! currentKeyIndex m = Some k →
  keyStatuses m !! k = Some st →
  keyStatuses (reportError nm t e q m) !! k' =
    if bool_decide (k' = k) then
      Some (if q then
              APIKeyStatus.mk (APIKeyStatus.key st) false true (Some e) (Some t)
                (S (consecutiveErrors st)) (Some (nm t))
            else
              APIKeyStatus.mk (APIKeyStatus.key st) false (quotaExhausted st) (Some e)
                (Some t) (S (consecutiveErrors st))
                (Some (t + backoffDelay (S (consecutiveErrors st)))))
    else keyStatuses m !! k'.
Proof.
  intros Hk Hst. unfold reportError. rewrite Hk, Hst. cbn [keyStatuses setStatuses].
  case_bool_decide as Hkk.
  - subst k'. rewrite lookup_insert_eq. by destruct q.
  - by rewrite lookup_insert_ne.
Qed.

Lemma reportSuccess_lookup m k st k' :
  apiKeys m !! currentKeyIndex m = Some k →
  keyStatuses m !! k = Some st →
  keyStatuses (reportSuccess m) !! k' =
    if bool_decide (k' = k) then
      Some (APIKeyStatus.mk (APIKeyStatus.key st) true (quotaExhausted st) None None 0 None)
    else keyStatuses m !! k'.
Proof.
  intros Hk Hst. unfold reportSuccess. rewrite Hk, Hst. cbn [keyStatuses setStatuses].
  case_bool_decide as Hkk.
  - subst k'. by rewrite lookup_insert_eq.
  - by rewrite lookup_insert_ne.
Qed.

Lemma reportSuccess_keys m :
  apiKeys (reportSuccess m) = apiKeys m ∧
  currentKeyIndex (reportSuccess m) = currentKeyIndex m.
Proof.
  unfold reportSuccess.
  destruct (apiKeys m !! currentKeyIndex m) as [k|]; [| done].
  destruct (keyStatuses m !! k); done.
Qed.

Lemma filter_pointwise (p q : string → bool) (l : list string) :
  (∀ x, x ∈ l → p x = q x) →
  filter (fun x => p x) l = filter (fun x => q x) l.
Proof.
  intros Hpq. induction l as [|y l IH]; [done |].
  rewrite !filter_cons. rewrite IH by (intros x Hx; apply Hpq; by right).
  rewrite (Hpq y) by left. done.
Qed.

(** X7. A reported failure takes the key under the pointer out of
    rotation at once, and only that key: asked at any time after a
    quota-class report, or at any time less than five minutes after the
    time of a transient report, [getAvailableKeys] returns what it
    returned before the report without the reported key (all its
    occurrences, if the pool lists it more than once), and
    [getCurrentKey] does not return the reported key. *)
Theorem reportError_takes_key_out (nextMidnight : Z → Z) (t now : Z) (e : string)
    (q : bool) (m : APIKeyManager.t) (k : string) :
  apiKeys m !! currentKeyIndex m = Some k →
  is_Some (keyStatuses m !! k) →
  q = true ∨ now < t + 300000 →
  let m1 := reportError nextMidnight t e q m in
  (getAvailableKeys now m1).1 = filter (fun k' => k' ≠ k) (getAvailableKeys now m).1 ∧
  (getCurrentKey now m1).1 ≠ Some k.
Proof.
  intros Hk [st Hst] Hwhen m1.
  assert (Hav : ∀ k', availableIn now (keyStatuses m1) k' =
                      if bool_decide (k' = k) then false
                      else availableIn now (keyStatuses m) k').
  { intros k'. unfold availableIn, m1.
    rewrite (reportError_lookup nextMidnight t e q m k st k' Hk Hst).
    case_bool_decide; [| done]. unfold availableAt. destruct q; simpl; [done |].
    destruct Hwhen as [? | Hlt]; [done |].
    pose proof (backoffDelay_bounds (S (consecutiveErrors st)) ltac:(lia)) as Hb.
    destruct (quotaExhausted st); simpl; [done |].
    destruct (negb (t + backoffDelay (S (consecutiveErrors st)) =? 0)); [| done].
    apply Z.leb_gt. lia. }
  assert (Hkeys : apiKeys m1 = apiKeys m) by apply reportError_keys.
  split.
  - rewrite !getAvailableKeys_fst, Hkeys, list_filter_filter.
    apply list_filter_iff. intros k'. rewrite Hav.
    case_bool_decide; simpl; tauto.
  - destruct (getCurrentKey now m1) as [r m'] eqn:Hget. simpl. intros ->.
    apply getCurrentKey_spec in Hget as (_ & _ & [(? & _) | (k' & [= <-] & _ & Ha)]);
      [done |].
    rewrite Hav, bool_decide_eq_true_2 in Ha; done.
Qed.

Lemma reportError_takes_key_out_witness :
  let m := managerOf ["K1"; "K2"; "K1"] in
  let m1 := reportError utcNextMidnight 1000 "timeout" false m in
  (apiKeys m !! currentKeyIndex m = Some "K1"%string ∧
   is_Some (keyStatuses m !! "K1") ∧ (false = true ∨ 200000 < 1000 + 300000)) ∧
  (getAvailableKeys 200000 m1).1
    = filter (fun k' => k' ≠ "K1"%string) (getAvailableKeys 200000 m).1 ∧
  (getCurrentKey 200000 m1).1 ≠ Some "K1"%string.
Proof.
  intros m m1.
  assert (Hk : apiKeys m !! currentKeyIndex m = Some "K1"%string) by reflexivity.
  assert (Hst : is_Some (keyStatuses m !! "K1")) by (vm_compute; eauto).
  assert (Hwhen : false = true ∨ 200000 < 1000 + 300000) by (right; reflexivity).
  split; [by repeat split |].
  exact (reportError_takes_key_out utcNextMidnight 1000 200000 "timeout" false m "K1"
           Hk Hst Hwhen).
Defined.

(** X8. A success reported on the key under the pointer ends its
    back-off at once: at every time afterwards, even before the retry
    time the last transient failure had set, the key is available if and
    only if it is not quota-exhausted; the availability of every other
    key is as it was. *)
Theorem reportSuccess_reactivates (now : Z) (m : APIKeyManager.t) (k : string)
    (st : APIKeyStatus.t) :
  apiKeys m !! currentKeyIndex m = Some k →
  keyStatuses m !! k = Some st →
  (k ∈ (getAvailableKeys now (reportSuccess m)).1 ↔ quotaExhausted st = false) ∧
  (∀ k', k' ≠ k →
     (k' ∈ (getAvailableKeys now (reportSuccess m)).1 ↔ k' ∈ (getAvailableKeys now m).1)).
Proof.
  intros Hk Hst.
  assert (Hkeys : apiKeys (reportSuccess m) = apiKeys m) by apply reportSuccess_keys.
  assert (Hin : k ∈ apiKeys m) by (eapply list_elem_of_lookup_2; eauto).
  split.
  - rewrite getAvailableKeys_fst, list_elem_of_filter, Hkeys. unfold availableIn.
    rewrite (reportSuccess_lookup m k st k Hk Hst), bool_decide_eq_true_2 by done.
    unfold availableAt. simpl. rewrite andb_true_r, Is_true_true, negb_true_iff. tauto.
  - intros k' Hne.
    rewrite !getAvailableKeys_fst, !list_elem_of_filter, Hkeys. unfold availableIn.
    rewrite (reportSuccess_lookup m k st k' Hk Hst), bool_decide_eq_false_2 by done.
    done.
Qed.

Lemma reportSuccess_reactivates_witness :
  let m := reportError utcNextMidnight 1000 "timeout" false (managerOf ["K1"; "K2"]) in
  let st := APIKeyStatus.mk "K1" false false (Some "timeout"%string) (Some 1000) 1
              (Some 301000) in
  (apiKeys m !! currentKeyIndex m = Some "K1"%string ∧ keyStatuses m !! "K1" = Some st) ∧
  ("K1"%string ∉ (getAvailableKeys 1001 m).1) ∧
  "K1"%string ∈ (getAvailableKeys 1001 (reportSuccess m)).1.
Proof.
  intros m st.
  assert (Hk : apiKeys m !! currentKeyIndex m = Some "K1"%string) by reflexivity.
  assert (Hst : keyStatuses m !! "K1" = Some st) by reflexivity.
  split; [by split |]. split.
  - assert (Hl : (getAvailableKeys 1001 m).1 = ["K2"%string]) by reflexivity.
    rewrite Hl. by intros Hin%list_elem_of_singleton.
  - exact (proj2 (proj1 (reportSuccess_reactivates 1001 m "K1" st Hk Hst)) eq_refl).
Defined.

(** *** The shape of the manager is invariant *)

Lemma keyAvailable_keyed now k sts k' :
  (∃ st, sts !! k' = Some st ∧ APIKeyStatus.key st = k') →
  ∃ st, (keyAvailable now k sts).2 !! k' = Some st ∧ APIKeyStatus.key st = k'.
Proof.
  intros (st & Hst & Hkey).
  destruct (keyAvailable_lookup now k sts k') as [-> | (st0 & -> & Hk & _ & _ & _ & ->)];
    [eauto |].
  eexists. split; [done |]. simpl. congruence.
Qed.

Lemma filterAvailable_keyed now keys : ∀ sts k',
  (∃ st, sts !! k' = Some st ∧ APIKeyStatus.key st = k') →
  ∃ st, (filterAvailable now keys sts).2 !! k' = Some st ∧ APIKeyStatus.key st = k'.
Proof.
  induction keys as [|k keys IH]; intros sts k' Hk'; simpl; [done |].
  destruct (keyAvailable now k sts) as [keep sts1] eqn:Hka.
  destruct (filterAvailable now keys sts1) as [out sts2] eqn:Hf. simpl.
  change sts2 with (out, sts2).2. rewrite <- Hf. apply IH.
  change sts1 with (keep, sts1).2. rewrite <- Hka. by apply keyAvailable_keyed.
Qed.

Lemma getAvailableKeys_wellFormed now m :
  wellFormed m → wellFormed (getAvailableKeys now m).2.
Proof.
  intros [Hidx Hst].
  pose proof (getAvailableKeys_snd now m) as (Hkeys & Hi & _).
  split; [by rewrite Hkeys, Hi |].
  intros k Hk. rewrite Hkeys in Hk. specialize (Hst k Hk).
  unfold getAvailableKeys.
  pose proof (filterAvailable_keyed now (apiKeys m) (keyStatuses m) k Hst) as Hf.
  by destruct (filterAvailable now (apiKeys m) (keyStatuses m)) as [out sts].
Qed.

Lemma wellFormed_pointer m1 m2 :
  wellFormed m1 → apiKeys m2 = apiKeys m1 → keyStatuses m2 = keyStatuses m1 →
  (currentKeyIndex m2 < length (apiKeys m1))%nat → wellFormed m2.
Proof.
  intros [_ Hst] Hkeys Hsts Hidx. split; [by rewrite Hkeys |].
  intros k Hk. rewrite Hkeys in Hk. rewrite Hsts. by apply Hst.
Qed.

Lemma applyOp_wellFormed nm m o :
  wellFormed m →
  wellFormed (applyOp nm m o) ∧ apiKeys (applyOp nm m o) = apiKeys m.
Proof.
  intros Hwf. pose proof Hwf as [Hidx Hst].
  pose proof (getAvailableKeys_wellFormed) as Hav.
  destruct o as [[now | now | now e q | | now] |]; simpl.
  - destruct (getCurrentKey now m) as [r m'] eqn:Hget. simpl.
    pose proof (getAvailableKeys_snd now m) as (Hk1 & _).
    apply getCurrentKey_spec in Hget as (Hkeys & Hsts & Hcase).
    split; [| done].
    apply (wellFormed_pointer (getAvailableKeys now m).2); try congruence; [by apply Hav |].
    rewrite Hk1.
    destruct Hcase as [(_ & -> & _) | (k & _ & Hk & _)]; [done |].
    by eapply lookup_lt_Some.
  - destruct (rotateKey now m) as [r m'] eqn:Hrot. simpl.
    pose proof (getAvailableKeys_snd now m) as (Hk1 & _).
    apply rotateKey_spec in Hrot as (Hkeys & Hsts & Hcase).
    split; [| done].
    apply (wellFormed_pointer (getAvailableKeys now m).2); try congruence; [by apply Hav |].
    rewrite Hk1.
    destruct Hcase as [(_ & -> & _) | (j & k & _ & _ & _ & Hk & _)]; [done |].
    by eapply lookup_lt_Some.
  - pose proof (reportError_keys nm now e q m) as [Hkeys Hi].
    split; [| done]. split; [by rewrite Hkeys, Hi |].
    intros k' Hk'. rewrite Hkeys in Hk'.
    destruct (lookup_lt_is_Some_2 (apiKeys m) (currentKeyIndex m) Hidx) as [k Hk].
    destruct (Hst k ltac:(eapply list_elem_of_lookup_2; eauto)) as (st & Hks & Hkey).
    rewrite (reportError_lookup nm now e q m k st k' Hk Hks).
    case_bool_decide as Hkk; [| by apply Hst].
    subst k'. eexists. split; [done |]. by destruct q.
  - pose proof (reportSuccess_keys m) as [Hkeys Hi].
    split; [| done]. split; [by rewrite Hkeys, Hi |].
    intros k' Hk'. rewrite Hkeys in Hk'.
    destruct (lookup_lt_is_Some_2 (apiKeys m) (currentKeyIndex m) Hidx) as [k Hk].
    destruct (Hst k ltac:(eapply list_elem_of_lookup_2; eauto)) as (st & Hks & Hkey).
    rewrite (reportSuccess_lookup m k st k' Hk Hks).
    case_bool_decide as Hkk; [| by apply Hst].
    subst k'. eexists. split; [done |]. done.
  - unfold getAvailableKeyCount.
    pose proof (Hav now m Hwf) as Hwf'.
    pose proof (getAvailableKeys_snd now m) as (Hk1 & _).
    by destruct (getAvailableKeys now m) as [out m1].
  - split; [| done]. split; [done |].
    intros k Hk. destruct (Hst k Hk) as (st & Hks & Hkey).
    cbn [resetQuotaStatus keyStatuses setStatuses]. rewrite lookup_fmap, Hks. simpl.
    eexists. split; [done |]. unfold resetStatus. by destruct (quotaExhausted st).
Qed.

Lemma applyOps_wellFormed nm os : ∀ m,
  wellFormed m →
  wellFormed (applyOps nm os m) ∧ apiKeys (applyOps nm os m) = apiKeys m.
Proof.
  unfold applyOps. induction os as [|o os IH]; intros m Hwf; [done |]. simpl.
  destruct (applyOp_wellFormed nm m o Hwf) as [Hwf1 Hkeys1].
  destruct (IH _ Hwf1) as [Hwf2 Hkeys2]. split; [done | congruence].
Qed.

(** X9. The shape of a manager never degrades. After the constructor and
    any sequence of [getCurrentKey], [rotateKey], [reportError],
    [reportSuccess], [getAvailableKeyCount] and [resetQuotaStatus] calls,
    at any times: the pool is the list of keys the constructor received,
    the rotation pointer indexes a key of the pool, and every key of the
    pool has a status record that carries it. Hence no report is dropped:
    a [reportError] on such a manager is recorded on the key under the
    pointer. *)
Theorem pool_stays_well_formed (nextMidnight : Z → Z) (keys : list string)
    (m : APIKeyManager.t) (os : list op) :
  APIKeyManager.new keys = inr m →
  let m' := applyOps nextMidnight os m in
  apiKeys m' = keys ∧ wellFormed m' ∧
  ∀ t e q,
    lastError <$> currentStatus (reportError nextMidnight t e q m') = Some (Some e).
Proof.
  intros Hnew m'.
  destruct (new_spec _ _ Hnew) as (Hne & Hkeys & Hidx & Hst).
  assert (Hwf : wellFormed m).
  { split.
    - rewrite Hkeys, Hidx. destruct keys; [done | simpl; lia].
    - intros k Hk. rewrite Hkeys in Hk. rewrite (Hst k Hk). eauto. }
  destruct (applyOps_wellFormed nextMidnight os m Hwf) as [Hwf' Hkeys'].
  fold m' in Hwf', Hkeys'.
  split; [congruence |]. split; [done |].
  intros t e q. destruct Hwf' as [Hi' Hst'].
  destruct (lookup_lt_is_Some_2 (apiKeys m') (currentKeyIndex m') Hi') as [k Hk].
  destruct (Hst' k ltac:(eapply list_elem_of_lookup_2; eauto)) as (st & Hks & Hkey).
  pose proof (reportError_keys nextMidnight t e q m') as [Hk1 Hi1].
  unfold currentStatus. rewrite Hk1, Hi1, Hk. simpl.
  rewrite (reportError_lookup nextMidnight t e q m' k st k Hk Hks).
  rewrite bool_decide_eq_true_2 by done. by destruct q.
Qed.

Lemma pool_stays_well_formed_witness :
  let os := [Invoke (ReportError 0 "quotaExceeded" true); Invoke (RotateKey 1);
             Invoke (ReportError 2 "timeout" false); Invoke (GetCurrentKey 3);
             ResetQuotaStatus; Invoke ReportSuccess] in
  let m' := applyOps utcNextMidnight os (managerOf ["K1"; "K2"]) in
  APIKeyManager.new ["K1"; "K2"] = inr (managerOf ["K1"; "K2"]) ∧
  apiKeys m' = ["K1"; "K2"] ∧ wellFormed m'.
Proof.
  intros os m'.
  assert (Hnew : APIKeyManager.new ["K1"; "K2"] = inr (managerOf ["K1"; "K2"]))
    by reflexivity.
  split; [exact Hnew |].
  destruct (pool_stays_well_formed utcNextMidnight ["K1"; "K2"] (managerOf ["K1"; "K2"])
              os Hnew) as (H1 & H2 & _).
  split; [exact H1 | exact H2].
Defined.

(** *** The daily reset and the availability queries *)

(** X10. [resetQuotaStatus] touches quota-exhausted keys only and does
    not clear the error history. The status of a key that is not
    exhausted is left as it is, so a key in back-off after a transient
    failure stays in back-off; the pool and the pointer are unchanged.
    An exhausted key keeps its error count, so the delay of the next
    transient failure on the key under the pointer continues from the
    count it had before the reset. *)
Theorem resetQuotaStatus_spares_the_rest (nextMidnight : Z → Z) (m : APIKeyManager.t)
    (k : string) (st : APIKeyStatus.t) :
  keyStatuses m !! k = Some st →
  let m' := resetQuotaStatus m in
  (quotaExhausted st = false → keyStatuses m' !! k = Some st) ∧
  (∃ st', keyStatuses m' !! k = Some st' ∧
          consecutiveErrors st' = consecutiveErrors st ∧
          lastError st' = lastError st ∧ lastErrorTime st' = lastErrorTime st) ∧
  apiKeys m' = apiKeys m ∧ currentKeyIndex m' = currentKeyIndex m ∧
  (apiKeys m !! currentKeyIndex m = Some k →
   ∀ t e,
     nextRetryTime <$> keyStatuses (reportError nextMidnight t e false m') !! k
       = Some (Some (t + backoffDelay (S (consecutiveErrors st))))).
Proof.
  intros Hst m'.
  assert (Hst' : keyStatuses m' !! k = Some (resetStatus st)).
  { unfold m', resetQuotaStatus. simpl. by rewrite lookup_fmap, Hst. }
  split; [| split; [| split; [done | split; [done |]]]].
  - intros Hq. rewrite Hst'. unfold resetStatus. by rewrite Hq.
  - exists (resetStatus st). split; [done |].
    unfold resetStatus. by destruct (quotaExhausted st).
  - intros Hk t e.
    rewrite (reportError_transient_status nextMidnight t e m' k (resetStatus st) Hk Hst').
    simpl. unfold resetStatus. by destruct (quotaExhausted st).
Qed.

Lemma resetQuotaStatus_spares_the_rest_witness :
  let m0 := reportError utcNextMidnight 0 "quotaExceeded" true (managerOf ["K1"; "K2"]) in
  let m := reportError utcNextMidnight 10 "quotaExceeded" true m0 in
  let st := APIKeyStatus.mk "K1" false true (Some "quotaExceeded"%string) (Some 10) 2
              (Some 86400000) in
  let fresh := APIKeyStatus.mk "K2" true false None None 0 None in
  (keyStatuses m !! "K1" = Some st ∧ keyStatuses m !! "K2" = Some fresh ∧
   quotaExhausted fresh = false ∧ apiKeys m !! currentKeyIndex m = Some "K1"%string) ∧
  keyStatuses (resetQuotaStatus m) !! "K2" = Some fresh ∧
  nextRetryTime <$>
    keyStatuses (reportError utcNextMidnight 20 "timeout" false (resetQuotaStatus m)) !! "K1"
    = Some (Some (20 + backoffDelay 3)).
Proof.
  intros m0 m st fresh.
  assert (H1 : keyStatuses m !! "K1" = Some st) by reflexivity.
  assert (H2 : keyStatuses m !! "K2" = Some fresh) by reflexivity.
  assert (Hq : quotaExhausted fresh = false) by reflexivity.
  assert (Hk : apiKeys m !! currentKeyIndex m = Some "K1"%string) by reflexivity.
  split; [by repeat split |]. split.
  - exact (proj1 (resetQuotaStatus_spares_the_rest utcNextMidnight m "K2" fresh H2) Hq).
  - exact (proj2 (proj2 (proj2 (proj2
             (resetQuotaStatus_spares_the_rest utcNextMidnight m "K1" st H1))))
             Hk 20 "timeout"%string).
Defined.

Lemma available_nil_iff now m :
  (getAvailableKeys now m).1 = [] ↔
  ∀ k, k ∈ apiKeys m → k ∉ (getAvailableKeys now m).1.
Proof.
  split.
  - intros ->. intros k _. apply not_elem_of_nil.
  - intros Hall. destruct (getAvailableKeys now m).1 as [|k l] eqn:Hl; [done |].
    exfalso. assert (Hin : k ∈ (getAvailableKeys now m).1) by (rewrite Hl; left).
    pose proof Hin as Hin'. rewrite getAvailableKeys_fst in Hin'.
    apply list_elem_of_filter in Hin' as [_ Hpool].
    apply (Hall k Hpool). by rewrite <- Hl.
Qed.

Lemma getCurrentKey_None_iff now m :
  (getCurrentKey now m).1 = None ↔ (getAvailableKeys now m).1 = [].
Proof.
  destruct (getCurrentKey now m) as [r m'] eqn:Hget. simpl.
  apply getCurrentKey_spec in Hget as (_ & _ & Hcase).
  rewrite no_available_keys. split.
  - intros ->. destruct Hcase as [(_ & _ & Hall) | (k & [=] & _)]. done.
  - intros Hall. destruct Hcase as [(-> & _) | (k & -> & Hk & Ha)]; [done |].
    rewrite (Hall k) in Ha; [done |]. eapply list_elem_of_lookup_2; eauto.
Qed.

Lemma rotateKey_None_iff now m :
  (rotateKey now m).1 = None ↔ (getAvailableKeys now m).1 = [].
Proof.
  destruct (rotateKey now m) as [r m'] eqn:Hrot. simpl.
  apply rotateKey_spec in Hrot as (_ & _ & Hcase).
  rewrite no_available_keys. split.
  - intros ->. destruct Hcase as [(_ & _ & Hall) | (j & k & _ & [=] & _)]. done.
  - intros Hall.
    destruct Hcase as [(-> & _) | (j & k & _ & -> & _ & Hk & Ha & _)]; [done |].
    rewrite (Hall k) in Ha; [done |]. eapply list_elem_of_lookup_2; eauto.
Qed.

(** X11. The availability queries agree with each other at any one
    time: [getAvailableKeyCount] is 0 exactly when [hasAvailableKeys]
    is false, exactly when [getCurrentKey] returns null, exactly when
    [rotateKey] returns null, and exactly when no key of the pool is
    among the available keys. *)
Theorem availability_queries_agree (now : Z) (m : APIKeyManager.t) :
  ((getAvailableKeyCount now m).1 = 0%nat ↔ (hasAvailableKeys now m).1 = false) ∧
  ((hasAvailableKeys now m).1 = false ↔ (getCurrentKey now m).1 = None) ∧
  ((getCurrentKey now m).1 = None ↔ (rotateKey now m).1 = None) ∧
  ((rotateKey now m).1 = None ↔
   ∀ k, k ∈ apiKeys m → k ∉ (getAvailableKeys now m).1).
Proof.
  rewrite getCurrentKey_None_iff, rotateKey_None_iff, <- available_nil_iff.
  unfold getAvailableKeyCount, hasAvailableKeys.
  destruct (getAvailableKeys now m) as [out m1]. simpl.
  destruct out; simpl; repeat split; done.
Qed.

Lemma availability_queries_agree_witness :
  let m := reportError utcNextMidnight 0 "quotaExceeded" true (managerOf ["K1"]) in
  (getAvailableKeyCount 5 m).1 = 0%nat ∧
  (hasAvailableKeys 5 m).1 = false ∧
  (getCurrentKey 5 m).1 = None ∧ (rotateKey 5 m).1 = None.
Proof.
  intros m.
  assert (Hcount : (getAvailableKeyCount 5 m).1 = 0%nat) by reflexivity.
  destruct (availability_queries_agree 5 m) as (H1 & H2 & H3 & _).
  split; [exact Hcount |].
  split; [exact (proj1 H1 Hcount) |].
  split; [exact (proj1 H2 (proj1 H1 Hcount)) |].
  exact (proj1 H3 (proj1 H2 (proj1 H1 Hcount))).
Defined.

End KeyPoolLaws.

(** ** The simple key rotator *)

Module RotatorLaws.
Import SimpleAPIKeyRotator RotatorSpec.

Lemma rotateToNext_inner keys i :
  (S i < length keys)%nat →
  rotateToNext (mk keys i) = (true, mk keys (S i)).
Proof.
  intros Hi. unfold rotateToNext. simpl.
  rewrite Nat.add_1_r, Nat.mod_small by done. done.
Qed.

Lemma rotateToNext_last keys i :
  (0 < i)%nat → S i = length keys →
  rotateToNext (mk keys i) = (false, mk keys i).
Proof.
  intros Hpos Hi. unfold rotateToNext. simpl.
  rewrite Nat.add_1_r, Hi, Nat.Div0.mod_same. simpl.
  destruct i; [lia | done].
Qed.

Lemma rotateTimes_from keys : ∀ n i,
  (2 ≤ length keys)%nat → (i < length keys)%nat →
  rotateTimes n (mk keys i) =
    (replicate (n `min` (length keys - 1 - i)) true
       ++ replicate (n - (length keys - 1 - i)) false,
     mk keys ((i + n) `min` (length keys - 1))).
Proof.
  induction n as [|n IH]; intros i HN Hi.
  { simpl. rewrite Nat.add_0_r, Nat.min_l by lia. done. }
  cbn [rotateTimes].
  destruct (decide (S i < length keys)%nat) as [Hin | Hlast].
  - rewrite (rotateToNext_inner keys i Hin), (IH (S i) HN Hin).
    replace (S n `min` (length keys - 1 - i))%nat
      with (S (n `min` (length keys - 1 - S i))) by lia.
    replace (S n - (length keys - 1 - i))%nat with (n - (length keys - 1 - S i))%nat by lia.
    replace (S i + n)%nat with (i + S n)%nat by lia. done.
  - rewrite (rotateToNext_last keys i) by lia. rewrite (IH i HN Hi).
    replace (length keys - 1 - i)%nat with 0%nat by lia.
    rewrite !Nat.min_0_r, !Nat.sub_0_r. simpl.
    by rewrite !Nat.min_r by lia.
Qed.

Lemma rotateTimes_single k : ∀ n,
  rotateTimes n (mk [k] 0) = (replicate n true, mk [k] 0).
Proof. induction n as [|n IH]; [done |]. cbn [rotateTimes]. simpl. by rewrite IH. Qed.

(** X12. [rotateToNext] walks the pool once and never wraps around. On a
    rotator the constructor has built with N >= 2 keys, the first N - 1
    calls return true and move to the next key in order; every call
    after that returns false and leaves the last key current. With a
    single key, every call returns true and that key stays current, so
    the end of the pool is never signalled. In both cases the current
    key after n calls is the key at position min(n, N - 1). *)
Theorem rotateToNext_walks_pool_once (keys : list string) (r : SimpleAPIKeyRotator.t)
    (n : nat) :
  SimpleAPIKeyRotator.new keys = inr r →
  ((2 ≤ length keys)%nat →
   rotateTimes n r =
     (replicate (n `min` (length keys - 1)) true
        ++ replicate (n - (length keys - 1)) false,
      mk keys (n `min` (length keys - 1)))) ∧
  (length keys = 1%nat → rotateTimes n r = (replicate n true, r)) ∧
  getCurrentKey (rotateTimes n r).2 = keys !! (n `min` (length keys - 1))%nat.
Proof.
  unfold SimpleAPIKeyRotator.new. destruct keys as [|k0 keys]; [done |].
  simpl. intros [= <-].
  assert (Hmany : (2 ≤ length (k0 :: keys))%nat →
                  rotateTimes n (mk (k0 :: keys) 0) =
                    (replicate (n `min` (length (k0 :: keys) - 1)) true
                       ++ replicate (n - (length (k0 :: keys) - 1)) false,
                     mk (k0 :: keys) (n `min` (length (k0 :: keys) - 1)))).
  { intros HN. rewrite (rotateTimes_from (k0 :: keys) n 0 HN) by (simpl; lia).
    by rewrite Nat.sub_0_r. }
  assert (Hone : length (k0 :: keys) = 1%nat →
                 rotateTimes n (mk (k0 :: keys) 0) = (replicate n true, mk (k0 :: keys) 0)).
  { destruct keys; [| done]. intros _. apply rotateTimes_single. }
  split; [exact Hmany |]. split; [exact Hone |].
  destruct (decide (2 ≤ length (k0 :: keys))%nat) as [HN | HN].
  - by rewrite (Hmany HN).
  - assert (H1 : length (k0 :: keys) = 1%nat) by (simpl in *; lia).
    rewrite (Hone H1). unfold getCurrentKey. simpl.
    replace (length keys - 0)%nat with 0%nat by (simpl in *; lia).
    by rewrite Nat.min_0_r.
Qed.

Lemma rotateToNext_walks_pool_once_witness :
  let r := mk ["K1"; "K2"; "K3"] 0 in
  let r1 := mk ["K1"] 0 in
  (SimpleAPIKeyRotator.new ["K1"; "K2"; "K3"] = inr r ∧
   (2 ≤ length ["K1"; "K2"; "K3"])%nat ∧
   SimpleAPIKeyRotator.new ["K1"] = inr r1 ∧ length ["K1"] = 1%nat) ∧
  rotateTimes 4 r = ([true; true; false; false], mk ["K1"; "K2"; "K3"] 2) ∧
  rotateTimes 4 r1 = ([true; true; true; true], r1).
Proof.
  intros r r1.
  assert (Hnew : SimpleAPIKeyRotator.new ["K1"; "K2"; "K3"] = inr r) by reflexivity.
  assert (HN : (2 ≤ length ["K1"; "K2"; "K3"])%nat) by (simpl; lia).
  assert (Hnew1 : SimpleAPIKeyRotator.new ["K1"] = inr r1) by reflexivity.
  assert (H1 : length ["K1"] = 1%nat) by reflexivity.
  split; [by repeat split |]. split.
  - exact (proj1 (rotateToNext_walks_pool_once ["K1"; "K2"; "K3"] r 4 Hnew) HN).
  - exact (proj1 (proj2 (rotateToNext_walks_pool_once ["K1"] r1 4 Hnew1)) H1).
Defined.

(** X13. The rotator's quota test and the client's error conversion
    agree on a response that carries an error message: [isQuotaError]
    holds exactly when [handleError] produces the quota-exceeded failure,
    which has code 403 and is not retryable. On a response without an
    error message [isQuotaError] is false (while [handleError] then
    looks at the message of the transport error), as it is on an error
    without a response. *)
Theorem isQuotaError_agrees_with_handleError (message : string)
    (response : ErrorResponse) :
  (∀ msg, dataErrorMessage response = Some msg →
     let e := YouTubeAPIClient.handleError (ThrownAxios message (Some response)) in
     (isQuotaError (Some response) = true ↔ APIError.userMessage e = quotaUserMessage) ∧
     (isQuotaError (Some response) = true →
      APIError.code e = 403 ∧ APIError.retryable e = false)) ∧
  (dataErrorMessage response = None → isQuotaError (Some response) = false) ∧
  isQuotaError None = false.
Proof.
  split; [| split; [| done]].
  - intros msg Hmsg e.
    assert (Hiff : isQuotaError (Some response) = true
                   ↔ APIError.userMessage e = quotaUserMessage).
    { unfold e, isQuotaError, YouTubeAPIClient.handleError. rewrite Hmsg. simpl.
      destruct (status response =? 400) eqn:H400.
      { apply Z.eqb_eq in H400. rewrite H400. simpl. split; discriminate. }
      destruct (status response =? 403).
      { destruct (JSString.includes (JSString.toLowerCase msg) "quota"); simpl;
          split; try done; discriminate. }
      destruct (status response =? 404); [simpl; split; discriminate |].
      destruct (status response =? 429); [simpl; split; discriminate |].
      destruct ((status response =? 500) || (status response =? 503));
        simpl; split; discriminate. }
    split; [exact Hiff |]. intros Hq.
    unfold e. unfold isQuotaError in Hq. rewrite Hmsg in Hq. simpl in Hq.
    destruct (Z.eqb_spec (status response) 403) as [H403|]; [| done].
    rewrite (ClientProps.handleError_quota message response H403)
      by (by rewrite Hmsg).
    done.
  - intros Hnone. unfold isQuotaError. rewrite Hnone. simpl.
    by destruct (status response =? 403).
Qed.

Lemma isQuotaError_agrees_with_handleError_witness :
  let response := mkErrorResponse 403 (Some "Daily Quota exceeded"%string) in
  let e := YouTubeAPIClient.handleError (ThrownAxios "Request failed" (Some response)) in
  (dataErrorMessage response = Some "Daily Quota exceeded"%string ∧
   isQuotaError (Some response) = true ∧
   dataErrorMessage (mkErrorResponse 403 None) = None) ∧
  APIError.userMessage e = quotaUserMessage ∧
  (APIError.code e = 403 ∧ APIError.retryable e = false) ∧
  isQuotaError (Some (mkErrorResponse 403 None)) = false.
Proof.
  intros response e.
  assert (Hmsg : dataErrorMessage response = Some "Daily Quota exceeded"%string)
    by reflexivity.
  assert (Hq : isQuotaError (Some response) = true) by reflexivity.
  assert (Hnone : dataErrorMessage (mkErrorResponse 403 None) = None) by reflexivity.
  split; [by repeat split |].
  destruct (proj1 (isQuotaError_agrees_with_handleError "Request failed" response)
              _ Hmsg) as [Hiff Hcode].
  split; [exact (proj1 Hiff Hq) |]. split; [exact (Hcode Hq) |].
  exact (proj1 (proj2 (isQuotaError_agrees_with_handleError "Request failed"
                         (mkErrorResponse 403 None))) Hnone).
Defined.

End RotatorLaws.

(** ** The search bridge's helpers *)

Module SearchServiceLaws.
Import YouTubeAPIClient.

Lemma distinctFrom_spec (l : list string) : ∀ seen,
  NoDup (JSString.distinctFrom seen l) ∧
  (∀ x, x ∈ JSString.distinctFrom seen l ↔ x ∈ l ∧ x ∉ seen) ∧
  sublist (JSString.distinctFrom seen l) l.
Proof.
  induction l as [|y l IH]; intros seen; simpl.
  { split; [constructor |]. split; [| done].
    intros x. rewrite elem_of_nil. tauto. }
  case_bool_decide as Hy.
  - destruct (IH seen) as (Hnd & Hin & Hsub).
    split; [done |]. split; [| by apply sublist_cons].
    intros x. rewrite Hin, elem_of_cons. split; [tauto |].
    intros [[-> | Hx] Hn]; [done | tauto].
  - destruct (IH (y :: seen)) as (Hnd & Hin & Hsub).
    split; [| split; [| by apply sublist_skip]].
    + constructor; [| done]. rewrite Hin, elem_of_cons. tauto.
    + intros x. rewrite !elem_of_cons, Hin, elem_of_cons.
      destruct (decide (x = y)) as [-> | Hne]; tauto.
Qed.

Lemma distinct_NoDup (l : list string) : NoDup l → JSString.distinct l = l.
Proof.
  unfold JSString.distinct.
  assert (H : ∀ seen, NoDup l → (∀ x, x ∈ l → x ∉ seen) →
                      JSString.distinctFrom seen l = l); [| intros; apply H; set_solver].
  induction l as [|y l IH]; intros seen Hnd Hseen; simpl; [done |].
  apply NoDup_cons in Hnd as [Hy Hnd].
  rewrite bool_decide_eq_false_2 by (apply Hseen; left).
  f_equal. apply IH; [done |].
  intros x Hx [-> | Hin]%elem_of_cons; [done |].
  apply (Hseen x); [by right | done].
Qed.

(** X14. [extractVideoIds] hands each referenced video on once: the
    result has no duplicates, has exactly the video ids of the hits as
    its members, keeps them in the order of their first occurrence (it is
    a subsequence of the hits' ids, and the whole of it if these are
    already distinct), so the detail fetch of the bridge path asks for no
    video twice. *)
Theorem extractVideoIds_distinct (hits : list SearchResult.t) :
  NoDup (extractVideoIds hits) ∧
  (∀ id, id ∈ extractVideoIds hits ↔ ∃ hit, hit ∈ hits ∧ SearchResult.videoId hit = id) ∧
  sublist (extractVideoIds hits) (SearchResult.videoId <$> hits) ∧
  JSString.distinct (extractVideoIds hits) = extractVideoIds hits ∧
  (length (extractVideoIds hits) ≤ length hits)%nat.
Proof.
  unfold extractVideoIds, JSString.distinct.
  destruct (distinctFrom_spec (SearchResult.videoId <$> hits) []) as (Hnd & Hin & Hsub).
  split; [done |]. split; [| split; [done |]]; [| split].
  - intros id. rewrite Hin, list_elem_of_fmap. split.
    + intros [(hit & -> & Hhit) _]. eauto.
    + intros (hit & Hhit & <-). split; [eauto | apply not_elem_of_nil].
  - by apply distinct_NoDup.
  - apply sublist_length in Hsub. by rewrite length_fmap in Hsub.
Qed.

End SearchServiceLaws.

(** ** Validation of the configured key *)

Module ValidationLaws.
Import ApiKeyValidation.

Lemma validKeyChar_not_space a : validKeyChar a = true → JSString.isSpace a = false.
Proof. destruct a as [[] [] [] [] [] [] [] []]; simpl; done. Qed.

Lemma trimEnd_nonempty a rest :
  JSString.isSpace a = false → JSString.trimEnd (String a rest) ≠ EmptyString.
Proof. intros Ha. simpl. rewrite Ha. by destruct (JSString.trimEnd rest). Qed.

Lemma allValid_not_blank s :
  s ≠ EmptyString → allValidKeyChars s = true → JSString.isBlank s = false.
Proof.
  destruct s as [|a rest]; [done |]. intros _ [Ha _]%andb_true_iff.
  apply validKeyChar_not_space in Ha.
  unfold JSString.isBlank, JSString.trim. cbn [JSString.trimStart]. rewrite Ha.
  pose proof (trimEnd_nonempty a rest Ha) as Hne.
  by destruct (JSString.trimEnd (String a rest)).
Qed.

(** X15. [validateApiKey] accepts exactly the keys of at least 30
    characters that consist of letters, digits, underscores and hyphens;
    the tests for a missing key and for the placeholder only choose the
    message. It reports an error exactly when it rejects, and the client
    constructor, which refuses a blank key, accepts every key that the
    validator accepts. *)
Theorem validateApiKey_accepts (apiKey : option string) :
  (isValid (validateApiKey apiKey) = true ↔
   ∃ s, apiKey = Some s ∧ (30 ≤ String.length s)%nat ∧ allValidKeyChars s = true) ∧
  (isValid (validateApiKey apiKey) = true ↔ error (validateApiKey apiKey) = None) ∧
  (∀ s config,
     apiKey = Some s → isValid (validateApiKey apiKey) = true →
     YouTubeAPIClient.cfgApiKey config = s →
     ∃ c, YouTubeAPIClient.new config = inr c ∧ YouTubeAPIClient.apiKey c = s).
Proof.
  assert (Hchar : isValid (validateApiKey apiKey) = true ↔
                  ∃ s, apiKey = Some s ∧ (30 ≤ String.length s)%nat
                       ∧ allValidKeyChars s = true).
  { destruct apiKey as [s|]; simpl.
    - split.
      + destruct (JSString.isBlank s); [done |].
        case_bool_decide; [done |].
        destruct (Nat.ltb_spec (String.length s) 30); [done |].
        unfold validKeyPattern.
        destruct (allValidKeyChars s) eqn:Hall; [| by rewrite andb_false_r].
        intros _. by exists s.
      + intros (s' & [= <-] & Hlen & Hall).
        assert (Hne : s ≠ EmptyString) by (intros ->; simpl in Hlen; lia).
        rewrite (allValid_not_blank s Hne Hall).
        rewrite bool_decide_eq_false_2 by (intros ->; simpl in Hlen; lia).
        destruct (Nat.ltb_spec (String.length s) 30); [lia |].
        unfold validKeyPattern. rewrite Hall.
        by destruct s.
    - split; [done |]. by intros (s & [=] & _). }
  split; [exact Hchar |]. split.
  - destruct apiKey as [s|]; simpl; [| done].
    destruct (JSString.isBlank s); [done |].
    case_bool_decide; [done |].
    destruct (String.length s <? 30)%nat; [done |].
    by destruct (negb (validKeyPattern s)).
  - intros s config -> Hvalid Hcfg.
    apply Hchar in Hvalid as (s' & [= <-] & Hlen & Hall).
    unfold YouTubeAPIClient.new. rewrite Hcfg.
    assert (Hne : s ≠ EmptyString) by (intros ->; simpl in Hlen; lia).
    rewrite (allValid_not_blank s Hne Hall).
    eexists. split; [done |]. done.
Qed.

Lemma validateApiKey_accepts_witness :
  let s := "AIzaSy_example-key_0123456789abcdefghi"%string in
  let config := YouTubeAPIClient.mkConfig s None None false None in
  (isValid (validateApiKey (Some s)) = true ∧ YouTubeAPIClient.cfgApiKey config = s) ∧
  ∃ c, YouTubeAPIClient.new config = inr c ∧ YouTubeAPIClient.apiKey c = s.
Proof.
  intros s config.
  assert (Hvalid : isValid (validateApiKey (Some s)) = true) by reflexivity.
  assert (Hcfg : YouTubeAPIClient.cfgApiKey config = s) by reflexivity.
  split; [by split |].
  exact (proj2 (proj2 (validateApiKey_accepts (Some s))) s config eq_refl Hvalid Hcfg).
Defined.

End ValidationLaws.

(** ** Further properties of the client *)

Module ClientLaws.
Import YouTubeAPIClient ClientSpec CallSpec CacheUseSpec ClientProps.

(** *** Batching of the detail fetch *)

Lemma batchesOf_sizes n : ∀ fuel l,
  Forall (fun batch => (1 ≤ length batch ≤ S n)%nat) (batchesOf fuel (S n) l).
Proof.
  induction fuel as [|fuel IH]; intros l; [destruct l; constructor |].
  destruct l as [|y l]; [constructor |]. cbn [batchesOf].
  constructor; [| apply IH].
  rewrite length_take. simpl. lia.
Qed.

Lemma batch_count (n : nat) : (1 ≤ n)%nat → ((n + 49) / 50 = S ((n - 50 + 49) / 50))%nat.
Proof.
  intros Hn. destruct (decide (50 ≤ n)%nat) as [Hge | Hlt].
  - replace (n + 49)%nat with ((n - 50 + 49) + 1 * 50)%nat by lia.
    rewrite Nat.div_add by done. lia.
  - replace (n - 50)%nat with 0%nat by lia.
    symmetry. apply (Nat.div_unique (n + 49) 50 1 (n - 1)); lia.
Qed.

Lemma batchesOf_count : ∀ fuel l,
  (length l ≤ fuel)%nat → length (batchesOf fuel 50 l) = ((length l + 49) / 50)%nat.
Proof.
  induction fuel as [|fuel IH]; intros l Hlen.
  - destruct l; [done | simpl in Hlen; lia].
  - destruct l as [|y l]; [done |].
    change (batchesOf (S fuel) 50 (y :: l))
      with (take 50 (y :: l) :: batchesOf fuel 50 (drop 50 (y :: l))).
    cbn [length]. rewrite IH by (rewrite length_drop; simpl in *; lia).
    rewrite length_drop. change (S (length l)) with (length (y :: l)).
    symmetry. apply batch_count. simpl. lia.
Qed.

Lemma fetchBatches_trace w c batches : ∀ acc st r st',
  fetchBatches w c batches acc st = (r, st') →
  cache st' = cache st ∧
  ∃ k, (k ≤ length batches)%nat ∧
       trace st' = trace st ++ (batchCall c <$> take k batches) ∧
       (∀ videos, r = inr videos → k = length batches) ∧
       (∀ t, r = inl t → (1 ≤ k)%nat) ∧
       ∀ j batch, (j < k)%nat → batches !! j = Some batch →
         (batchAnswered w c (length (trace st) + j) batch
          ↔ ¬ (S j = k ∧ ∃ t, r = inl t)).
Proof.
  induction batches as [|batch rest IH]; intros acc st r st' Hrun.
  { inversion Hrun; subst. split; [done |]. exists 0%nat. simpl.
    rewrite app_nil_r. repeat split; try done; lia. }
  cbn [fetchBatches] in Hrun.
  unfold bind at 1, requestVideos, requestOutcome in Hrun.
  assert (Hstop : ∀ t,
            (∀ items, videosEndpoint w (length (trace st)) (apiKey c)
                        (String.concat "," batch) ≠ Responded (BodyItems items)) →
            r = inl t →
            st' = mkState (cache st) (trace st ++ [batchCall c batch]) →
            cache st' = cache st ∧
            ∃ k, (k ≤ length (batch :: rest))%nat ∧
                 trace st' = trace st ++ (batchCall c <$> take k (batch :: rest)) ∧
                 (∀ videos, r = inr videos → k = length (batch :: rest)) ∧
                 (∀ t, r = inl t → (1 ≤ k)%nat) ∧
                 ∀ j b, (j < k)%nat → (batch :: rest) !! j = Some b →
                   (batchAnswered w c (length (trace st) + j) b
                    ↔ ¬ (S j = k ∧ ∃ t, r = inl t))).
  { intros t Hbad -> ->. split; [done |]. exists 1%nat. simpl.
    split; [lia |]. split; [done |]. split; [done |]. split; [done |].
    intros j b Hj Hb. assert (j = 0%nat) as -> by lia. injection Hb as <-.
    rewrite Nat.add_0_r. split.
    - intros [items Hitems]. by destruct (Hbad items).
    - intros Hnot. destruct Hnot. eauto. }
  destruct (videosEndpoint w (length (trace st)) (apiKey c) (String.concat "," batch))
    as [body|error] eqn:Hout.
  - unfold bind in Hrun at 1.
    destruct body as [| | |items]; simpl in Hrun; unfold throw, ret in Hrun.
    1-3: injection Hrun as <- <-; by eapply Hstop.
    destruct (IH _ _ _ _ Hrun) as (Hc & k & Hk & Ht & Hok & Hfail & Hans).
    cbn [trace] in Ht, Hans. split; [done |]. exists (S k).
    split; [simpl; lia |].
    split; [rewrite Ht; simpl; by rewrite <- app_assoc |].
    split; [intros videos Hr; simpl; by rewrite (Hok videos Hr) |].
    split; [intros; lia |].
    intros [|j] b Hj Hb.
    + injection Hb as <-. rewrite Nat.add_0_r. split.
      * intros _ [Hk1 [t Hr]]. specialize (Hfail t Hr). lia.
      * intros _. by exists items.
    + simpl in Hb. rewrite length_app in Hans. simpl in Hans.
      replace (length (trace st) + S j)%nat with (length (trace st) + 1 + j)%nat by lia.
      rewrite (Hans j b ltac:(lia) Hb). split.
      * intros Hnot [Hjk Hr]. apply Hnot. split; [lia | done].
      * intros Hnot [Hjk Hr]. apply Hnot. split; [lia | done].
  - injection Hrun as <- <-. by eapply Hstop.
Qed.

(** X16. [getVideoDetails] asks for the videos in batches: the ids are
    cut, in order, into batches of at most 50, none of them empty, so n
    ids make ceil(n / 50) batches that together are the list of ids. The
    calls it makes are the requests for the first k batches, in order,
    one request per batch. When it succeeds these are all the batches and
    each request was answered with a list of items. When it fails, k is
    at least 1, the first k - 1 requests were answered with a list of
    items and the k-th was not (it failed or its body was malformed):
    the first request that is not answered ends the fetch, and no
    request follows it. It makes no call for an empty list, and it never
    reads or writes the cache. *)
Theorem getVideoDetails_batches (w : World) (c : YouTubeAPIClient.t)
    (videoIds : list string) (st : State) :
  let batches := batchesOf (length videoIds) 50 videoIds in
  let r := (getVideoDetails w c videoIds st).1 in
  let st' := (getVideoDetails w c videoIds st).2 in
  concat batches = videoIds ∧
  Forall (fun batch => (1 ≤ length batch ≤ 50)%nat) batches ∧
  length batches = ((length videoIds + 49) / 50)%nat ∧
  cache st' = cache st ∧
  ∃ k, (k ≤ length batches)%nat ∧
       trace st' = trace st ++ (batchCall c <$> take k batches) ∧
       (∀ videos, r = inr videos → k = length batches) ∧
       (∀ t, r = inl t → (1 ≤ k)%nat) ∧
       ∀ j batch, (j < k)%nat → batches !! j = Some batch →
         (batchAnswered w c (length (trace st) + j) batch
          ↔ ¬ (S j = k ∧ ∃ t, r = inl t)).
Proof.
  intros batches r st'.
  split; [by apply batchesOf_concat |].
  split; [apply batchesOf_sizes |].
  split; [by apply batchesOf_count |].
  unfold r, st', getVideoDetails.
  destruct (length videoIds =? 0)%nat eqn:Hlen.
  { apply KeyManagerProps.length_zero_nil in Hlen. subst videoIds. simpl. split; [done |].
    exists 0%nat. simpl. rewrite app_nil_r. repeat split; try done; lia. }
  unfold handled, tryCatch.
  destruct (fetchBatches w c (batchesOf (length videoIds) 50 videoIds) [] st)
    as [[e|videos] st1] eqn:Hrun;
    destruct (fetchBatches_trace w c _ _ _ _ _ Hrun) as (Hc & k & Hk & Ht & Hok & Hfail & Hans);
    simpl; (split; [done |]); exists k; (split; [done |]); (split; [done |]).
  - split; [intros videos [=] |]. split; [intros t _; by apply (Hfail e) |].
    intros j batch Hj Hb. rewrite (Hans j batch Hj Hb). split.
    + intros Hnot [Hjk _]. apply Hnot. eauto.
    + intros Hnot [Hjk _]. apply Hnot. eauto.
  - split; [intros videos' _; by apply (Hok videos) |]. split; [intros t [=] |].
    intros j batch Hj Hb. rewrite (Hans j batch Hj Hb). split.
    + intros _ [_ [t [=]]].
    + intros _ [_ [t [=]]].
Qed.

Lemma getVideoDetails_batches_witness :
  let ids := replicate 51 "v1"%string in
  let run := getVideoDetails (agedWorld 0) plainClient ids emptyState in
  let failing := getVideoDetails quotaWorld plainClient ids emptyState in
  let batches := batchesOf 51 50 ids in
  ((∃ videos, run.1 = inr videos) ∧ (∃ t, failing.1 = inl t) ∧
   batches !! 0%nat = Some (replicate 50 "v1"%string)) ∧
  length batches = 2%nat ∧
  trace run.2 = batchCall plainClient <$> batches ∧
  (trace failing.2 = batchCall plainClient <$> take 1 batches ∧
   ¬ batchAnswered quotaWorld plainClient 0 (replicate 50 "v1"%string)).
Proof.
  intros ids run failing batches.
  assert (Hok : ∃ videos, run.1 = inr videos) by (vm_compute; eauto).
  assert (Hbad : ∃ t, failing.1 = inl t) by (vm_compute; eauto).
  assert (Hfirst : batches !! 0%nat = Some (replicate 50 "v1"%string)) by reflexivity.
  split; [by repeat split |].
  destruct (getVideoDetails_batches (agedWorld 0) plainClient ids emptyState)
    as (_ & _ & Hcount & _ & k & Hk & Ht & Hall & _).
  split; [exact Hcount |].
  split.
  { destruct Hok as [videos Hvideos].
    rewrite (Hall videos Hvideos), firstn_all in Ht. exact Ht. }
  destruct (getVideoDetails_batches quotaWorld plainClient ids emptyState)
    as (_ & _ & _ & _ & k' & Hk' & Ht' & _ & Hone & Hans).
  destruct Hbad as [t Hfail]. specialize (Hone t Hfail).
  assert (Hk1 : k' = 1%nat).
  { apply (f_equal length) in Ht'. rewrite length_app, length_fmap, length_take in Ht'.
    change (length (trace failing.2)) with 1%nat in Ht'. simpl in Ht'. lia. }
  subst k'. split; [exact Ht' |].
  intros Hanswered.
  apply (proj1 (Hans 0%nat (replicate 50 "v1"%string) ltac:(lia) Hfirst)); [exact Hanswered |].
  split; [reflexivity | eauto].
Defined.

(** *** What a successful call leaves in the cache *)

Lemma getChannelInfo_fetched w c channelId st channel st1 :
  JSString.isBlank channelId = false →
  (APICache.getChannel (clock w (length (trace st))) channelId (cache st)).1 = None →
  getChannelInfo w c channelId st = (inr channel, st1) →
  st1 = mkState
          (APICache.setChannel
             (clock w (length (trace st ++ [ProviderCall (apiKey c) (ReqChannels channelId)])))
             channelId channel None
             (APICache.getChannel (clock w (length (trace st))) channelId (cache st)).2)
          (trace st ++ [ProviderCall (apiKey c) (ReqChannels channelId)]).
Proof.
  intros Hb Hmiss. unfold getChannelInfo. rewrite Hb.
  unfold bind at 1, cacheGetChannel.
  destruct (APICache.getChannel (clock w (length (trace st))) channelId (cache st))
    as [o cache1]. simpl in Hmiss. subst o. cbn [snd].
  unfold handled, tryCatch, bind, requestChannels, requestOutcome. cbn [trace cache].
  destruct (channelsEndpoint w _ _ _) as [[| | |[|item items]]|error]; simpl;
    unfold throw, ret; intros [=]; by subst.
Qed.

Lemma getChannelInfo_refetch w c channelId st :
  JSString.isBlank channelId = false →
  (APICache.getChannel (clock w (length (trace st))) channelId (cache st)).1 = None →
  trace (getChannelInfo w c channelId st).2
    = trace st ++ [ProviderCall (apiKey c) (ReqChannels channelId)].
Proof.
  intros Hb Hmiss. unfold getChannelInfo. rewrite Hb.
  unfold bind at 1, cacheGetChannel.
  destruct (APICache.getChannel (clock w (length (trace st))) channelId (cache st))
    as [o cache1]. simpl in Hmiss. subst o.
  unfold handled, tryCatch, bind, requestChannels, requestOutcome. cbn [trace cache].
  by destruct (channelsEndpoint w _ _ _) as [[| | |[|item items]]|error].
Qed.

Lemma getChannel_duration now key ch :
  APICache.defaultCacheDuration (APICache.getChannel now key ch).2
    = APICache.defaultCacheDuration ch.
Proof. apply (CacheLaws.applyOp_duration ch (CacheSpec.GetChannel now key)). Qed.

(** X17. A channel that [getChannelInfo] has fetched is served from the
    cache for the default cache duration. If a call that was not served
    from the cache succeeds, it has made exactly one request, and a
    repetition at any time before the time of caching plus the default
    duration returns the same channel without any outbound call and
    leaves the state as it is; a repetition at or after that time makes
    the request again. *)
Theorem getChannelInfo_cached_for_default_duration (w : World)
    (c : YouTubeAPIClient.t) (channelId : string) (st st1 : State)
    (channel : Channel.t) :
  JSString.isBlank channelId = false →
  (APICache.getChannel (clock w (length (trace st))) channelId (cache st)).1 = None →
  getChannelInfo w c channelId st = (inr channel, st1) →
  let expiry :=
    clock w (length (trace st1)) + APICache.defaultCacheDuration (cache st) in
  trace st1 = trace st ++ [ProviderCall (apiKey c) (ReqChannels channelId)] ∧
  ∀ w2,
    (clock w2 (length (trace st1)) < expiry →
     getChannelInfo w2 c channelId st1 = (inr channel, st1)) ∧
    (expiry <= clock w2 (length (trace st1)) →
     trace (getChannelInfo w2 c channelId st1).2
       = trace st1 ++ [ProviderCall (apiKey c) (ReqChannels channelId)]).
Proof.
  intros Hb Hmiss Hrun expiry.
  pose proof (getChannelInfo_fetched w c channelId st channel st1 Hb Hmiss Hrun) as Hst1.
  assert (Htrace : trace st1 = trace st ++ [ProviderCall (apiKey c) (ReqChannels channelId)])
    by (by rewrite Hst1).
  split; [done |].
  assert (Hentry : APICache.channelCache (cache st1) !! channelId
                   = Some (mkCacheEntry channel (clock w (length (trace st1))) expiry)).
  { unfold expiry. rewrite Htrace. rewrite Hst1 at 1. cbn [cache].
    rewrite CacheLaws.setChannel_lookup. unfold APICache.ttlOf. simpl.
    by rewrite getChannel_duration. }
  intros w2. split.
  - intros Hlt. unfold getChannelInfo. rewrite Hb.
    unfold bind, cacheGetChannel.
    rewrite (CacheProps.getChannel_fresh _ channelId _ (cache st1) Hentry) by done.
    simpl. by destruct st1.
  - intros Hge. apply getChannelInfo_refetch; [done |].
    by rewrite (CacheProps.getChannel_stale _ channelId _ (cache st1) Hentry).
Qed.

Lemma getChannelInfo_cached_for_default_duration_witness :
  let st1 := (getChannelInfo (agedWorld 1000) plainClient "UC1" emptyState).2 in
  let channel := mapChannelItem (sampleChannelItem "UC1") in
  (JSString.isBlank "UC1" = false ∧
   (APICache.getChannel 1000 "UC1" (cache emptyState)).1 = None ∧
   getChannelInfo (agedWorld 1000) plainClient "UC1" emptyState = (inr channel, st1) ∧
   2000 < 1000 + APICache.defaultCacheDuration (cache emptyState) ∧
   1000 + APICache.defaultCacheDuration (cache emptyState) <= 14401000) ∧
  getChannelInfo (agedWorld 2000) plainClient "UC1" st1 = (inr channel, st1) ∧
  trace (getChannelInfo (agedWorld 14401000) plainClient "UC1" st1).2
    = trace st1 ++ [ProviderCall "K1" (ReqChannels "UC1")].
Proof.
  intros st1 channel.
  assert (Hb : JSString.isBlank "UC1" = false) by reflexivity.
  assert (Hmiss : (APICache.getChannel (clock (agedWorld 1000) (length (trace emptyState)))
                     "UC1" (cache emptyState)).1 = None) by reflexivity.
  assert (Hrun : getChannelInfo (agedWorld 1000) plainClient "UC1" emptyState
                 = (inr channel, st1)) by reflexivity.
  assert (Hlt : 2000 < 1000 + APICache.defaultCacheDuration (cache emptyState))
    by reflexivity.
  assert (Hge : 1000 + APICache.defaultCacheDuration (cache emptyState) <= 14401000)
    by discriminate.
  split; [by repeat split |].
  destruct (getChannelInfo_cached_for_default_duration (agedWorld 1000) plainClient "UC1"
              emptyState st1 channel Hb Hmiss Hrun) as [_ Hnext].
  split.
  - exact (proj1 (Hnext (agedWorld 2000)) Hlt).
  - exact (proj2 (Hnext (agedWorld 14401000)) Hge).
Defined.

Lemma searchChannelsViaAPI_cached w c query key st channels st1 :
  searchChannelsViaAPI w c query key st = (inr channels, st1) →
  channels ≠ [] →
  APICache.videoCache (cache st1) !! key
    = Some (mkCacheEntry (Channels channels) (clock w (length (trace st1)))
              (clock w (length (trace st1)) + 24 * 60 * 60 * 1000)).
Proof.
  unfold searchChannelsViaAPI.
  intros [(chs & [= <-] & Hrun) | (e & [=] & _)]%handled_inv Hne.
  apply bind_inv in Hrun as [(e & _ & [=]) | (body & st2 & _ & Hrun)].
  apply bind_inv in Hrun as [(e & _ & [=]) | (items & st3 & _ & Hrun)].
  cbv zeta in Hrun.
  destruct (length (YouTubeChannelSearchItem.channelId <$> items) =? 0)%nat.
  { inversion Hrun; subst. done. }
  apply bind_inv in Hrun as [(e & _ & [=]) | (chs & st4 & _ & Hrun)].
  apply bind_inv in Hrun as [(e & _ & [=]) | ([] & st5 & Hset & Hrun)].
  inversion Hrun; subst. inversion Hset; subst. cbn [cache trace].
  by rewrite CacheLaws.setVideos_lookup.
Qed.

Lemma searchChannelsViaService_cached w c query key st channels st1 :
  searchChannelsViaService w c query key st = (inr channels, st1) →
  channels ≠ [] →
  APICache.videoCache (cache st1) !! key
    = Some (mkCacheEntry (Channels channels) (clock w (length (trace st1)))
              (clock w (length (trace st1)) + 24 * 60 * 60 * 1000)).
Proof.
  unfold searchChannelsViaService.
  intros [(chs & [= <-] & Hrun) | (e & [=] & _)]%handled_inv Hne.
  apply bind_inv in Hrun as [(e & _ & [=]) | (hits & st2 & _ & Hrun)].
  destruct (length hits =? 0)%nat.
  { inversion Hrun; subst. done. }
  cbv zeta in Hrun.
  apply bind_inv in Hrun as [(e & _ & [=]) | (videos & st3 & _ & Hrun)].
  destruct (length (JSString.distinct (Video.channelId <$> videos)) =? 0)%nat.
  { inversion Hrun; subst. done. }
  apply bind_inv in Hrun as [(e & _ & [=]) | (chs & st4 & _ & Hrun)].
  apply bind_inv in Hrun as [(e & _ & [=]) | ([] & st5 & Hset & Hrun)].
  inversion Hrun; subst. inversion Hset; subst. cbn [cache trace].
  by rewrite CacheLaws.setVideos_lookup.
Qed.

Lemma tryBridge_Some_inv w c query key st channels st1 :
  tryBridge w c query key st = (inr (Some channels), st1) →
  ∃ st0, searchChannelsViaService w c query key st0 = (inr channels, st1).
Proof.
  unfold tryBridge. destruct (searchService c && useSearchService c); [| done].
  unfold tryCatch.
  destruct (bind (isHealthy w) _ st) as [[e|o] st2] eqn:Hrun; [done |].
  intros [= -> ->].
  apply bind_inv in Hrun as [(e & _ & [=]) | (healthy & st3 & _ & Hrun)].
  destruct healthy; [| done].
  apply bind_inv in Hrun as [(e & _ & [=]) | (chs & st4 & Hsvc & Hrun)].
  inversion Hrun; subst. eauto.
Qed.

(** X18. A search result that is not empty is served from the cache for
    24 hours. If a [searchChannels] call that was not served from the
    cache returns a non-empty list, then, at any time less than 24 hours
    after the time of caching, a search for any query with the same
    cache key returns the same list without any outbound call, to the
    bridge or to the provider, and leaves the state as it is. *)
Theorem searchChannels_result_cached_for_a_day (w : World) (c : YouTubeAPIClient.t)
    (query : string) (st st1 : State) (r : VideoCacheData) :
  JSString.isBlank query = false →
  (APICache.getVideos (clock w (length (trace st))) (searchCacheKey query) (cache st)).1
    = None →
  searchChannels w c query st = (inr r, st1) →
  r ≠ Channels [] →
  ∀ w2 query2,
    JSString.isBlank query2 = false →
    searchCacheKey query2 = searchCacheKey query →
    clock w2 (length (trace st1)) < clock w (length (trace st1)) + 24 * 60 * 60 * 1000 →
    searchChannels w2 c query2 st1 = (inr r, st1).
Proof.
  intros Hb Hmiss Hrun Hne w2 query2 Hb2 Hkey Hlt.
  assert (Hentry : APICache.videoCache (cache st1) !! searchCacheKey query
                   = Some (mkCacheEntry r (clock w (length (trace st1)))
                             (clock w (length (trace st1)) + 24 * 60 * 60 * 1000))).
  { destruct (APICache.getVideos (clock w (length (trace st))) (searchCacheKey query)
                (cache st)) as [o cache1] eqn:Hget. simpl in Hmiss. subst o.
    rewrite (searchChannels_miss w c query st cache1 Hb Hget) in Hrun.
    destruct (tryBridge w c query (searchCacheKey query) (mkState cache1 (trace st)))
      as [[e|[channels|]] st2] eqn:Hbr; [done | |].
    - injection Hrun as <- <-.
      apply tryBridge_Some_inv in Hbr as [st0 Hsvc].
      apply (searchChannelsViaService_cached w c query _ st0); [done |].
      intros ->. done.
    - destruct (searchChannelsViaAPI w c query (searchCacheKey query) st2)
        as [[e|channels] st3] eqn:Hapi; [done |].
      injection Hrun as <- <-.
      apply (searchChannelsViaAPI_cached w c query _ st2); [done |].
      intros ->. done. }
  unfold searchChannels. rewrite Hb2, Hkey.
  unfold bind, cacheGetVideos.
  rewrite (CacheProps.getVideos_fresh _ _ _ (cache st1) Hentry) by done.
  simpl. by destruct st1.
Qed.

Lemma searchChannels_result_cached_for_a_day_witness :
  let w := brokenBridgeWorld false in
  let run := searchChannels w bridgedClient "Cats" emptyState in
  let r := Channels [mapChannelItem (sampleChannelItem "UC1")] in
  (JSString.isBlank "Cats" = false ∧
   (APICache.getVideos 0 (searchCacheKey "Cats") (cache emptyState)).1 = None ∧
   run = (inr r, run.2) ∧ r ≠ Channels [] ∧
   JSString.isBlank "  cats " = false ∧
   searchCacheKey "  cats " = searchCacheKey "Cats" ∧
   86399999 < 0 + 24 * 60 * 60 * 1000) ∧
  searchChannels (deadWorld 86399999) bridgedClient "  cats " run.2 = (inr r, run.2).
Proof.
  intros w run r.
  assert (Hb : JSString.isBlank "Cats" = false) by reflexivity.
  assert (Hmiss : (APICache.getVideos (clock w (length (trace emptyState)))
                     (searchCacheKey "Cats") (cache emptyState)).1 = None)
    by reflexivity.
  assert (Hrun : searchChannels w bridgedClient "Cats" emptyState = (inr r, run.2))
    by reflexivity.
  assert (Hne : r ≠ Channels []) by discriminate.
  assert (Hb2 : JSString.isBlank "  cats " = false) by reflexivity.
  assert (Hkey : searchCacheKey "  cats " = searchCacheKey "Cats") by reflexivity.
  assert (Hlt : clock (deadWorld 86399999) (length (trace run.2))
                < clock w (length (trace run.2)) + 24 * 60 * 60 * 1000)
    by reflexivity.
  split; [by repeat split |].
  exact (searchChannels_result_cached_for_a_day w bridgedClient "Cats" emptyState run.2 r
           Hb Hmiss Hrun Hne (deadWorld 86399999) "  cats " Hb2 Hkey Hlt).
Defined.

(** *** Normalisation of the search key *)

Lemma isSpace_lowerChar a : JSString.isSpace (JSString.lowerChar a) = JSString.isSpace a.
Proof. by destruct a as [[] [] [] [] [] [] [] []]. Qed.

Lemma lowerChar_idem a : JSString.lowerChar (JSString.lowerChar a) = JSString.lowerChar a.
Proof. by destruct a as [[] [] [] [] [] [] [] []]. Qed.

Lemma toLowerCase_idem s :
  JSString.toLowerCase (JSString.toLowerCase s) = JSString.toLowerCase s.
Proof. induction s as [|a s IH]; simpl; [done |]. by rewrite lowerChar_idem, IH. Qed.

Lemma trimStart_toLowerCase s :
  JSString.trimStart (JSString.toLowerCase s) = JSString.toLowerCase (JSString.trimStart s).
Proof.
  induction s as [|a s IH]; simpl; [done |].
  rewrite isSpace_lowerChar. by destruct (JSString.isSpace a).
Qed.

Lemma trimEnd_toLowerCase s :
  JSString.trimEnd (JSString.toLowerCase s) = JSString.toLowerCase (JSString.trimEnd s).
Proof.
  induction s as [|a s IH]; simpl; [done |].
  rewrite IH, isSpace_lowerChar.
  destruct (JSString.trimEnd s); simpl; [| done].
  by destruct (JSString.isSpace a).
Qed.

Lemma trim_toLowerCase s :
  JSString.trim (JSString.toLowerCase s) = JSString.toLowerCase (JSString.trim s).
Proof. unfold JSString.trim. by rewrite trimStart_toLowerCase, trimEnd_toLowerCase. Qed.

Lemma trimStart_head s :
  JSString.trimStart s = EmptyString ∨
  ∃ a rest, JSString.trimStart s = String a rest ∧ JSString.isSpace a = false.
Proof.
  induction s as [|a s IH]; simpl; [by left |].
  destruct (JSString.isSpace a) eqn:Ha; [done |]. right. eauto.
Qed.

Lemma trimEnd_idem s : JSString.trimEnd (JSString.trimEnd s) = JSString.trimEnd s.
Proof.
  induction s as [|a s IH]; simpl; [done |].
  destruct (JSString.trimEnd s) as [|b r] eqn:Hr.
  - destruct (JSString.isSpace a) eqn:Ha; simpl; [done |]. by rewrite Ha.
  - cbn [JSString.trimEnd]. cbn [JSString.trimEnd] in IH. by rewrite IH.
Qed.

Lemma trim_idem s : JSString.trim (JSString.trim s) = JSString.trim s.
Proof.
  unfold JSString.trim.
  destruct (trimStart_head s) as [-> | (a & rest & -> & Ha)]; [done |].
  assert (Hhead : ∃ rest', JSString.trimEnd (String a rest) = String a rest').
  { simpl. rewrite Ha. destruct (JSString.trimEnd rest); eauto. }
  destruct Hhead as [rest' Hrest'].
  rewrite Hrest'. cbn [JSString.trimStart]. rewrite Ha, <- Hrest'.
  apply trimEnd_idem.
Qed.

(** X19. The cache key of a search does not depend on the case of the
    query's ASCII letters nor on white space around it: a query, the
    query trimmed and the query in lower case have the same key, and
    they are blank or not together. So a cached result is found again
    under every such variant of the query. *)
Theorem searchCacheKey_normalises (query : string) :
  searchCacheKey (JSString.trim query) = searchCacheKey query ∧
  searchCacheKey (JSString.toLowerCase query) = searchCacheKey query ∧
  searchCacheKey (JSString.toLowerCase (JSString.trim query)) = searchCacheKey query ∧
  JSString.isBlank (JSString.trim query) = JSString.isBlank query ∧
  JSString.isBlank (JSString.toLowerCase query) = JSString.isBlank query.
Proof.
  unfold searchCacheKey, JSString.isBlank.
  rewrite !trim_toLowerCase, !trim_idem, toLowerCase_idem.
  repeat split.
  clear. induction (JSString.trim query) as [|a s IH]; done.
Qed.

(** *** Failures of nested calls *)

Lemma handled_idem {A} (m : M A) st : handled (handled m) st = handled m st.
Proof. unfold handled, tryCatch, throw. by destruct (m st) as [[e|a] st1]. Qed.

(** X20. A failure of a nested call surfaces as it is. The error handler
    passes on a failure that has already been converted, so wrapping a
    computation twice is the same as wrapping it once; in particular,
    when [getChannelVideos] is not served from the cache and its channel
    lookup fails, [getChannelVideos] fails with the failure of
    [getChannelInfo] (for instance not-found, code 404), in the state the
    lookup left: no request for the uploads is made. *)
Theorem inner_failure_surfaces_unchanged (w : World) (c : YouTubeAPIClient.t)
    (channelId : string) (maxResultsArg : option Z) (st st1 : State) (t : Thrown) :
  let key := videosCacheKey channelId (default (maxResults c) maxResultsArg) in
  let looked := APICache.getVideos (clock w (length (trace st))) key (cache st) in
  JSString.isBlank channelId = false →
  looked.1 = None →
  getChannelInfo w c channelId (mkState looked.2 (trace st)) = (inl t, st1) →
  getChannelVideos w c channelId maxResultsArg st = (inl t, st1) ∧
  ∀ A (m : M A) st0, handled (handled m) st0 = handled m st0.
Proof.
  intros key looked Hb Hmiss Hinfo. split; [| intros; apply handled_idem].
  unfold getChannelVideos. rewrite Hb. unfold bind at 1, cacheGetVideos.
  fold key. fold looked. destruct looked as [o cache1]. simpl in Hmiss. subst o.
  cbn [snd] in Hinfo.
  destruct (getChannelInfo_throws _ _ _ _ _ _ Hinfo) as [e ->].
  unfold handled, tryCatch, bind at 1. rewrite Hinfo. done.
Qed.

Lemma inner_failure_surfaces_unchanged_witness :
  let failure :=
    ThrownAPIError (APIError.mk 404 "Channel not found"
                      "The channel you requested could not be found" false) in
  let st1 := mkState (cache emptyState) [ProviderCall "K1" (ReqChannels "UC404")] in
  (JSString.isBlank "UC404" = false ∧
   (APICache.getVideos 0 (videosCacheKey "UC404" 50) (cache emptyState)).1 = None ∧
   getChannelInfo emptyWorld plainClient "UC404" emptyState = (inl failure, st1)) ∧
  getChannelVideos emptyWorld plainClient "UC404" None emptyState = (inl failure, st1).
Proof.
  intros failure st1.
  assert (Hb : JSString.isBlank "UC404" = false) by reflexivity.
  assert (Hmiss : (APICache.getVideos (clock emptyWorld (length (trace emptyState)))
                     (videosCacheKey "UC404" (default (maxResults plainClient) None))
                     (cache emptyState)).1 = None) by reflexivity.
  assert (Hinfo : getChannelInfo emptyWorld plainClient "UC404"
                    (mkState (APICache.getVideos
                                (clock emptyWorld (length (trace emptyState)))
                                (videosCacheKey "UC404"
                                   (default (maxResults plainClient) None))
                                (cache emptyState)).2 (trace emptyState))
                  = (inl failure, st1)) by reflexivity.
  split; [by repeat split |].
  exact (proj1 (inner_failure_surfaces_unchanged emptyWorld plainClient "UC404" None
                  emptyState st1 failure Hb Hmiss Hinfo)).
Defined.

(** *** Which calls a method can make *)

#[local] Hint Resolve Emits_ret Emits_throw Emits_validateResponse Emits_now
  Emits_cacheGetVideos Emits_cacheGetChannel Emits_cacheSetVideos Emits_cacheSetChannel
  : emits.

Section Lookups.
Context (w : World) (c : YouTubeAPIClient.t) (P : Call → Prop).
Hypothesis Plookup : ∀ call, isLookup call → P call.

Lemma Calls_requestChannels id : Emits P (requestChannels w c id).
Proof.
  intros st r st' Hrun. eapply Emits_requestOutcome; [| exact Hrun].
  by apply Plookup.
Qed.

Lemma Calls_requestPlaylistItems id limit : Emits P (requestPlaylistItems w c id limit).
Proof.
  intros st r st' Hrun. eapply Emits_requestOutcome; [| exact Hrun].
  by apply Plookup.
Qed.

Lemma Calls_requestVideos id : Emits P (requestVideos w c id).
Proof.
  intros st r st' Hrun. eapply Emits_requestOutcome; [| exact Hrun].
  by apply Plookup.
Qed.

Hint Resolve Calls_requestChannels Calls_requestPlaylistItems Calls_requestVideos
  : emits.

Lemma Calls_fetchBatches batches : ∀ acc, Emits P (fetchBatches w c batches acc).
Proof.
  induction batches as [|batch rest IH]; intros acc; cbn [fetchBatches]; emits.
Qed.

Lemma Calls_getVideoDetails ids : Emits P (getVideoDetails w c ids).
Proof. unfold getVideoDetails. pose proof Calls_fetchBatches. emits. Qed.

Lemma Calls_getChannelsByIds ids : Emits P (getChannelsByIds w c ids).
Proof. unfold getChannelsByIds. emits. Qed.

Hint Resolve Calls_getVideoDetails Calls_getChannelsByIds : emits.

Lemma Calls_getChannelInfo id : Emits P (getChannelInfo w c id).
Proof. unfold getChannelInfo. emits. Qed.

Hint Resolve Calls_getChannelInfo : emits.

Lemma Calls_getChannelVideos id limit : Emits P (getChannelVideos w c id limit).
Proof. unfold getChannelVideos. emits. Qed.

(** What follows the search request in [searchChannelsViaAPI]. *)
Lemma Calls_afterSearch (outcome : Outcome YouTubeChannelSearchItem.t) key :
  Emits P (handled (fun st1 =>
    match outcome with
    | Failed error => (inl error, st1)
    | Responded body =>
        bind (validateResponse body) (fun items =>
          let channelIds := YouTubeChannelSearchItem.channelId <$> items in
          if (length channelIds =? 0)%nat then ret []
          else
            bind (getChannelsByIds w c channelIds) (fun channels =>
              bind (cacheSetVideos w key (Channels channels) (Some (24 * 60 * 60 * 1000)))
                   (fun _ => ret channels))) st1
    end)).
Proof.
  apply Emits_handled. destruct outcome as [body|error].
  - change (Emits P (bind (validateResponse body) (fun items =>
              let channelIds := YouTubeChannelSearchItem.channelId <$> items in
              if (length channelIds =? 0)%nat then ret []
              else
                bind (getChannelsByIds w c channelIds) (fun channels =>
                  bind (cacheSetVideos w key (Channels channels)
                          (Some (24 * 60 * 60 * 1000)))
                       (fun _ => ret channels))))).
    emits.
  - intros st r st' [= <- <-]. exists []. by rewrite app_nil_r.
Qed.

Section Bridge.
Hypothesis Pbridge : P BridgeHealth ∧ ∀ q, P (BridgeSearch q (searchLimit c)).

Lemma Calls_isHealthy : Emits P (isHealthy w).
Proof. apply Emits_isHealthy, Pbridge. Qed.

Lemma Calls_serviceSearchChannels query :
  Emits P (serviceSearchChannels w query (searchLimit c)).
Proof.
  unfold serviceSearchChannels.
  destruct (JSString.isBlank query); [apply Emits_throw |].
  intros st r st' [= <- <-]. eexists [_]. split; [done |].
  constructor; [apply Pbridge | constructor].
Qed.

Hint Resolve Calls_isHealthy Calls_serviceSearchChannels : emits.

Lemma Calls_searchChannelsViaService query key :
  Emits P (searchChannelsViaService w c query key).
Proof. unfold searchChannelsViaService. emits. Qed.

Hint Resolve Calls_searchChannelsViaService : emits.

Lemma Calls_tryBridge query key : Emits P (tryBridge w c query key).
Proof. unfold tryBridge. emits. Qed.

Section Search.
Hypothesis Psearch : ∀ q, P (ProviderCall (apiKey c) (ReqSearch q (searchLimit c))).

Lemma Calls_requestSearch q : Emits P (requestSearch w c q (searchLimit c)).
Proof.
  intros st r st' Hrun. eapply Emits_requestOutcome; [| exact Hrun].
  apply Psearch.
Qed.

Hint Resolve Calls_requestSearch Calls_tryBridge : emits.

Lemma Calls_searchChannelsViaAPI query key :
  Emits P (searchChannelsViaAPI w c query key).
Proof. unfold searchChannelsViaAPI. emits. Qed.

Hint Resolve Calls_searchChannelsViaAPI : emits.

Lemma Calls_searchChannels query : Emits P (searchChannels w c query).
Proof. unfold searchChannels. emits. Qed.
End Search.
End Bridge.
End Lookups.

Lemma isLookup_withinSearchCap call : isLookup call → withinSearchCap call.
Proof. by destruct call as [key [] | |]. Qed.

Lemma isLookup_sparesSearchEndpoint call : isLookup call → sparesSearchEndpoint call.
Proof. by destruct call as [key [] | |]. Qed.

(** X21. A search never asks for more than 25 results, whatever
    [maxResults] the client is configured with: every call that
    [searchChannels] makes to the provider's search endpoint or to the
    bridge's search carries a limit of at most 25. *)
Theorem search_requests_capped (w : World) (c : YouTubeAPIClient.t) (query : string) :
  Emits withinSearchCap (searchChannels w c query).
Proof.
  apply Calls_searchChannels.
  - apply isLookup_withinSearchCap.
  - split; [done |]. intros q. simpl. unfold searchLimit. lia.
  - intros q. simpl. unfold searchLimit. lia.
Qed.

(** X22. The search endpoint of the provider, the expensive call, is
    used sparingly. [getChannelInfo], [getChannelVideos] and
    [getVideoDetails] call neither a search nor the bridge. The calls of
    a [searchChannels] call are those of the bridge phase, none of which
    is a search of the provider, followed either by nothing (the result
    came from the cache or from the bridge, or the query was blank) or by
    exactly one search of the provider, for the query and with the capped
    limit, and lookups after it. *)
Theorem native_search_at_most_once (w : World) (c : YouTubeAPIClient.t) :
  (∀ id, Emits isLookup (getChannelInfo w c id)) ∧
  (∀ id limit, Emits isLookup (getChannelVideos w c id limit)) ∧
  (∀ ids, Emits isLookup (getVideoDetails w c ids)) ∧
  (∀ query st,
     ∃ bridge native,
       trace (searchChannels w c query st).2 = trace st ++ bridge ++ native ∧
       Forall sparesSearchEndpoint bridge ∧
       (native = [] ∨
        ∃ lookups,
          native = ProviderCall (apiKey c) (ReqSearch query (searchLimit c)) :: lookups ∧
          Forall isLookup lookups)).
Proof.
  split; [intros; by apply Calls_getChannelInfo |].
  split; [intros; by apply Calls_getChannelVideos |].
  split; [intros; by apply Calls_getVideoDetails |].
  intros query st.
  destruct (JSString.isBlank query) eqn:Hb.
  { exists [], []. unfold searchChannels. rewrite Hb. simpl.
    split; [by rewrite app_nil_r |]. split; [constructor | by left]. }
  destruct (APICache.getVideos (clock w (length (trace st))) (searchCacheKey query)
              (cache st)) as [[cached|] cache1] eqn:Hget.
  { exists [], []. unfold searchChannels. rewrite Hb.
    unfold bind, cacheGetVideos. rewrite Hget. simpl.
    split; [by rewrite app_nil_r |]. split; [constructor | by left]. }
  rewrite (searchChannels_miss w c query st cache1 Hb Hget).
  destruct (tryBridge w c query (searchCacheKey query) (mkState cache1 (trace st)))
    as [o st1] eqn:Hbr.
  destruct (Calls_tryBridge w c sparesSearchEndpoint isLookup_sparesSearchEndpoint
              (conj I (fun _ => I)) query _ _ _ _ Hbr) as (bridge & Hbt & Hbridge).
  cbn [trace] in Hbt.
  destruct o as [e|[channels|]].
  - exists bridge, []. simpl. rewrite app_nil_r. split; [done |]. split; [done | by left].
  - exists bridge, []. simpl. rewrite app_nil_r. split; [done |]. split; [done | by left].
  - rewrite searchChannelsViaAPI_first.
    destruct (handled _ (mkState (cache st1)
                (trace st1 ++ [ProviderCall (apiKey c) (ReqSearch query (searchLimit c))])))
      as [r st2] eqn:Hrest.
    destruct (Calls_afterSearch w c isLookup (fun _ H => H) _ _ _ _ _ Hrest)
      as (lookups & Hlt & Hlookups).
    cbn [trace] in Hlt.
    exists bridge, (ProviderCall (apiKey c) (ReqSearch query (searchLimit c)) :: lookups).
    split.
    + unfold asChannels. destruct r; simpl; rewrite Hlt, Hbt, <- !app_assoc; done.
    + split; [done |]. right. eauto.
Qed.

(** *** Which cache entries a method can change *)

Section Keeping.
Context (I : APICache.t → Prop).

Lemma Keeps_ret {A} (a : A) : Keeps I (ret a).
Proof. by intros st r st' [= <- <-]. Qed.

Lemma Keeps_throw {A} e : Keeps I (@throw A e).
Proof. by intros st r st' [= <- <-]. Qed.

Lemma Keeps_bind {A B} (m : M A) (k : A → M B) :
  Keeps I m → (∀ a, Keeps I (k a)) → Keeps I (bind m k).
Proof.
  intros Hm Hk st r st' Hrun HI.
  apply bind_inv in Hrun as [(e & Hrun & ->) | (a & st1 & Hrun & Hrest)].
  - eapply Hm; eauto.
  - eapply Hk; eauto.
Qed.

Lemma Keeps_tryCatch {A} (m : M A) (h : Thrown → M A) :
  Keeps I m → (∀ e, Keeps I (h e)) → Keeps I (tryCatch m h).
Proof.
  intros Hm Hh st r st' Hrun HI. unfold tryCatch in Hrun.
  destruct (m st) as [[e|a] st1] eqn:Hmst.
  - eapply Hh; eauto.
  - inversion Hrun; subst. eapply Hm; eauto.
Qed.

Lemma Keeps_handled {A} (m : M A) : Keeps I m → Keeps I (handled m).
Proof. intros Hm. apply Keeps_tryCatch; [done |]. intros e. apply Keeps_throw. Qed.

Lemma Keeps_validateResponse {T} (body : Body T) : Keeps I (validateResponse body).
Proof. destruct body; simpl; (apply Keeps_throw || apply Keeps_ret). Qed.

Lemma Keeps_now w : Keeps I (now w).
Proof. by intros st r st' [= <- <-]. Qed.

Lemma Keeps_requestOutcome {T} (outcome : Outcome T) call :
  Keeps I (requestOutcome outcome call).
Proof.
  intros st r st' Hrun. unfold requestOutcome in Hrun.
  by destruct outcome; inversion Hrun; subst.
Qed.

Lemma Keeps_requestSearch w c q limit : Keeps I (requestSearch w c q limit).
Proof. intros st r st' Hrun. eapply Keeps_requestOutcome, Hrun. Qed.

Lemma Keeps_requestChannels w c id : Keeps I (requestChannels w c id).
Proof. intros st r st' Hrun. eapply Keeps_requestOutcome, Hrun. Qed.

Lemma Keeps_requestPlaylistItems w c id limit :
  Keeps I (requestPlaylistItems w c id limit).
Proof. intros st r st' Hrun. eapply Keeps_requestOutcome, Hrun. Qed.

Lemma Keeps_requestVideos w c id : Keeps I (requestVideos w c id).
Proof. intros st r st' Hrun. eapply Keeps_requestOutcome, Hrun. Qed.

Lemma Keeps_isHealthy w : Keeps I (isHealthy w).
Proof. by intros st r st' [= <- <-]. Qed.

Lemma Keeps_serviceSearchChannels w query limit :
  Keeps I (serviceSearchChannels w query limit).
Proof.
  unfold serviceSearchChannels.
  destruct (JSString.isBlank query); [apply Keeps_throw |].
  by intros st r st' [= <- <-].
Qed.

Lemma Keeps_cacheGetVideos w key :
  (∀ now ch, I ch → I (APICache.getVideos now key ch).2) →
  Keeps I (cacheGetVideos w key).
Proof.
  intros Hget st r st' Hrun HI. unfold cacheGetVideos in Hrun.
  pose proof (Hget (clock w (length (trace st))) (cache st) HI) as H.
  destruct (APICache.getVideos _ key (cache st)) as [x cache'].
  by inversion Hrun; subst.
Qed.

Lemma Keeps_cacheGetChannel w key :
  (∀ now ch, I ch → I (APICache.getChannel now key ch).2) →
  Keeps I (cacheGetChannel w key).
Proof.
  intros Hget st r st' Hrun HI. unfold cacheGetChannel in Hrun.
  pose proof (Hget (clock w (length (trace st))) (cache st) HI) as H.
  destruct (APICache.getChannel _ key (cache st)) as [x cache'].
  by inversion Hrun; subst.
Qed.

Lemma Keeps_cacheSetVideos w key v d :
  (∀ now ch, I ch → I (APICache.setVideos now key v d ch)) →
  Keeps I (cacheSetVideos w key v d).
Proof. intros Hset st r st' [= <- <-] HI. by apply Hset. Qed.

Lemma Keeps_cacheSetChannel w key x d :
  (∀ now ch, I ch → I (APICache.setChannel now key x d ch)) →
  Keeps I (cacheSetChannel w key x d).
Proof. intros Hset st r st' [= <- <-] HI. by apply Hset. Qed.
End Keeping.

Create HintDb keeps discriminated.
#[local] Hint Resolve Keeps_ret Keeps_throw Keeps_validateResponse Keeps_now
  Keeps_requestSearch Keeps_requestChannels Keeps_requestPlaylistItems
  Keeps_requestVideos Keeps_isHealthy Keeps_serviceSearchChannels
  Keeps_cacheGetVideos Keeps_cacheGetChannel Keeps_cacheSetVideos Keeps_cacheSetChannel
  : keeps.

(** Walks through a computation of the client as [emits] does. *)
Ltac keeps :=
  repeat first
    [ solve [eauto with keeps]
    | apply Keeps_handled
    | apply Keeps_bind; [| intros ?]
    | apply Keeps_tryCatch; [| intros ?]
    | progress cbv zeta
    | match goal with
      | |- Keeps _ (if ?b then _ else _) => destruct b
      | |- Keeps _ (match ?x with _ => _ end) => destruct x
      end ].

Section ClientKeeping.
Context (w : World) (c : YouTubeAPIClient.t) (I : APICache.t → Prop).

Lemma Keeps_fetchBatches batches : ∀ acc, Keeps I (fetchBatches w c batches acc).
Proof.
  induction batches as [|batch rest IH]; intros acc; cbn [fetchBatches]; keeps.
Qed.

Lemma Keeps_getVideoDetails ids : Keeps I (getVideoDetails w c ids).
Proof. unfold getVideoDetails. pose proof Keeps_fetchBatches. keeps. Qed.

Lemma Keeps_getChannelsByIds ids : Keeps I (getChannelsByIds w c ids).
Proof. unfold getChannelsByIds. keeps. Qed.

Hint Resolve Keeps_getVideoDetails Keeps_getChannelsByIds : keeps.

Lemma Keeps_getChannelInfo id :
  (∀ now ch, I ch → I (APICache.getChannel now id ch).2) →
  (∀ now x d ch, I ch → I (APICache.setChannel now id x d ch)) →
  Keeps I (getChannelInfo w c id).
Proof. intros Hget Hset. unfold getChannelInfo. keeps. Qed.

Lemma Keeps_searchChannelsViaService query key :
  (∀ now channels d ch, I ch → I (APICache.setVideos now key (Channels channels) d ch)) →
  Keeps I (searchChannelsViaService w c query key).
Proof. intros Hset. unfold searchChannelsViaService. keeps. Qed.

Lemma Keeps_searchChannelsViaAPI query key :
  (∀ now channels d ch, I ch → I (APICache.setVideos now key (Channels channels) d ch)) →
  Keeps I (searchChannelsViaAPI w c query key).
Proof. intros Hset. unfold searchChannelsViaAPI. keeps. Qed.

Lemma Keeps_tryBridge query key :
  (∀ now channels d ch, I ch → I (APICache.setVideos now key (Channels channels) d ch)) →
  Keeps I (tryBridge w c query key).
Proof.
  intros Hset. pose proof (Keeps_searchChannelsViaService query key Hset).
  unfold tryBridge. keeps.
Qed.

Lemma Keeps_searchChannels query :
  (∀ now ch, I ch → I (APICache.getVideos now (searchCacheKey query) ch).2) →
  (∀ now channels d ch,
     I ch → I (APICache.setVideos now (searchCacheKey query) (Channels channels) d ch)) →
  Keeps I (searchChannels w c query).
Proof.
  intros Hget Hset.
  pose proof (Keeps_tryBridge query (searchCacheKey query) Hset).
  pose proof (Keeps_searchChannelsViaAPI query (searchCacheKey query) Hset).
  unfold searchChannels. keeps.
Qed.

Lemma Keeps_getChannelVideos id limit :
  let key := videosCacheKey id (default (maxResults c) limit) in
  (∀ now ch, I ch → I (APICache.getVideos now key ch).2) →
  (∀ now videos d ch, I ch → I (APICache.setVideos now key (Videos videos) d ch)) →
  (∀ now ch, I ch → I (APICache.getChannel now id ch).2) →
  (∀ now x d ch, I ch → I (APICache.setChannel now id x d ch)) →
  Keeps I (getChannelVideos w c id limit).
Proof.
  intros key Hget Hset HgetC HsetC.
  pose proof (Keeps_getChannelInfo id HgetC HsetC).
  unfold getChannelVideos. fold key. keeps.
Qed.
End ClientKeeping.

Lemma Keeps_run {A} (I : APICache.t → Prop) (m : M A) st :
  Keeps I m → I (cache st) → I (cache (m st).2).
Proof. intros Hm HI. destruct (m st) as [r st'] eqn:Hrun. by apply (Hm _ _ _ Hrun). Qed.

Lemma getChannel_videoCache now key ch :
  APICache.videoCache (APICache.getChannel now key ch).2 = APICache.videoCache ch.
Proof.
  unfold APICache.getChannel. destruct (APICache.channelCache ch !! key) as [entry|]; [| done].
  by destruct (expiresAt entry <=? now).
Qed.

Lemma getVideos_channelCache now key ch :
  APICache.channelCache (APICache.getVideos now key ch).2 = APICache.channelCache ch.
Proof.
  unfold APICache.getVideos. destruct (APICache.videoCache ch !! key) as [entry|]; [| done].
  by destruct (expiresAt entry <=? now).
Qed.

Lemma getVideos_duration now key ch :
  APICache.defaultCacheDuration (APICache.getVideos now key ch).2
    = APICache.defaultCacheDuration ch.
Proof. apply (CacheLaws.applyOp_duration ch (CacheSpec.GetVideos now key)). Qed.

Lemma getVideos_other now key ch k :
  key ≠ k →
  APICache.videoCache (APICache.getVideos now key ch).2 !! k = APICache.videoCache ch !! k.
Proof.
  intros Hne. apply (CacheLaws.applyOp_videos ch (CacheSpec.GetVideos now key) k).
  by apply bool_decide_eq_false.
Qed.

Lemma getChannel_other now key ch k :
  key ≠ k →
  APICache.channelCache (APICache.getChannel now key ch).2 !! k
    = APICache.channelCache ch !! k.
Proof.
  intros Hne. apply (CacheLaws.applyOp_channels ch (CacheSpec.GetChannel now key) k).
  by apply bool_decide_eq_false.
Qed.

(** X23. A public method changes the cache only under its own keys.
    [searchChannels] reads and writes the video cache only under the key
    of its query, [getChannelVideos] only under the key of its channel
    and limit; [getChannelInfo] and [getVideoDetails] leave the video
    cache alone. The channel cache is changed only by [getChannelInfo]
    and [getChannelVideos], and only under their channel id. No method
    changes the default duration. This holds whether the call succeeds
    or fails. *)
Theorem method_changes_only_its_entries (w : World) (c : YouTubeAPIClient.t)
    (m : Method) (st : State) (k : string) :
  let st' := stateAfter w c m st in
  (videoKeyOf c m ≠ Some k →
   APICache.videoCache (cache st') !! k = APICache.videoCache (cache st) !! k) ∧
  (channelKeyOf m ≠ Some k →
   APICache.channelCache (cache st') !! k = APICache.channelCache (cache st) !! k) ∧
  APICache.defaultCacheDuration (cache st') = APICache.defaultCacheDuration (cache st).
Proof.
  intros st'. split; [| split].
  - intros Hk.
    set (I := fun ch => APICache.videoCache ch !! k = APICache.videoCache (cache st) !! k).
    assert (HgetC : ∀ id now ch, I ch → I (APICache.getChannel now id ch).2)
      by (intros id now ch HI; unfold I; by rewrite getChannel_videoCache).
    assert (HsetC : ∀ id now x d ch, I ch → I (APICache.setChannel now id x d ch))
      by (intros; done).
    assert (Hget : ∀ key, key ≠ k → ∀ now ch, I ch → I (APICache.getVideos now key ch).2)
      by (intros key Hne now ch HI; unfold I; by rewrite getVideos_other).
    assert (Hset : ∀ key, key ≠ k →
              ∀ now v d ch, I ch → I (APICache.setVideos now key v d ch))
      by (intros key Hne now v d ch HI; unfold I; simpl; by rewrite lookup_insert_ne).
    change (I (cache st')). unfold st'.
    destruct m as [query | id | id limit | ids]; cbn [stateAfter videoKeyOf] in *;
      apply Keeps_run; try done.
    + assert (Hne : searchCacheKey query ≠ k) by congruence.
      apply Keeps_searchChannels; [by apply Hget | intros; by apply Hset].
    + apply Keeps_getChannelInfo; [apply HgetC | apply HsetC].
    + assert (Hne : videosCacheKey id (default (maxResults c) limit) ≠ k) by congruence.
      apply Keeps_getChannelVideos;
        [by apply Hget | intros; by apply Hset | apply HgetC | apply HsetC].
    + apply Keeps_getVideoDetails.
  - intros Hk.
    set (I := fun ch => APICache.channelCache ch !! k
                        = APICache.channelCache (cache st) !! k).
    assert (Hget : ∀ key now ch, I ch → I (APICache.getVideos now key ch).2)
      by (intros key now ch HI; unfold I; by rewrite getVideos_channelCache).
    assert (Hset : ∀ key now v d ch, I ch → I (APICache.setVideos now key v d ch))
      by (intros; done).
    assert (HgetC : ∀ id, id ≠ k → ∀ now ch, I ch → I (APICache.getChannel now id ch).2)
      by (intros id Hne now ch HI; unfold I; by rewrite getChannel_other).
    assert (HsetC : ∀ id, id ≠ k →
              ∀ now x d ch, I ch → I (APICache.setChannel now id x d ch))
      by (intros id Hne now x d ch HI; unfold I; simpl; by rewrite lookup_insert_ne).
    change (I (cache st')). unfold st'.
    destruct m as [query | id | id limit | ids]; cbn [stateAfter channelKeyOf] in *;
      apply Keeps_run; try done.
    + apply Keeps_searchChannels; [apply Hget | intros; apply Hset; done].
    + assert (Hne : id ≠ k) by congruence.
      apply Keeps_getChannelInfo; [by apply HgetC | by apply HsetC].
    + assert (Hne : id ≠ k) by congruence.
      apply Keeps_getChannelVideos;
        [apply Hget | intros; apply Hset; done | by apply HgetC | by apply HsetC].
    + apply Keeps_getVideoDetails.
  - set (I := fun ch => APICache.defaultCacheDuration ch
                        = APICache.defaultCacheDuration (cache st)).
    assert (Hget : ∀ key now ch, I ch → I (APICache.getVideos now key ch).2)
      by (intros key now ch HI; unfold I; by rewrite getVideos_duration).
    assert (HgetC : ∀ id now ch, I ch → I (APICache.getChannel now id ch).2)
      by (intros id now ch HI; unfold I; by rewrite getChannel_duration).
    change (I (cache st')). unfold st'.
    destruct m as [query | id | id limit | ids]; cbn [stateAfter];
      apply Keeps_run; try done.
    + apply Keeps_searchChannels; [apply Hget | by intros].
    + apply Keeps_getChannelInfo; [apply HgetC | by intros].
    + apply Keeps_getChannelVideos; [apply Hget | by intros | apply HgetC | by intros].
    + apply Keeps_getVideoDetails.
Qed.

Lemma method_changes_only_its_entries_witness :
  let st := mkState (APICache.setVideos 0 (searchCacheKey "dogs") (Channels []) None
                       (APICache.new None)) [] in
  let st' := stateAfter (brokenBridgeWorld false) bridgedClient (SearchChannels "Cats") st in
  (videoKeyOf bridgedClient (SearchChannels "Cats") ≠ Some (searchCacheKey "dogs") ∧
   channelKeyOf (SearchChannels "Cats") ≠ Some "UC1"%string) ∧
  APICache.videoCache (cache st') !! searchCacheKey "dogs"
    = APICache.videoCache (cache st) !! searchCacheKey "dogs" ∧
  APICache.channelCache (cache st') !! "UC1" = APICache.channelCache (cache st) !! "UC1".
Proof.
  intros st st'.
  assert (Hv : videoKeyOf bridgedClient (SearchChannels "Cats")
               ≠ Some (searchCacheKey "dogs")) by discriminate.
  assert (Hc : channelKeyOf (SearchChannels "Cats") ≠ Some "UC1"%string) by discriminate.
  split; [by split |].
  destruct (method_changes_only_its_entries (brokenBridgeWorld false) bridgedClient
              (SearchChannels "Cats") st (searchCacheKey "dogs")) as (H1 & _ & _).
  destruct (method_changes_only_its_entries (brokenBridgeWorld false) bridgedClient
              (SearchChannels "Cats") st "UC1") as (_ & H2 & _).
  split; [exact (H1 Hv) | exact (H2 Hc)].
Defined.

(** *** The arrays of the video cache *)

Lemma wellTyped_getVideos now key ch :
  wellTyped ch → wellTyped (APICache.getVideos now key ch).2.
Proof.
  intros HT k entry. unfold APICache.getVideos.
  destruct (APICache.videoCache ch !! key) as [e|]; [| apply HT].
  destruct (expiresAt e <=? now); [| apply HT]. simpl.
  intros [_ Hk]%lookup_delete_Some. by apply HT.
Qed.

Lemma wellTyped_getChannel now key ch :
  wellTyped ch → wellTyped (APICache.getChannel now key ch).2.
Proof. intros HT k entry. rewrite getChannel_videoCache. apply HT. Qed.

Lemma wellTyped_setChannel now key x d ch :
  wellTyped ch → wellTyped (APICache.setChannel now key x d ch).
Proof. intros HT k entry. apply HT. Qed.

Lemma wellTyped_setVideos now key v d ch :
  match v with
  | Channels _ => String.prefix "search:" key = true
  | Videos _ => String.prefix "videos:" key = true
  end →
  wellTyped ch → wellTyped (APICache.setVideos now key v d ch).
Proof.
  intros Hv HT k entry. simpl.
  intros [[<- <-] | [_ Hk]]%lookup_insert_Some; [done | by apply HT].
Qed.

Lemma prefix_app (s t : string) : String.prefix s (s +:+ t) = true.
Proof.
  induction s as [|a s IH]; simpl; [by destruct t |].
  by destruct (Ascii.ascii_dec a a).
Qed.

Lemma searchCacheKey_kind query :
  String.prefix "search:" (searchCacheKey query) = true ∧
  String.prefix "videos:" (searchCacheKey query) = false.
Proof. split; [apply prefix_app | reflexivity]. Qed.

Lemma videosCacheKey_kind channelId limit :
  String.prefix "videos:" (videosCacheKey channelId limit) = true ∧
  String.prefix "search:" (videosCacheKey channelId limit) = false.
Proof. split; [apply prefix_app | reflexivity]. Qed.

Lemma wellTyped_method w c m : Keeps wellTyped (fun st => (inr tt, stateAfter w c m st)).
Proof.
  intros st r st' [= _ <-] HT.
  destruct m as [query | id | id limit | ids]; cbn [stateAfter]; apply Keeps_run;
    try done.
  - apply Keeps_searchChannels.
    + intros. by apply wellTyped_getVideos.
    + intros. apply wellTyped_setVideos; [apply searchCacheKey_kind | done].
  - apply Keeps_getChannelInfo.
    + intros. by apply wellTyped_getChannel.
    + intros. by apply wellTyped_setChannel.
  - apply Keeps_getChannelVideos.
    + intros. by apply wellTyped_getVideos.
    + intros. apply wellTyped_setVideos; [exact (proj1 (videosCacheKey_kind id _)) | done].
    + intros. by apply wellTyped_getChannel.
    + intros. by apply wellTyped_setChannel.
  - apply Keeps_getVideoDetails.
Qed.

Lemma wellTyped_runAll c calls : ∀ st,
  wellTyped (cache st) → wellTyped (cache (runAll c calls st)).
Proof.
  unfold runAll. induction calls as [|[w m] calls IH]; intros st HT; [done |].
  simpl. apply IH. by apply (wellTyped_method w c m st (inr tt) _ eq_refl).
Qed.

Lemma getVideos_hit_entry now key ch cached cache' :
  APICache.getVideos now key ch = (Some cached, cache') →
  ∃ entry, APICache.videoCache ch !! key = Some entry ∧ data entry = cached.
Proof.
  unfold APICache.getVideos. destruct (APICache.videoCache ch !! key) as [entry|]; [| done].
  destruct (expiresAt entry <=? now); [done |]. intros [= <- <-]. eauto.
Qed.

(** X24. The cast that lets the video cache hold the channels of a
    search is safe. The client stores the channels of a search and the
    videos of a channel in the same map; as the keys of searches and the
    keys of uploads never coincide, the map stays well typed (every
    array is of the kind its key announces) under any sequence of calls
    of the public methods, whatever the provider, the bridge and the
    clock do. An empty cache is well typed, and on a well-typed cache a
    successful [searchChannels] returns channels and a successful
    [getChannelVideos] returns videos, served from the cache or not. *)
Theorem cached_arrays_keep_their_kind (c : YouTubeAPIClient.t)
    (calls : list (World * Method)) (st0 : State) :
  wellTyped (cache st0) →
  let st := runAll c calls st0 in
  wellTyped (cache st) ∧
  (∀ duration, wellTyped (APICache.new duration)) ∧
  (∀ query channelId limit, searchCacheKey query ≠ videosCacheKey channelId limit) ∧
  ∀ w,
    (∀ query r st', searchChannels w c query st = (inr r, st') →
                    ∃ channels, r = Channels channels) ∧
    (∀ channelId limit r st', getChannelVideos w c channelId limit st = (inr r, st') →
                              ∃ videos, r = Videos videos).
Proof.
  intros HT0 st.
  assert (HT : wellTyped (cache st)) by (by apply wellTyped_runAll).
  split; [done |].
  split; [intros duration key entry; simpl; by rewrite lookup_empty |].
  split; [by intros query channelId limit |]. intros w. split.
  - intros query r st' Hrun.
    destruct (JSString.isBlank query) eqn:Hb.
    { unfold searchChannels in Hrun. by rewrite Hb in Hrun. }
    destruct (APICache.getVideos (clock w (length (trace st))) (searchCacheKey query)
                (cache st)) as [[cached|] cache1] eqn:Hget.
    + unfold searchChannels in Hrun. rewrite Hb in Hrun.
      unfold bind, cacheGetVideos in Hrun. rewrite Hget in Hrun.
      injection Hrun as <- <-.
      apply getVideos_hit_entry in Hget as (entry & Hentry & <-).
      specialize (HT _ _ Hentry).
      destruct (data entry); [| eauto].
      by rewrite (proj2 (searchCacheKey_kind query)) in HT.
    + rewrite (searchChannels_miss w c query st cache1 Hb Hget) in Hrun.
      destruct (tryBridge w c query _ _) as [[e|[channels|]] st1]; [done | |].
      * injection Hrun as <- <-. eauto.
      * unfold asChannels in Hrun.
        destruct (searchChannelsViaAPI w c query _ st1) as [[e|channels] st2]; [done |].
        injection Hrun as <- <-. eauto.
  - intros channelId limit r st' Hrun.
    destruct (JSString.isBlank channelId) eqn:Hb.
    { unfold getChannelVideos in Hrun. by rewrite Hb in Hrun. }
    destruct (APICache.getVideos (clock w (length (trace st)))
                (videosCacheKey channelId (default (maxResults c) limit))
                (cache st)) as [[cached|] cache1] eqn:Hget.
    + rewrite (getChannelVideos_hit w c channelId limit st cached cache1 Hb Hget) in Hrun.
      injection Hrun as <- <-.
      apply getVideos_hit_entry in Hget as (entry & Hentry & <-).
      specialize (HT _ _ Hentry).
      destruct (data entry); [eauto |].
      by rewrite (proj2 (videosCacheKey_kind channelId _)) in HT.
    + destruct (getChannelVideos_miss w c channelId limit st cache1 r st' Hb Hget Hrun)
        as (channel & st1 & items & _ & _ & _ & Hnone & Hsome).
      destruct (List.filter _ items) as [|item kept].
      * destruct (Hnone eq_refl) as (-> & _). eauto.
      * destruct (Hsome ltac:(done)) as (videos & st3 & _ & -> & _). eauto.
Qed.

Lemma cached_arrays_keep_their_kind_witness :
  let calls := [(brokenBridgeWorld false, SearchChannels "Cats");
                (agedWorld 0, GetChannelVideos "UC1" None)] in
  let st := runAll bridgedClient calls emptyState in
  let run1 := searchChannels (deadWorld 1) bridgedClient "cats" st in
  let run2 := getChannelVideos (deadWorld 1) bridgedClient "UC1" None st in
  (wellTyped (cache emptyState) ∧
   (∃ r, run1 = (inr r, run1.2)) ∧ (∃ r, run2 = (inr r, run2.2))) ∧
  (∃ channels, run1.1 = inr (Channels channels)) ∧
  (∃ videos, run2.1 = inr (Videos videos)).
Proof.
  intros calls st run1 run2.
  assert (H0 : wellTyped (cache emptyState))
    by (intros key entry; simpl; by rewrite lookup_empty).
  assert (H1 : ∃ r, run1 = (inr r, run1.2)) by (vm_compute; eauto).
  assert (H2 : ∃ r, run2 = (inr r, run2.2)) by (vm_compute; eauto).
  split; [by repeat split |].
  destruct (cached_arrays_keep_their_kind bridgedClient calls emptyState H0)
    as (_ & _ & _ & Hkind).
  destruct (Hkind (deadWorld 1)) as [Hsearch Hvideos].
  destruct H1 as [r1 Hr1]. destruct H2 as [r2 Hr2]. split.
  - destruct (Hsearch "cats"%string r1 run1.2 Hr1) as [channels ->].
    exists channels. by rewrite Hr1.
  - destruct (Hvideos "UC1"%string None r2 run2.2 Hr2) as [videos ->].
    exists videos. by rewrite Hr2.
Defined.

(** *** The bridge: when it is used and what it costs *)

(** X25. A client that was built without a bridge configuration, or with
    [useSearchService] set to false, never calls the bridge: every call
    a search makes is a call of the provider. *)
Theorem bridge_disabled_never_called (config : Config) (c : YouTubeAPIClient.t)
    (w : World) (query : string) :
  YouTubeAPIClient.new config = inr c →
  cfgSearchService config = false ∨ cfgUseSearchService config = Some false →
  Emits isProviderCall (searchChannels w c query).
Proof.
  intros Hnew Hoff.
  assert (Hcfg : searchService c && useSearchService c = false).
  { unfold YouTubeAPIClient.new in Hnew.
    destruct (JSString.isBlank (cfgApiKey config)); [done |].
    injection Hnew as <-. simpl.
    destruct Hoff as [-> | ->]; [done |]. simpl. by rewrite andb_false_r. }
  assert (Hlookup : ∀ call, isLookup call → isProviderCall call)
    by (by intros [key [] | |]).
  assert (Hapi : ∀ key, Emits isProviderCall (searchChannelsViaAPI w c query key))
    by (intros key; apply Calls_searchChannelsViaAPI; [done | by intros]).
  assert (Hbridge : ∀ key, Emits isProviderCall (tryBridge w c query key)).
  { intros key. unfold tryBridge. rewrite Hcfg. apply Emits_ret. }
  unfold searchChannels. emits.
Qed.

Lemma bridge_disabled_never_called_witness :
  let config := mkConfig "K1" None None true (Some false) in
  let c := YouTubeAPIClient.mk "K1" 50 30 false false in
  let run := searchChannels (brokenBridgeWorld true) c "Cats" emptyState in
  (YouTubeAPIClient.new config = inr c ∧
   (cfgSearchService config = false ∨ cfgUseSearchService config = Some false)) ∧
  ∃ calls, trace run.2 = trace emptyState ++ calls ∧ Forall isProviderCall calls.
Proof.
  intros config c run.
  assert (Hnew : YouTubeAPIClient.new config = inr c) by reflexivity.
  assert (Hoff : cfgSearchService config = false ∨ cfgUseSearchService config = Some false)
    by (right; reflexivity).
  split; [by split |].
  exact (bridge_disabled_never_called config c (brokenBridgeWorld true) "Cats" Hnew Hoff
           emptyState run.1 run.2 (surjective_pairing _)).
Defined.

Lemma getVideoDetails_ok_trace w c ids st videos st1 :
  getVideoDetails w c ids st = (inr videos, st1) →
  trace st1 = trace st ++ (batchCall c <$> batchesOf (length ids) 50 ids).
Proof.
  unfold getVideoDetails. destruct (length ids =? 0)%nat eqn:Hlen.
  { apply KeyManagerProps.length_zero_nil in Hlen. subst ids.
    intros [= <- <-]. simpl. by rewrite app_nil_r. }
  intros [(vs & [= <-] & Hrun) | (e & [=] & _)]%handled_inv.
  destruct (fetchBatches_trace w c _ _ _ _ _ Hrun) as (_ & k & _ & Ht & Hok & _).
  by rewrite (Hok videos eq_refl), firstn_all in Ht.
Qed.

Lemma getChannelsByIds_ok_trace w c ids st channels st1 :
  ids ≠ [] →
  getChannelsByIds w c ids st = (inr channels, st1) →
  trace st1 = trace st ++ [ProviderCall (apiKey c) (ReqChannels (String.concat "," ids))].
Proof.
  intros Hne. unfold getChannelsByIds. destruct ids as [|id ids]; [done |]. simpl.
  intros [(chs & [= <-] & Hrun) | (e & [=] & _)]%handled_inv.
  apply bind_inv in Hrun as [(e & _ & [=]) | (body & st2 & Hreq & Hrun)].
  apply bind_inv in Hrun as [(e & _ & [=]) | (items & st3 & Hval & Hrun)].
  apply validateResponse_inv in Hval as [-> ->].
  apply requestOutcome_inv in Hreq as [_ ->].
  by inversion Hrun; subst.
Qed.

(** X26. What a search through the bridge costs at the provider. When
    the bridge path returns channels, it has made, in this order: one
    search of the bridge, for the trimmed query and the capped limit; one
    detail request per batch of at most 50 of the distinct videos the
    hits reference; and a single channel request for all the distinct
    channels of these videos together. *)
Theorem bridge_path_calls (w : World) (c : YouTubeAPIClient.t) (query key : string)
    (st st1 : State) (channels : list Channel.t) :
  searchChannelsViaService w c query key st = (inr channels, st1) →
  channels ≠ [] →
  ∃ hits videos st3,
    bridgeSearch w (length (trace st)) (JSString.trim query) (searchLimit c) = inr hits ∧
    let ids := extractVideoIds hits in
    let channelIds := JSString.distinct (Video.channelId <$> videos) in
    getVideoDetails w c ids
      (mkState (cache st)
         (trace st ++ [BridgeSearch (JSString.trim query) (searchLimit c)]))
      = (inr videos, st3) ∧
    trace st1 =
      trace st
        ++ BridgeSearch (JSString.trim query) (searchLimit c)
           :: (batchCall c <$> batchesOf (length ids) 50 ids)
        ++ [ProviderCall (apiKey c) (ReqChannels (String.concat "," channelIds))].
Proof.
  unfold searchChannelsViaService.
  intros [(chs & [= <-] & Hrun) | (e & [=] & _)]%handled_inv Hne.
  apply bind_inv in Hrun as [(e & _ & [=]) | (hits & st2 & Hsearch & Hrun)].
  unfold serviceSearchChannels in Hsearch.
  destruct (JSString.isBlank query); [done |].
  injection Hsearch as Hhits <-.
  destruct (length hits =? 0)%nat.
  { inversion Hrun; subst. done. }
  cbv zeta in Hrun.
  apply bind_inv in Hrun as [(e & _ & [=]) | (videos & st3 & Hdet & Hrun)].
  destruct (length (JSString.distinct (Video.channelId <$> videos)) =? 0)%nat eqn:Hlen.
  { inversion Hrun; subst. done. }
  apply bind_inv in Hrun as [(e & _ & [=]) | (chs & st4 & Hch & Hrun)].
  apply bind_inv in Hrun as [(e & _ & [=]) | ([] & st5 & Hset & Hrun)].
  inversion Hrun; subst. inversion Hset; subst. cbn [trace].
  exists hits, videos, st3. split; [done |]. cbv zeta. split; [done |].
  apply getVideoDetails_ok_trace in Hdet. cbn [trace] in Hdet.
  apply getChannelsByIds_ok_trace in Hch;
    [| intros Hnil; by rewrite Hnil in Hlen].
  rewrite Hch, Hdet, <- !app_assoc. done.
Qed.

Lemma bridge_path_calls_witness :
  let run := searchChannelsViaService rankingWorld bridgedClient " cats " "search:cats"
               emptyState in
  let channels := [mapChannelItem (sampleChannelItem "X");
                   mapChannelItem (sampleChannelItem "Y")] in
  (run = (inr channels, run.2) ∧ channels ≠ []) ∧
  ∃ hits videos st3,
    bridgeSearch rankingWorld 0 "cats" 25 = inr hits ∧
    getVideoDetails rankingWorld bridgedClient (extractVideoIds hits)
      (mkState (cache emptyState) [BridgeSearch "cats" 25]) = (inr videos, st3) ∧
    trace run.2 =
      BridgeSearch "cats" 25
        :: (batchCall bridgedClient
              <$> batchesOf (length (extractVideoIds hits)) 50 (extractVideoIds hits))
        ++ [ProviderCall "K1"
              (ReqChannels
                 (String.concat "," (JSString.distinct (Video.channelId <$> videos))))].
Proof.
  intros run channels.
  assert (Hrun : run = (inr channels, run.2)) by reflexivity.
  assert (Hne : channels ≠ []) by discriminate.
  split; [by split |].
  exact (bridge_path_calls rankingWorld bridgedClient " cats " "search:cats"
           emptyState run.2 channels Hrun Hne).
Defined.

End ClientLaws.

(** ** Failures of the provider *)

Module FailureProps.
Import YouTubeAPIClient ClientSpec CallSpec ClientProps.

Lemma refusal_failure {T} (outcome : Outcome T) error :
  failure outcome = Some error → refusal outcome = Some (handleError error).
Proof. destruct outcome; simpl; [done |]. by intros [= ->]. Qed.

Lemma refusalOf_failure w n call error :
  failureOf w n call = Some error → refusalOf w n call = Some (handleError error).
Proof. destruct call as [key [] | |]; simpl; try done; apply refusal_failure. Qed.

Lemma refusal_inv {T} (outcome : Outcome T) e :
  refusal outcome = Some e →
  (∃ error, outcome = Failed error ∧ e = handleError error) ∨
  (∃ body, outcome = Responded body ∧ (∀ items, body ≠ BodyItems items) ∧
           APIError.code e = 500 ∧ APIError.retryable e = true).
Proof.
  destruct outcome as [body|error]; simpl.
  - destruct body as [| | |items]; simpl; [| | | done].
    all: intros [= <-]; right; eexists; repeat split; done.
  - intros [= <-]. left. eauto.
Qed.

Lemma refusalOf_inv w n call e :
  refusalOf w n call = Some e →
  (∃ key request, call = ProviderCall key request) ∧
  ((∃ error, failureOf w n call = Some error ∧ e = handleError error) ∨
   (failureOf w n call = None ∧ APIError.code e = 500 ∧ APIError.retryable e = true)).
Proof.
  destruct call as [key request | |]; [| done | done].
  intros Hre. split; [eauto |].
  destruct request; simpl in *;
    (apply refusal_inv in Hre as [(error & -> & ->) | (body & -> & _ & Hcode & Hretry)];
     [left; eauto | by right]).
Qed.

Lemma last_call_lookup (calls : list Call) call n call' :
  (length calls ≤ n)%nat → (calls ++ [call]) !! n = Some call' →
  n = length calls ∧ call' = call.
Proof.
  intros Hn Hlook.
  assert (n = length calls) as ->.
  { apply lookup_lt_Some in Hlook. rewrite length_app in Hlook. simpl in Hlook. lia. }
  rewrite lookup_app_r, Nat.sub_diag in Hlook by lia. by injection Hlook as <-.
Qed.

(** *** Stopping at the first refusal *)

Section Reporting.
Context (w : World) (lenient : Prop).

Lemma Reports_quiet {A} (m : M A) :
  (∀ st, ∃ a st', m st = (inr a, st') ∧ trace st' = trace st) →
  Reports w lenient m.
Proof.
  intros Hm st r st' Hrun. destruct (Hm st) as (a & st1 & Hrun' & Ht).
  rewrite Hrun in Hrun'. injection Hrun' as -> ->.
  split; [exists []; by rewrite app_nil_r |]. split.
  - intros n call e Hn Hlook. rewrite Ht in Hlook.
    apply lookup_lt_Some in Hlook. lia.
  - intros t [=].
Qed.

Lemma Reports_ret {A} (a : A) : Reports w lenient (ret a).
Proof. apply Reports_quiet. intros st. by eexists _, _. Qed.

Lemma Reports_now : Reports w lenient (now w).
Proof. apply Reports_quiet. intros st. by eexists _, _. Qed.

Lemma Reports_cacheGetVideos key : Reports w lenient (cacheGetVideos w key).
Proof.
  apply Reports_quiet. intros st.
  destruct (cacheGetVideos_ok w key st) as (r & cache' & Hrun & _). by eexists _, _.
Qed.

Lemma Reports_cacheGetChannel key : Reports w lenient (cacheGetChannel w key).
Proof.
  apply Reports_quiet. intros st.
  destruct (cacheGetChannel_ok w key st) as (r & cache' & Hrun & _). by eexists _, _.
Qed.

Lemma Reports_cacheSetVideos key v d : Reports w lenient (cacheSetVideos w key v d).
Proof. apply Reports_quiet. intros st. by eexists _, _. Qed.

Lemma Reports_cacheSetChannel key v d : Reports w lenient (cacheSetChannel w key v d).
Proof. apply Reports_quiet. intros st. by eexists _, _. Qed.

Lemma Reports_throw_own {A} e :
  e ∈ ownFailures → Reports w lenient (@throw A (ThrownAPIError e)).
Proof.
  intros He st r st' [= <- <-].
  split; [exists []; by rewrite app_nil_r |]. split.
  - intros n call e' Hn Hlook. apply lookup_lt_Some in Hlook. lia.
  - intros t [= <-]. right. left. eauto.
Qed.

Lemma Reports_throw_lenient {A} t : lenient → Reports w lenient (@throw A t).
Proof.
  intros Hl st r st' [= <- <-].
  split; [exists []; by rewrite app_nil_r |]. split.
  - intros n call e' Hn Hlook. apply lookup_lt_Some in Hlook. lia.
  - intros t' _. by left.
Qed.

Lemma Reports_bind {A B} (m : M A) (k : A → M B) :
  Reports w lenient m → (∀ a, Reports w lenient (k a)) → Reports w lenient (bind m k).
Proof.
  intros Hm Hk st r st' Hrun.
  apply bind_inv in Hrun as [(e & Hrun & ->) | (a & st1 & Hrun & Hrest)].
  { destruct (Hm _ _ _ Hrun) as (Ht & Ha & Hb). split; [done |]. split.
    - intros n call e' Hn Hlook Hre.
      destruct (Ha n call e' Hn Hlook Hre) as (Hlast & t & [= <-] & Hh). eauto.
    - intros t [= <-]. by apply Hb. }
  destruct (Hm _ _ _ Hrun) as ((l1 & Ht1) & Ha1 & _).
  destruct (Hk a _ _ _ Hrest) as ((l2 & Ht2) & Ha2 & Hb2).
  split; [exists (l1 ++ l2); by rewrite Ht2, Ht1, app_assoc |]. split.
  - intros n call e Hn Hlook Hre.
    destruct (decide (n < length (trace st1))%nat) as [Hlt | Hge].
    + rewrite Ht2, lookup_app_l in Hlook by done.
      by destruct (Ha1 n call e Hn Hlook Hre) as (_ & t & [=] & _).
    + apply (Ha2 n call e); [lia | done | done].
  - intros t Hr.
    destruct (Hb2 t Hr) as [Hl | [Hown | (n & call & (Hn & Hlast & Hlook) & Hre)]];
      [by left | by right; left |].
    right. right. exists n, call. split; [| done]. split; [| done].
    rewrite Ht1, length_app in Hn. lia.
Qed.

Lemma Reports_handled {A} (m : M A) : Reports w lenient m → Reports w lenient (handled m).
Proof.
  intros Hm st r st' Hrun.
  apply handled_inv in Hrun as [(a & -> & Hrun) | (e & -> & Hrun)].
  { by apply Hm. }
  destruct (Hm _ _ _ Hrun) as (Ht & Ha & Hb).
  split; [done |]. split.
  - intros n call e' Hn Hlook Hre.
    destruct (Ha n call e' Hn Hlook Hre) as (Hlast & t & [= <-] & <-).
    split; [done |]. by eexists.
  - intros t [= <-].
    destruct (Hb e eq_refl) as [Hl | [(e' & -> & Hown) | Hcall]].
    + by left.
    + right. left. eauto.
    + right. by right.
Qed.

(** One request and the validation of its answer, followed by [k]. *)
Lemma Reports_fetch {T B} (outcome : nat → Outcome T) (call : Call) (k : list T → M B) :
  (∀ n, refusalOf w n call = refusal (outcome n)) →
  (∀ items, Reports w lenient (k items)) →
  Reports w lenient
    (bind (fun st => requestOutcome (outcome (length (trace st))) call st)
          (fun response => bind (validateResponse response) k)).
Proof.
  intros Hcall Hk st r st' Hrun.
  assert (Hstop : ∀ t,
            r = inl t →
            st' = mkState (cache st) (trace st ++ [call]) →
            refusal (outcome (length (trace st))) = Some (handleError t) →
            (∃ calls, trace st' = trace st ++ calls) ∧
            (∀ n call' e,
               (length (trace st) ≤ n)%nat → trace st' !! n = Some call' →
               refusalOf w n call' = Some e →
               S n = length (trace st') ∧ ∃ t, r = inl t ∧ handleError t = e) ∧
            (∀ t, r = inl t →
               lenient ∨
               (∃ e, t = ThrownAPIError e ∧ e ∈ ownFailures) ∨
               (∃ n call', finalCall st st' n call' ∧
                           refusalOf w n call' = Some (handleError t)))).
  { intros t -> -> Href. cbn [trace].
    split; [by exists [call] |]. split.
    - intros n call' e Hn Hlook Hre.
      apply last_call_lookup in Hlook as [-> ->]; [| done].
      rewrite Hcall, Href in Hre. injection Hre as <-.
      split; [rewrite length_app; simpl; lia | eauto].
    - intros t' [= <-]. right. right. exists (length (trace st)), call.
      split; [| by rewrite Hcall]. unfold finalCall. cbn [trace].
      split; [lia |]. split; [rewrite length_app; simpl; lia |].
      by rewrite lookup_app_r, Nat.sub_diag by lia. }
  unfold bind at 1, requestOutcome in Hrun.
  destruct (outcome (length (trace st))) as [body|error] eqn:Hout.
  2: { injection Hrun as <- <-. by eapply Hstop. }
  unfold bind in Hrun at 1.
  destruct body as [| | |items]; simpl in Hrun; unfold throw in Hrun.
  1-3: injection Hrun as <- <-; by eapply Hstop.
  destruct (Hk items _ _ _ Hrun) as ((calls & Ht) & Ha & Hb).
  cbn [trace] in Ht, Ha, Hb.
  split; [exists (call :: calls); by rewrite Ht, <- app_assoc |]. split.
  - intros n call' e Hn Hlook Hre.
    destruct (decide (n = length (trace st))) as [-> | Hne].
    + rewrite Ht, <- app_assoc, lookup_app_r, Nat.sub_diag in Hlook by lia.
      simpl in Hlook. injection Hlook as <-.
      rewrite Hcall, Hout in Hre. done.
    + apply (Ha n call' e); [rewrite length_app; simpl; lia | done | done].
  - intros t Hr.
    destruct (Hb t Hr) as [Hl | [Hown | (n & call' & (Hn & Hlast & Hlook) & Hre)]];
      [by left | by right; left |].
    right. right. exists n, call'. split; [| done]. split; [| done].
    cbn [trace] in Hn. rewrite length_app in Hn. simpl in Hn. lia.
Qed.

Lemma Reports_isHealthy : Reports w lenient (isHealthy w).
Proof.
  intros st r st' [= <- <-]. cbn [trace]. split; [by eexists |]. split.
  - intros n call e Hn Hlook Hre.
    by apply last_call_lookup in Hlook as [-> ->].
  - intros t [=].
Qed.

Section Requests.
Context (c : YouTubeAPIClient.t).

Lemma Reports_search {B} q limit (k : list YouTubeChannelSearchItem.t → M B) :
  (∀ items, Reports w lenient (k items)) →
  Reports w lenient
    (bind (requestSearch w c q limit)
          (fun response => bind (validateResponse response) k)).
Proof.
  intros Hk.
  by apply (Reports_fetch (fun n => searchEndpoint w n (apiKey c) q limit)
              (ProviderCall (apiKey c) (ReqSearch q limit))).
Qed.

Lemma Reports_channels {B} id (k : list YouTubeChannelItem.t → M B) :
  (∀ items, Reports w lenient (k items)) →
  Reports w lenient
    (bind (requestChannels w c id)
          (fun response => bind (validateResponse response) k)).
Proof.
  intros Hk.
  by apply (Reports_fetch (fun n => channelsEndpoint w n (apiKey c) id)
              (ProviderCall (apiKey c) (ReqChannels id))).
Qed.

Lemma Reports_playlistItems {B} id limit (k : list YouTubePlaylistItem.t → M B) :
  (∀ items, Reports w lenient (k items)) →
  Reports w lenient
    (bind (requestPlaylistItems w c id limit)
          (fun response => bind (validateResponse response) k)).
Proof.
  intros Hk.
  by apply (Reports_fetch (fun n => playlistItemsEndpoint w n (apiKey c) id limit)
              (ProviderCall (apiKey c) (ReqPlaylistItems id limit))).
Qed.

Lemma Reports_videos {B} id (k : list YouTubeVideoItem.t → M B) :
  (∀ items, Reports w lenient (k items)) →
  Reports w lenient
    (bind (requestVideos w c id)
          (fun response => bind (validateResponse response) k)).
Proof.
  intros Hk.
  by apply (Reports_fetch (fun n => videosEndpoint w n (apiKey c) id)
              (ProviderCall (apiKey c) (ReqVideos id))).
Qed.
End Requests.
End Reporting.

Lemma ownFailures_query :
  createAPIError 400 "Search query cannot be empty"
    "Please enter a channel name to search" false ∈ ownFailures.
Proof. unfold ownFailures. set_solver. Qed.

Lemma ownFailures_id :
  createAPIError 400 "Channel ID cannot be empty"
    "Please provide a valid channel ID" false ∈ ownFailures.
Proof. unfold ownFailures. set_solver. Qed.

Lemma ownFailures_not_found :
  createAPIError 404 "Channel not found"
    "The channel you requested could not be found" false ∈ ownFailures.
Proof. unfold ownFailures. set_solver. Qed.

Create HintDb reports discriminated.
#[local] Hint Resolve Reports_ret Reports_now Reports_cacheGetVideos
  Reports_cacheGetChannel Reports_cacheSetVideos Reports_cacheSetChannel
  Reports_isHealthy : reports.
#[local] Hint Resolve ownFailures_query ownFailures_id ownFailures_not_found : reports.

(** Walks through a computation of the client: requests, binds,
    handlers and branches are split, the leaves are closed from the hint
    base. *)
Ltac reports :=
  repeat first
    [ solve [eauto with reports]
    | apply Reports_handled
    | apply Reports_throw_own; solve [eauto with reports]
    | apply Reports_search; intros ?
    | apply Reports_channels; intros ?
    | apply Reports_playlistItems; intros ?
    | apply Reports_videos; intros ?
    | apply Reports_bind; [| intros ?]
    | progress cbv zeta
    | match goal with
      | |- Reports _ _ (if ?b then _ else _) => destruct b
      | |- Reports _ _ (match ?x with _ => _ end) => destruct x
      end ].

Section ClientReporting.
Context (w : World) (c : YouTubeAPIClient.t) (lenient : Prop).

Lemma Reports_fetchBatches batches :
  ∀ acc, Reports w lenient (fetchBatches w c batches acc).
Proof.
  induction batches as [|batch rest IH]; intros acc; cbn [fetchBatches]; reports.
Qed.

Lemma Reports_getVideoDetails ids : Reports w lenient (getVideoDetails w c ids).
Proof. unfold getVideoDetails. pose proof Reports_fetchBatches. reports. Qed.

Lemma Reports_getChannelsByIds ids : Reports w lenient (getChannelsByIds w c ids).
Proof. unfold getChannelsByIds. reports. Qed.

Hint Resolve Reports_getVideoDetails Reports_getChannelsByIds : reports.

Lemma Reports_getChannelInfo id : Reports w lenient (getChannelInfo w c id).
Proof. unfold getChannelInfo. reports. Qed.

Hint Resolve Reports_getChannelInfo : reports.

Lemma Reports_getChannelVideos id limit :
  Reports w lenient (getChannelVideos w c id limit).
Proof. unfold getChannelVideos. reports. Qed.

Lemma Reports_searchChannelsViaAPI query key :
  Reports w lenient (searchChannelsViaAPI w c query key).
Proof. unfold searchChannelsViaAPI. reports. Qed.
End ClientReporting.

#[local] Hint Resolve Reports_getVideoDetails Reports_getChannelsByIds : reports.

Lemma Reports_serviceSearchChannels w query limit :
  Reports w True (serviceSearchChannels w query limit).
Proof.
  unfold serviceSearchChannels. destruct (JSString.isBlank query).
  { by apply Reports_throw_lenient. }
  intros st r st' [= <- <-]. cbn [trace]. split; [by eexists |]. split.
  - intros n call e Hn Hlook Hre.
    by apply last_call_lookup in Hlook as [-> ->].
  - intros t _. by left.
Qed.

#[local] Hint Resolve Reports_serviceSearchChannels : reports.

Lemma Reports_searchChannelsViaService w c query key :
  Reports w True (searchChannelsViaService w c query key).
Proof. unfold searchChannelsViaService. reports. Qed.

#[local] Hint Resolve Reports_searchChannelsViaService : reports.

(** The bridge phase swallows a refusal: the refused request is a
    lookup, it is the last call of the phase, and the phase yields no
    result. *)
Lemma tryBridge_refusal w c query key st r st2 :
  tryBridge w c query key st = (r, st2) →
  (∃ calls, trace st2 = trace st ++ calls) ∧
  ∀ n call e,
    (length (trace st) ≤ n)%nat → trace st2 !! n = Some call →
    refusalOf w n call = Some e →
    r = inr None ∧ S n = length (trace st2) ∧ isLookup call ∧
    searchService c && useSearchService c = true.
Proof.
  intros Hrun.
  destruct (ClientLaws.Calls_tryBridge w c sparesSearchEndpoint
              ClientLaws.isLookup_sparesSearchEndpoint (conj I (fun _ => I))
              query key _ _ _ Hrun) as (calls & Ht & Hspare).
  split; [eauto |].
  intros n call e Hn Hlook Hre.
  assert (Hlk : isLookup call).
  { pose proof Hlook as Hin. rewrite Ht, lookup_app_r in Hin by done.
    pose proof (proj1 (Forall_lookup _ _) Hspare _ _ Hin) as Hs.
    by destruct call as [k [] | |]. }
  unfold tryBridge in Hrun. destruct (searchService c && useSearchService c) eqn:Hcfg.
  2: { injection Hrun as <- <-. apply lookup_lt_Some in Hlook. lia. }
  unfold tryCatch in Hrun.
  match type of Hrun with
  | match ?m st with _ => _ end = _ =>
      assert (HR : Reports w True m) by reports;
      destruct (m st) as [[t|o] st1] eqn:Hinner
  end.
  - injection Hrun as <- <-.
    destruct (HR _ _ _ Hinner) as (_ & Ha & _).
    by destruct (Ha n call e Hn Hlook Hre) as (Hlast & _).
  - injection Hrun as <- <-.
    destruct (HR _ _ _ Hinner) as (_ & Ha & _).
    by destruct (Ha n call e Hn Hlook Hre) as (_ & t & [=] & _).
Qed.

(** The native search request is the first call of the native path. *)
Lemma searchChannelsViaAPI_first_call w c query key st r st' :
  searchChannelsViaAPI w c query key st = (r, st') →
  trace st' !! length (trace st)
    = Some (ProviderCall (apiKey c) (ReqSearch query (searchLimit c))).
Proof.
  rewrite searchChannelsViaAPI_first. intros Hrest.
  destruct (ClientLaws.Calls_afterSearch w c (fun _ => True) (fun _ _ => I) _ _ _ _ _ Hrest)
    as (lookups & Hlt & _).
  cbn [trace] in Hlt. rewrite Hlt, <- app_assoc, lookup_app_r, Nat.sub_diag by lia. done.
Qed.

Lemma searchChannels_refusal w c query st r st' :
  searchChannels w c query st = (r, st') →
  ∀ n call e,
    (length (trace st) ≤ n)%nat → trace st' !! n = Some call →
    refusalOf w n call = Some e →
    (S n = length (trace st') ∧ r = inl (ThrownAPIError e)) ∨
    (searchService c && useSearchService c = true ∧ isLookup call ∧
     trace st' !! S n = Some (ProviderCall (apiKey c) (ReqSearch query (searchLimit c)))).
Proof.
  intros Hrun n call e Hn Hlook Hre.
  destruct (JSString.isBlank query) eqn:Hb.
  { unfold searchChannels in Hrun. rewrite Hb in Hrun. injection Hrun as <- <-.
    apply lookup_lt_Some in Hlook. lia. }
  destruct (APICache.getVideos (clock w (length (trace st))) (searchCacheKey query)
              (cache st)) as [[cached|] cache1] eqn:Hget.
  { unfold searchChannels in Hrun. rewrite Hb in Hrun.
    unfold bind, cacheGetVideos in Hrun. rewrite Hget in Hrun.
    injection Hrun as <- <-. simpl in Hlook. apply lookup_lt_Some in Hlook. lia. }
  rewrite (searchChannels_miss w c query st cache1 Hb Hget) in Hrun.
  destruct (tryBridge w c query (searchCacheKey query) (mkState cache1 (trace st)))
    as [o st1] eqn:Hbr.
  destruct (tryBridge_refusal _ _ _ _ _ _ _ Hbr) as ((bridge & Hbt) & Hbref).
  cbn [trace] in Hbt, Hbref.
  destruct o as [t | [channels|]].
  - injection Hrun as <- <-. by destruct (Hbref n call e Hn Hlook Hre) as ([=] & _).
  - injection Hrun as <- <-. by destruct (Hbref n call e Hn Hlook Hre) as ([=] & _).
  - destruct (searchChannelsViaAPI w c query (searchCacheKey query) st1)
      as [r1 st2] eqn:Hapi.
    destruct (Reports_searchChannelsViaAPI w c False query _ _ _ _ Hapi)
      as ((native & Hnt) & Ha & _).
    assert (Hst : st' = st2) by (unfold asChannels in Hrun; by destruct r1; injection Hrun).
    subst st'.
    destruct (decide (n < length (trace st1))%nat) as [Hlt | Hge].
    + right. rewrite Hnt, lookup_app_l in Hlook by done.
      destruct (Hbref n call e Hn Hlook Hre) as (_ & Hlast & Hlk & Hcfg).
      split; [done |]. split; [done |].
      rewrite Hlast. by eapply searchChannelsViaAPI_first_call.
    + left. destruct (Ha n call e ltac:(lia) Hlook Hre) as (Hlast & t & -> & Hh).
      split; [done |]. unfold searchChannelsViaAPI in Hapi.
      pose proof Hapi as Hapi'. apply handled_throws in Hapi' as [e' ->].
      simpl in Hh. subst e'. unfold asChannels in Hrun. by injection Hrun as <-.
Qed.

(** *** The public methods *)

Lemma thrownOf_inv {A} (run : (Thrown + A) * State) t :
  thrownOf run = Some t → run = (inl t, run.2).
Proof. destruct run as [[t'|a] st']; unfold thrownOf; simpl; [| done]. by intros [= ->]. Qed.

Lemma method_refusal w c method st n call e :
  (length (trace st) ≤ n)%nat →
  trace (stateAfter w c method st) !! n = Some call →
  refusalOf w n call = Some e →
  (S n = length (trace (stateAfter w c method st)) ∧
   thrownBy w c method st = Some (ThrownAPIError e)) ∨
  (∃ query, method = SearchChannels query ∧
     searchService c && useSearchService c = true ∧ isLookup call ∧
     trace (stateAfter w c method st) !! S n
       = Some (ProviderCall (apiKey c) (ReqSearch query (searchLimit c)))).
Proof.
  intros Hn Hlook Hre.
  assert (Hplain : ∀ A (m : M A),
            Reports w False m →
            (∀ t st', m st = (inl t, st') → ∃ e, t = ThrownAPIError e) →
            trace (m st).2 !! n = Some call →
            S n = length (trace (m st).2) ∧ thrownOf (m st) = Some (ThrownAPIError e)).
  { intros A m HR Hthrows Hlook'. destruct (m st) as [r st'] eqn:Hrun.
    destruct (HR _ _ _ Hrun) as (_ & Ha & _).
    destruct (Ha n call e Hn Hlook' Hre) as (Hlast & t & -> & Hh).
    split; [done |]. destruct (Hthrows _ _ eq_refl) as [e' ->].
    simpl in Hh. by subst e'. }
  destruct method as [query | channelId | channelId limit | videoIds];
    cbn [stateAfter thrownBy] in *.
  - destruct (searchChannels w c query st) as [r st'] eqn:Hrun.
    destruct (searchChannels_refusal _ _ _ _ _ _ Hrun n call e Hn Hlook Hre)
      as [[Hlast ->] | (Hcfg & Hlk & Hnext)].
    + left. by split.
    + right. exists query. by repeat split.
  - left. apply Hplain; [apply Reports_getChannelInfo | | done].
    intros t st'. apply getChannelInfo_throws.
  - left. apply Hplain; [apply Reports_getChannelVideos | | done].
    intros t st'. apply getChannelVideos_throws.
  - left. apply Hplain; [apply Reports_getVideoDetails | | done].
    intros t st'. apply getVideoDetails_throws.
Qed.

Lemma searchChannels_thrown w c query st t st' :
  searchChannels w c query st = (inl t, st') →
  (∃ e, t = ThrownAPIError e ∧ e ∈ ownFailures) ∨
  (∃ n call, finalCall st st' n call ∧ refusalOf w n call = Some (handleError t)).
Proof.
  intros Hrun.
  destruct (JSString.isBlank query) eqn:Hb.
  { unfold searchChannels in Hrun. rewrite Hb in Hrun. injection Hrun as <- <-.
    left. eexists. split; [done | apply ownFailures_query]. }
  destruct (APICache.getVideos (clock w (length (trace st))) (searchCacheKey query)
              (cache st)) as [[cached|] cache1] eqn:Hget.
  { unfold searchChannels in Hrun. rewrite Hb in Hrun.
    unfold bind, cacheGetVideos in Hrun. rewrite Hget in Hrun. done. }
  rewrite (searchChannels_miss w c query st cache1 Hb Hget) in Hrun.
  destruct (tryBridge w c query (searchCacheKey query) (mkState cache1 (trace st)))
    as [o st1] eqn:Hbr.
  destruct (tryBridge_refusal _ _ _ _ _ _ _ Hbr) as ((bridge & Hbt) & _).
  cbn [trace] in Hbt.
  destruct o as [t' | [channels|]].
  - destruct (tryBridge_ok w c query (searchCacheKey query) (mkState cache1 (trace st)))
      as (o & st1' & Hok). congruence.
  - done.
  - destruct (searchChannelsViaAPI w c query (searchCacheKey query) st1)
      as [[t1|channels] st2] eqn:Hapi; [| done].
    unfold asChannels in Hrun. injection Hrun as <- <-.
    destruct (Reports_searchChannelsViaAPI w c False query _ _ _ _ Hapi)
      as (_ & _ & Hb').
    destruct (Hb' t1 eq_refl) as [[] | [Hown | (n & call & (Hn & Hlast & Hlook) & Hre)]];
      [by left |].
    right. exists n, call. split; [| done]. split; [| done].
    rewrite Hbt, length_app in Hn. lia.
Qed.

Lemma method_thrown w c method st t :
  thrownBy w c method st = Some t →
  ∃ e, t = ThrownAPIError e ∧
       (e ∈ ownFailures ∨
        ∃ n call, finalCall st (stateAfter w c method st) n call ∧
                  refusalOf w n call = Some e).
Proof.
  assert (Hplain : ∀ A (m : M A),
            Reports w False m →
            (∀ t st', m st = (inl t, st') → ∃ e, t = ThrownAPIError e) →
            thrownOf (m st) = Some t →
            ∃ e, t = ThrownAPIError e ∧
                 (e ∈ ownFailures ∨
                  ∃ n call, finalCall st (m st).2 n call ∧ refusalOf w n call = Some e)).
  { intros A m HR Hthrows Hthrown. apply thrownOf_inv in Hthrown.
    destruct (Hthrows _ _ Hthrown) as [e ->]. exists e. split; [done |].
    destruct (HR _ _ _ Hthrown) as (_ & _ & Hb).
    destruct (Hb _ eq_refl) as [[] | [(e' & [= <-] & Hown) | Hcall]]; [by left |].
    by right. }
  destruct method as [query | channelId | channelId limit | videoIds];
    cbn [stateAfter thrownBy].
  - intros Hthrown. apply thrownOf_inv in Hthrown.
    destruct (searchChannels_throws _ _ _ _ _ _ Hthrown) as [e ->]. exists e.
    split; [done |].
    destruct (searchChannels_thrown _ _ _ _ _ _ Hthrown)
      as [(e' & [= <-] & Hown) | Hcall]; [by left | by right].
  - apply Hplain; [apply Reports_getChannelInfo |].
    intros t' st'. apply getChannelInfo_throws.
  - apply Hplain; [apply Reports_getChannelVideos |].
    intros t' st'. apply getChannelVideos_throws.
  - apply Hplain; [apply Reports_getVideoDetails |].
    intros t' st'. apply getVideoDetails_throws.
Qed.

Lemma method_keys w c method st :
  ∃ calls, trace (stateAfter w c method st) = trace st ++ calls ∧
           Forall (usesKey (apiKey c)) calls.
Proof.
  assert (Hp : ∀ request, usesKey (apiKey c) (ProviderCall (apiKey c) request)) by done.
  assert (Hb : usesKey (apiKey c) BridgeHealth ∧
               ∀ q n, usesKey (apiKey c) (BridgeSearch q n)) by done.
  destruct method as [query | channelId | channelId limit | videoIds]; cbn [stateAfter].
  - destruct (searchChannels w c query st) as [r st'] eqn:Hrun.
    by apply (Emits_searchChannels w c _ Hp Hb) in Hrun.
  - destruct (getChannelInfo w c channelId st) as [r st'] eqn:Hrun.
    by apply (Emits_getChannelInfo w c _ Hp) in Hrun.
  - destruct (getChannelVideos w c channelId limit st) as [r st'] eqn:Hrun.
    by apply (Emits_getChannelVideos w c _ Hp) in Hrun.
  - destruct (getVideoDetails w c videoIds st) as [r st'] eqn:Hrun.
    by apply (Emits_getVideoDetails w c _ Hp) in Hrun.
Qed.



(** C9 (as the code has it). Every failure that leaves [searchChannels],
    [getChannelInfo], [getChannelVideos] or [getVideoDetails] is an
    [APIError], and it is either one of the client's own failures (blank
    query or id, code 400; channel not found, code 404; none of them
    retryable) or what the client makes of the provider's answer to the
    last request of the call: [handleError] of the error of a failed
    request, or a failure with code 500 that is retryable for a
    structurally malformed body. Conversely, when the provider refuses
    the last request of a call, that is the failure the call surfaces.
    [handleError] sets the [retryable] flag to true for a network
    failure (code 0), for 429, for 500/503 and for every other status
    except 400, 403 and 404, and for an error that is not an HTTP
    failure (code 500); to false for the statuses 400, 403 (quota
    exhaustion as well as access denied) and 404. An error that already
    is an [APIError] is passed on unchanged. *)
Theorem retryable_classification :
  (∀ w c method st t,
     thrownBy w c method st = Some t →
     ∃ e, t = ThrownAPIError e ∧
          (e ∈ ownFailures ∨
           ∃ n call, finalCall st (stateAfter w c method st) n call ∧
                     refusalOf w n call = Some e)) ∧
  (∀ w c method st n call e,
     finalCall st (stateAfter w c method st) n call →
     refusalOf w n call = Some e →
     thrownBy w c method st = Some (ThrownAPIError e)) ∧
  (∀ e, e ∈ ownFailures →
     (APIError.code e = 400 ∨ APIError.code e = 404) ∧ APIError.retryable e = false) ∧
  (∀ w n call e,
     refusalOf w n call = Some e →
     (∃ key request, call = ProviderCall key request) ∧
     ((∃ error, failureOf w n call = Some error ∧ e = handleError error) ∨
      (failureOf w n call = None ∧ APIError.code e = 500 ∧ APIError.retryable e = true))) ∧
  (∀ e, handleError (ThrownAPIError e) = e) ∧
  (∀ message,
     APIError.code (handleError (ThrownAxios message None)) = 0 ∧
     APIError.retryable (handleError (ThrownAxios message None)) = true) ∧
  (∀ message response,
     let e := handleError (ThrownAxios message (Some response)) in
     APIError.code e = status response ∧
     APIError.retryable e =
       negb ((status response =? 400) || (status response =? 403)
             || (status response =? 404))) ∧
  (∀ message,
     APIError.code (handleError (ThrownError message)) = 500 ∧
     APIError.retryable (handleError (ThrownError message)) = true) ∧
  (APIError.code (handleError ThrownOther) = 500 ∧
   APIError.retryable (handleError ThrownOther) = true) ∧
  (∀ T (body : Body T) st,
     (∀ items, body ≠ BodyItems items) →
     ∃ e, validateResponse body st = (inl (ThrownAPIError e), st) ∧
          APIError.code e = 500 ∧ APIError.retryable e = true) ∧
  (∀ w c text limit st,
     JSString.isBlank text = true →
     ∃ e1 e2,
       searchChannels w c text st = (inl (ThrownAPIError e1), st) ∧
       getChannelInfo w c text st = (inl (ThrownAPIError e2), st) ∧
       getChannelVideos w c text limit st = (inl (ThrownAPIError e2), st) ∧
       APIError.code e1 = 400 ∧ APIError.retryable e1 = false ∧
       APIError.code e2 = 400 ∧ APIError.retryable e2 = false) ∧
  (∀ w c channelId st,
     asciiOnly channelId = true →
     JSString.isBlank channelId = false →
     APICache.channelCache (cache st) !! channelId = None →
     channelsEndpoint w (length (trace st)) (apiKey c) channelId
       = Responded (BodyItems []) →
     ∃ e st', getChannelInfo w c channelId st = (inl (ThrownAPIError e), st') ∧
              APIError.code e = 404 ∧ APIError.retryable e = false).
Proof.
  split; [apply method_thrown |].
  split.
  { intros w c method st n call e (Hn & Hlast & Hlook) Hre.
    destruct (method_refusal w c method st n call e Hn Hlook Hre)
      as [[_ Hthrown] | (query & _ & _ & _ & Hnext)]; [done |].
    apply lookup_lt_Some in Hnext. lia. }
  split.
  { intros e He. unfold ownFailures in He.
    apply elem_of_cons in He as [-> | He]; [split; [by left | done] |].
    apply elem_of_cons in He as [-> | He]; [split; [by left | done] |].
    apply list_elem_of_singleton in He as ->. split; [by right | done]. }
  split; [apply refusalOf_inv |].
  split; [done |]. split; [done |].
  split; [intros; apply handleError_status |].
  split; [done |]. split; [done |].
  split; [intros; by apply validateResponse_malformed |].
  split; [| intros w c channelId st _; apply getChannelInfo_not_found].
  intros w c text limit st Hb.
  unfold searchChannels, getChannelInfo, getChannelVideos. rewrite Hb.
  unfold throw. eexists _, _. done.
Qed.

Lemma retryable_classification_witness :
  let uploads := GetChannelVideos "UC1" None in
  let detail := ProviderCall "K1" (ReqVideos "v1") in
  let lookup := ProviderCall "K1" (ReqChannels "UC1") in
  let quota := handleError ClientSpec.quotaFailure in
  let malformed :=
    createAPIError 500 "Missing required field: items"
      "Received an invalid response from YouTube" true in
  let notFound :=
    createAPIError 404 "Channel not found"
      "The channel you requested could not be found" false in
  (* a failed request, the third of the call, surfaces converted *)
  ((finalCall emptyState (stateAfter detailQuotaWorld plainClient uploads emptyState)
      2 detail ∧
    refusalOf detailQuotaWorld 2 detail = Some quota) ∧
   thrownBy detailQuotaWorld plainClient uploads emptyState = Some (ThrownAPIError quota) ∧
   APIError.code quota = 403 ∧ APIError.retryable quota = false) ∧
  (* a malformed body surfaces as a retryable 500 *)
  ((finalCall emptyState
      (stateAfter malformedWorld plainClient (GetChannelInfo "UC1") emptyState) 0 lookup ∧
    refusalOf malformedWorld 0 lookup = Some malformed) ∧
   thrownBy malformedWorld plainClient (GetChannelInfo "UC1") emptyState
     = Some (ThrownAPIError malformed) ∧
   (failureOf malformedWorld 0 lookup = None ∧
    APIError.code malformed = 500 ∧ APIError.retryable malformed = true)) ∧
  (* what a call throws is an [APIError] of one of the two kinds *)
  (thrownBy detailQuotaWorld plainClient uploads emptyState = Some (ThrownAPIError quota) ∧
   (quota ∉ ownFailures) ∧
   ∃ n call,
     finalCall emptyState (stateAfter detailQuotaWorld plainClient uploads emptyState)
       n call ∧
     refusalOf detailQuotaWorld n call = Some quota) ∧
  (* the client's own not-found failure *)
  (notFound ∈ ownFailures ∧
   (APIError.code notFound = 400 ∨ APIError.code notFound = 404) ∧
   APIError.retryable notFound = false) ∧
  ((∀ items : list YouTubeChannelItem.t, BodyNoItems ≠ BodyItems items) ∧
   ∃ e, validateResponse (BodyNoItems : Body YouTubeChannelItem.t) emptyState
          = (inl (ThrownAPIError e), emptyState) ∧
        APIError.code e = 500 ∧ APIError.retryable e = true) ∧
  (JSString.isBlank "  " = true ∧
   ∃ e1 e2,
     searchChannels malformedWorld plainClient "  " emptyState
       = (inl (ThrownAPIError e1), emptyState) ∧
     getChannelInfo malformedWorld plainClient "  " emptyState
       = (inl (ThrownAPIError e2), emptyState) ∧
     getChannelVideos malformedWorld plainClient "  " None emptyState
       = (inl (ThrownAPIError e2), emptyState) ∧
     APIError.code e1 = 400 ∧ APIError.retryable e1 = false ∧
     APIError.code e2 = 400 ∧ APIError.retryable e2 = false) ∧
  ((asciiOnly "UC404" = true ∧
    JSString.isBlank "UC404" = false ∧
    APICache.channelCache (cache emptyState) !! "UC404" = None ∧
    channelsEndpoint emptyWorld (length (trace emptyState)) (apiKey plainClient) "UC404"
      = Responded (BodyItems [])) ∧
   ∃ e st', getChannelInfo emptyWorld plainClient "UC404" emptyState
              = (inl (ThrownAPIError e), st') ∧
            APIError.code e = 404 ∧ APIError.retryable e = false).
Proof.
  pose proof retryable_classification
    as (Hsurfaced & Hlast & Hown & Hkinds & _ & _ & _ & _ & _ & Hmalformed & Hblank
        & Hnotfound).
  intros uploads detail lookup quota malformed notFound.
  assert (Hfinal : finalCall emptyState
                     (stateAfter detailQuotaWorld plainClient uploads emptyState) 2 detail).
  { split; [simpl; lia |]. split; reflexivity. }
  assert (Hre : refusalOf detailQuotaWorld 2 detail = Some quota) by reflexivity.
  assert (Hfinal' : finalCall emptyState
                      (stateAfter malformedWorld plainClient (GetChannelInfo "UC1")
                         emptyState) 0 lookup).
  { split; [simpl; lia |]. split; reflexivity. }
  assert (Hre' : refusalOf malformedWorld 0 lookup = Some malformed) by reflexivity.
  pose proof (Hlast detailQuotaWorld plainClient uploads emptyState 2%nat detail quota
                Hfinal Hre) as Hthrown.
  split; [| split; [| split; [| split; [| split; [| split]]]]].
  - split; [done |]. split; [exact Hthrown |]. split; reflexivity.
  - split; [done |]. split.
    + exact (Hlast malformedWorld plainClient (GetChannelInfo "UC1") emptyState 0%nat
               lookup malformed Hfinal' Hre').
    + destruct (Hkinds malformedWorld 0%nat lookup malformed Hre')
        as (_ & [(error & Hfail & _) | Hmal]); [discriminate Hfail | exact Hmal].
  - split; [exact Hthrown |].
    assert (Hnot : quota ∉ ownFailures).
    { unfold ownFailures. intros Hin.
      repeat (apply elem_of_cons in Hin as [Hin | Hin]; [discriminate Hin |]).
      by apply elem_of_nil in Hin. }
    split; [exact Hnot |].
    destruct (Hsurfaced detailQuotaWorld plainClient uploads emptyState _ Hthrown)
      as (e & Heq & [Hin | Hcall]); injection Heq as <-; [by destruct Hnot | exact Hcall].
  - assert (Hin : notFound ∈ ownFailures) by apply ownFailures_not_found.
    split; [exact Hin |]. exact (Hown notFound Hin).
  - assert (Hbad : ∀ items : list YouTubeChannelItem.t, BodyNoItems ≠ BodyItems items)
      by (intros items; discriminate).
    split; [exact Hbad |]. by apply Hmalformed.
  - split; [reflexivity |]. by apply Hblank.
  - split; [repeat split |]. by apply Hnotfound.
Defined.

End FailureProps.
